(** * audio-normalizer: the upload handler, the worker and the content store

    A shallow embedding of the two programs of the repository,

      - [main.go]   (module [MainGo]):  transcodes through the ffmpeg-go
        binding, reserves the output slot with an exclusive create of
        the [.tmp] path, and ignores the result of [os.Rename];
      - the second program (module [Part000]): runs [ffmpeg] through
        [exec.CommandContext] under a three second deadline, validates
        the produced file, checks [os.Rename], and creates no marker.

    Both programs share [sha256Hex], [respond], [httpError], [ternary]
    and the validation prefix of [normalizeHandler]; those are embedded
    once.  The file system is a finite map from paths to file contents,
    the external transcoder and the operating system's failures are an
    explicit environment, and the goroutines of the server are a labelled
    transition system over a shared state. *)

From Stdlib Require Import NArith ZArith Ascii String List Lia Bool.
From stdpp Require Import base option list gmap strings fin_maps.

Open Scope string_scope.
Open Scope list_scope.

(** ** Bytes *)

Definition byte_of_N (n : N) : Byte.byte :=
  match Byte.of_N (n mod 256) with
  | Some b => b
  | None => Byte.x00
  end.

(** ** crypto/sha256 (FIPS 180-4), on 32-bit words held in [N] *)

Module Sha256.

Definition mask32 : N := 0xFFFFFFFF.
Definition w32 (x : N) : N := N.land x mask32.
Definition add32 (x y : N) : N := w32 (x + y).
Definition rotr (n x : N) : N :=
  N.lor (N.shiftr x n) (w32 (N.shiftl x (32 - n))).
Definition shr (n x : N) : N := N.shiftr x n.
Definition not32 (x : N) : N := N.lxor x mask32.

Definition Ch (x y z : N) : N := N.lxor (N.land x y) (N.land (not32 x) z).
Definition Maj (x y z : N) : N :=
  N.lxor (N.lxor (N.land x y) (N.land x z)) (N.land y z).
Definition Sigma0 (x : N) : N := N.lxor (N.lxor (rotr 2 x) (rotr 13 x)) (rotr 22 x).
Definition Sigma1 (x : N) : N := N.lxor (N.lxor (rotr 6 x) (rotr 11 x)) (rotr 25 x).
Definition sigma0 (x : N) : N := N.lxor (N.lxor (rotr 7 x) (rotr 18 x)) (shr 3 x).
Definition sigma1 (x : N) : N := N.lxor (N.lxor (rotr 17 x) (rotr 19 x)) (shr 10 x).

(** The round constants are the first 32 bits of the fractional parts of
    the cube roots of the first 64 primes, the initial hash value those
    of the square roots of the first 8. *)
Definition is_prime (n : nat) : bool :=
  forallb (fun d => negb (n mod d =? 0)%nat) (seq 2 (n - 2)).

Definition primes : list N := map N.of_nat (List.filter is_prime (seq 2 310)).

(** The largest [r] below [2^36] with [r^3 <= n]. *)
Definition cube_root (n : N) : N :=
  fold_left (fun r b => let r' := (r + N.shiftl 1 (N.of_nat b))%N in
                        if (r' * r' * r' <=? n)%N then r' else r)
            (rev (seq 0 36)) 0%N.

Definition K : list N :=
  Eval vm_compute in map (fun p => w32 (cube_root (N.shiftl p 96))) primes.

Definition H0 : list N :=
  Eval vm_compute in map (fun p => w32 (N.sqrt (N.shiftl p 64))) (firstn 8 primes).

(** Big-endian encodings. *)
Definition be_bytes (width : nat) (x : N) : list N :=
  map (fun i => N.land (N.shiftr x (8 * N.of_nat i)) 0xFF) (rev (seq 0 width)).

Definition be_word (bs : list N) : N :=
  fold_left (fun acc b => N.lor (N.shiftl acc 8) b) bs 0%N.

(** The message, a [0x80] byte, zeros up to 56 modulo 64, and the bit
    length on eight bytes. *)
Definition pad (msg : list N) : list N :=
  let n := length msg in
  msg ++ [0x80%N] ++ repeat 0%N ((119 - n mod 64) mod 64)
      ++ be_bytes 8 (8 * N.of_nat n).

Fixpoint chunks {A} (fuel size : nat) (l : list A) : list (list A) :=
  match fuel, l with
  | O, _ | _, [] => []
  | S fuel', _ => firstn size l :: chunks fuel' size (skipn size l)
  end.

(** The schedule is kept newest word first: the head is [W(t-1)]. *)
Definition schedule_next (r : list N) : N :=
  add32 (add32 (sigma1 (nth 1 r 0%N)) (nth 6 r 0%N))
        (add32 (sigma0 (nth 14 r 0%N)) (nth 15 r 0%N)).

Fixpoint schedule_grow (n : nat) (r : list N) : list N :=
  match n with
  | O => r
  | S n' => schedule_grow n' (schedule_next r :: r)
  end.

Definition schedule (block : list N) : list N :=
  rev (schedule_grow 48 (rev (map be_word (chunks 16 4 block)))).

Definition round (v : list N) (kw : N * N) : list N :=
  match v with
  | [a; b; c; d; e; f; g; h] =>
      let t1 := add32 (add32 (add32 h (Sigma1 e)) (add32 (Ch e f g) (fst kw))) (snd kw) in
      let t2 := add32 (Sigma0 a) (Maj a b c) in
      [add32 t1 t2; a; b; c; add32 d t1; e; f; g]
  | _ => v
  end.

Definition compress (h : list N) (block : list N) : list N :=
  map (fun p => add32 (fst p) (snd p))
      (combine h (fold_left round (combine K (schedule block)) h)).

(** [sha256.Sum256]: the 32 digest bytes. *)
Definition Sum256 (b : list Byte.byte) : list Byte.byte :=
  let padded := pad (map Byte.to_N b) in
  let blocks := chunks (length padded) 64 padded in
  map byte_of_N (concat (map (be_bytes 4) (fold_left compress blocks H0))).

End Sha256.

(** ** encoding/hex *)

Definition hextable : string := "0123456789abcdef".

Definition hexdigit (n : N) : ascii :=
  match String.get (N.to_nat n) hextable with
  | Some c => c
  | None => "0"%char
  end.

(** [hex.EncodeToString]: two characters of [hextable] per byte, the
    high nibble first. *)
Fixpoint EncodeToString (src : list Byte.byte) : string :=
  match src with
  | [] => EmptyString
  | v :: rest =>
      let n := Byte.to_N v in
      String (hexdigit (N.shiftr n 4))
             (String (hexdigit (N.land n 0x0f)) (EncodeToString rest))
  end.

(** [sha256Hex] of the source. *)
Definition sha256Hex (b : list Byte.byte) : string :=
  let h := Sha256.Sum256 b in
  EncodeToString h.

Definition bytes_of_string (s : string) : list Byte.byte :=
  map byte_of_ascii (list_ascii_of_string s).

(** ** strings and path/filepath *)

(** [strings.ToLower].  Only the ASCII letters are mapped: no character
    outside ASCII lowers to a character of [".mp3"] or [".wav"], so the
    extension test below decides as the Unicode mapping does. *)
Definition lower_ascii (c : ascii) : ascii :=
  let n := nat_of_ascii c in
  if (65 <=? n)%nat && (n <=? 90)%nat then ascii_of_nat (n + 32) else c.

Fixpoint ToLower (s : string) : string :=
  match s with
  | EmptyString => EmptyString
  | String c rest => String (lower_ascii c) (ToLower rest)
  end.

Definition IsPathSeparator (c : ascii) : bool := Ascii.eqb c "/"%char.

(** [filepath.Ext] walks the path from its end and stops at the first
    separator; [ext_scan] is that loop, the later indices first. *)
Inductive ext_scan_result :=
| ExtFound (suffix : string)
| ExtSeparator
| ExtNone.

Fixpoint ext_scan (path : string) : ext_scan_result :=
  match path with
  | EmptyString => ExtNone
  | String c rest =>
      match ext_scan rest with
      | ExtFound s => ExtFound s
      | ExtSeparator => ExtSeparator
      | ExtNone =>
          if IsPathSeparator c then ExtSeparator
          else if Ascii.eqb c "."%char then ExtFound path
          else ExtNone
      end
  end.

Definition Ext (path : string) : string :=
  match ext_scan path with
  | ExtFound s => s
  | _ => EmptyString
  end.

(** [filepath.Join] of a clean directory and one plain element. *)
Definition Join (dir elem : string) : string := dir +:+ "/" +:+ elem.

(** [filepath.Base]: the last element, trailing separators dropped. *)
Fixpoint drop_separators (r : list ascii) : list ascii :=
  match r with
  | c :: r' => if IsPathSeparator c then drop_separators r' else r
  | [] => []
  end.

Fixpoint until_separator (r : list ascii) : list ascii :=
  match r with
  | c :: r' => if IsPathSeparator c then [] else c :: until_separator r'
  | [] => []
  end.

Definition Base (path : string) : string :=
  match path with
  | EmptyString => "."
  | _ =>
      match drop_separators (rev (list_ascii_of_string path)) with
      | [] => "/"
      | r => string_of_list_ascii (rev (until_separator r))
      end
  end.

(** ** Constants of both programs *)

Definition MaxUploadSize : Z := Z.shiftl 10 20.
Definition SampleRate : Z := 16000.
Definition StorageDir : string := "storage/normalized".
Definition WorkerCount : nat := 4.
(** Capacity of [jobQueue = make(chan Job, 32)]. *)
Definition QueueCapacity : nat := 32.
(** [os.TempDir()] with [$TMPDIR] unset. *)
Definition TempDir : string := "/tmp".

(** ** Go slices

    A slice is a window of length [slen] on a backing array; [backing]
    is the array from the slice's first element on, so its length is the
    capacity.  A slice expression [s[:hi]] is in range when
    [hi <= cap(s)], not [len(s)]. *)
Record slice := Slice { backing : list Byte.byte; slen : nat }.

Definition cap (s : slice) : nat := length (backing s).
Definition bytes (s : slice) : list Byte.byte := firstn (slen s) (backing s).

Definition slice_to (s : slice) (hi : nat) : option slice :=
  if (hi <=? cap s)%nat then Some (Slice (backing s) hi) else None.

(** [io.ReadAll] starts from [make([]byte, 0, 512)], reads into the
    spare capacity and grows the buffer with [append] whenever it is
    full; [spare] is what the last growth left beyond the first 512
    bytes.  The backing array is zeroed beyond the bytes read. *)
Definition ReadAll (payload : list Byte.byte) (spare : nat) : slice :=
  Slice (payload ++ repeat Byte.x00 ((512 - length payload) + spare))
        (length payload).

(** ** The file system *)

Abbreviation FS := (gmap string (list Byte.byte)).

(** [os.Stat]: the size when the path exists ([FileInfo.Size]). *)
Definition Stat (fs : FS) (path : string) : option Z :=
  (fun b => Z.of_nat (length b)) <$> fs !! path.

(** [os.Remove].  Both programs discard its error: when the call fails
    the file is still there and the program goes on. *)
Definition Remove (err : option string) (path : string) (fs : FS) : FS :=
  match err with
  | Some _ => fs
  | None => delete path fs
  end.

(** ** Requests and responses *)

Record Upload := {
  filename : string;            (* header.Filename *)
  payload : list Byte.byte;      (* what io.ReadAll(file) reads *)
  readErr : option string;       (* io.ReadAll's error *)
  spare : nat                    (* capacity left by the runtime *)
}.

Record Request := {
  formErr : option string;       (* error of r.ParseMultipartForm *)
  fileField : option Upload      (* r.FormFile("file") *)
}.

(** The JSON object written by [respond].  [transactionId],
    [processingMs] and [createdAt] are clock readings and are left out. *)
Record Body := {
  fileId : string;
  originalFilename : string;
  normalizedFilename : string;
  sampleRate : Z;
  channels : Z;
  encoding : string;
  sizeBytes : Z;
  status : string
}.

Inductive Response :=
| Success (b : Body)
| Failure (statusCode : Z) (code msg : string).

Inductive Panic :=
| SliceBounds          (* slice bounds out of range *)
| NilDereference.     (* method call on a nil interface *)

Inductive Outcome :=
| Responded (r : Response)
| Panicked (p : Panic).

Definition ternary {T} (cond : bool) (a b : T) : T :=
  if cond then a else b.

Definition httpError (statusCode : Z) (code msg : string) : Outcome :=
  Responded (Failure statusCode code msg).

(** [respond]: [info, _ := os.Stat(path)] and then [info.Size()]; when
    the path is missing [info] is nil and the call panics. *)
Definition respond (fs : FS) (hash original path : string) (skipped : bool)
  : Outcome :=
  match Stat fs path with
  | None => Panicked NilDereference
  | Some size =>
      Responded (Success {|
        fileId := hash;
        originalFilename := original;
        normalizedFilename := Base path;
        sampleRate := SampleRate;
        channels := 1;
        encoding := "pcm_s16le";
        sizeBytes := size;
        status := ternary skipped "skipped" "done" |})
  end.

(** ** The validation prefix of [normalizeHandler]

    Everything from [r.ParseMultipartForm] to the computation of [hash]
    is the same text in both programs. *)
Record Accepted := {
  a_filename : string;
  a_ext : string;
  a_data : slice;
  a_first16 : slice;             (* what the handler prints *)
  a_hash : string
}.

Definition checkUpload (r : Request) : Outcome + Accepted :=
  match formErr r with
  | Some e => inl (httpError 400 "INVALID_FORM" e)
  | None =>
  match fileField r with
  | None => inl (httpError 400 "NO_FILE" "missing file field")
  | Some u =>
  let ext := ToLower (Ext (filename u)) in
  if negb (String.eqb ext ".mp3") && negb (String.eqb ext ".wav")
  then inl (httpError 400 "UNSUPPORTED_FORMAT" "only mp3 and wav supported")
  else
  match readErr u with
  | Some e => inl (httpError 500 "READ_FAILED" e)
  | None =>
  let data := ReadAll (payload u) (spare u) in
  if (Z.of_nat (slen data) >? MaxUploadSize)%Z
  then inl (httpError 400 "FILE_TOO_LARGE" "max upload size is 10MB")
  else
  match slice_to data 16 with
  | None => inl (Panicked SliceBounds)
  | Some first16 =>
      inr {| a_filename := filename u;
             a_ext := ext;
             a_data := data;
             a_first16 := first16;
             a_hash := sha256Hex (bytes data) |}
  end end end end.

Definition outPathOf (hash : string) : string := Join StorageDir (hash +:+ ".wav").
Definition tmpPathOf (hash : string) : string := outPathOf hash +:+ ".tmp".
Definition tmpInputOf (hash ext : string) : string := Join TempDir (hash +:+ ext).


(** ** Jobs, results and the environment *)

(** [context.Context] values the handlers build. *)
Inductive Context :=
| RequestContext                                   (* r.Context() *)
| WithTimeout (parent : Context) (seconds : Z).   (* context.WithTimeout *)

(** What [ctx.Err()] reports once the context is done. *)
Inductive CtxErr :=
| DeadlineExceeded
| Canceled.

(** The [result] channel of a job is named by a number; every handler
    makes its own. *)
Record Job := {
  ctx : Context;
  data : slice;
  hash : string;
  ext : string;
  outPath : string;
  result : nat
}.

(** [Duration] is never assigned in either program and is left out. *)
Record Result := {
  Size : Z;
  Sha256 : string;
  Err : option string
}.

Definition failure (e : string) : Result :=
  {| Size := 0; Sha256 := ""; Err := Some e |}.

(** Everything the programs do not decide themselves: the failures the
    operating system may report on their file system calls, the
    behaviour of the external [ffmpeg] process, and the state of the
    job's context when [process] looks at it. *)
Record Env := {
  writeErr : option string;      (* os.WriteFile(tmpInput, ...) *)
  writeLeft : option (list Byte.byte);
                                 (* what a failed os.WriteFile left at the
                                    path, None when it created no file *)
  runFailed : bool;              (* Run() returned a non-nil error *)
  stderr : string;               (* the captured error output *)
  written : option (list Byte.byte);
                                 (* what ffmpeg left at the output path,
                                    None when it wrote nothing *)
  ctxErr : option CtxErr;        (* job.ctx.Err() after Run() *)
  claimErr : option string;      (* os.OpenFile, other than ErrExist *)
  renameErr : option string;     (* os.Rename *)
  removeInputErr : option string;
                                 (* the deferred os.Remove(tmpInput) *)
  removeErr : option string      (* os.Remove(tmpPath) *)
}.

(** [os.WriteFile] when it fails: [process] returns before its
    [defer os.Remove(tmpInput)] is set up, so what the call created
    stays. *)
Definition failedWrite (env : Env) (path : string) (fs : FS) : FS :=
  match writeLeft env with
  | Some b => <[path := b]> fs
  | None => fs
  end.

(** The transcoder's effect on the file system. *)
Definition ffmpegRun (env : Env) (tmpOutput : string) (fs : FS) : FS :=
  match written env with
  | Some b => <[tmpOutput := b]> fs
  | None => fs
  end.

(** [os.Rename]: fails when the environment says so or when the source
    is missing, and otherwise replaces the destination. *)
Definition Rename (env : Env) (src dst : string) (fs : FS) : option string * FS :=
  match renameErr env with
  | Some e => (Some e, fs)
  | None =>
      match fs !! src with
      | None => (Some ("rename " +:+ src +:+ " " +:+ dst +:+ ": no such file or directory"), fs)
      | Some b => (None, <[dst := b]> (delete src fs))
      end
  end.

(** [os.Open] followed by [io.Copy(h, file)]: the size and the digest of
    what is read; a missing file reads as nothing. *)
Definition hashFile (fs : FS) (path : string) : Z * string :=
  let content := default [] (fs !! path) in
  (Z.of_nat (length content), EncodeToString (Sha256.Sum256 content)).

(** ** The goroutines *)

(** Where a handler goroutine stands. *)
Inductive hstate :=
| HStart (req : Request)
| HLookup (a : Accepted)                 (* before os.Stat(outPath) *)
| HClaim (a : Accepted)                  (* before os.OpenFile(tmpPath) *)
| HSend (a : Accepted)                   (* before jobQueue <- job *)
| HWait (a : Accepted)                   (* at <-job.result *)
| HRespond (a : Accepted) (skipped : bool)  (* before respond's os.Stat *)
| HDone (o : Outcome).

Record State := {
  files : FS;
  jobQueue : list Job;                   (* the buffered channel *)
  running : list Job;                    (* jobs received by a worker *)
  results : gmap nat Result;             (* the result channels *)
  handlers : list hstate;
  ffmpegCalls : list string              (* hashes given to ffmpeg so far *)
}.

Definition initial (fs : FS) : State :=
  {| files := fs; jobQueue := []; running := []; results := ∅;
     handlers := []; ffmpegCalls := [] |}.

(** The steps of the system.  [main] starts [WorkerCount] workers, each
    running [for job := range jobQueue { job.result <- process(job) }]:
    one turn of that loop is a [Take] followed by a [Work]. *)
Inductive action :=
| Arrive (req : Request)                 (* a request starts a handler *)
| Handler (i : nat) (env : Env)          (* handler i runs to its next call *)
| Take                                   (* a free worker receives a job *)
| Work (k : nat) (env : Env).            (* running job k is processed and
                                            its result sent *)

(** One step of a handler: its new position, the new file system, the
    jobs it sent and whether it consumed its result. *)
Record hmove := {
  m_next : hstate;
  m_files : FS;
  m_sent : list Job;
  m_received : bool
}.

Section System.

Variable hnext : Env -> nat -> hstate -> FS -> bool -> option Result -> option hmove.
Variable process : Env -> Job -> FS -> Result * FS.

Definition step (act : action) (s : State) : option State :=
  match act with
  | Arrive req =>
      Some {| files := files s; jobQueue := jobQueue s; running := running s;
              results := results s;
              handlers := handlers s ++ [HStart req];
              ffmpegCalls := ffmpegCalls s |}
  | Handler i env =>
      match handlers s !! i with
      | None => None
      | Some h =>
          match hnext env i h (files s)
                      (length (jobQueue s) <? QueueCapacity)%nat
                      (results s !! i) with
          | None => None
          | Some m =>
              Some {| files := m_files m;
                      jobQueue := jobQueue s ++ m_sent m;
                      running := running s;
                      results := if m_received m then delete i (results s)
                                 else results s;
                      handlers := <[i := m_next m]> (handlers s);
                      ffmpegCalls := ffmpegCalls s |}
          end
      end
  | Take =>
      match jobQueue s with
      | [] => None
      | j :: q =>
          if (length (running s) <? WorkerCount)%nat
          then Some {| files := files s; jobQueue := q;
                       running := running s ++ [j];
                       results := results s; handlers := handlers s;
                       ffmpegCalls := ffmpegCalls s |}
          else None
      end
  | Work k env =>
      match running s !! k with
      | None => None
      | Some j =>
          match results s !! result j with
          | Some _ => None
          | None =>
              let '(res, fs') := process env j (files s) in
              Some {| files := fs'; jobQueue := jobQueue s;
                      running := delete k (running s);
                      results := <[result j := res]> (results s);
                      handlers := handlers s;
                      ffmpegCalls :=
                        ffmpegCalls s ++
                          match writeErr env with
                          | None => [hash j]
                          | Some _ => []
                          end |}
          end
      end
  end.

Fixpoint exec (acts : list action) (s : State) : option State :=
  match acts with
  | [] => Some s
  | act :: rest =>
      match step act s with
      | Some s' => exec rest s'
      | None => None
      end
  end.

Definition reachable (s : State) : Prop :=
  exists fs0 acts, exec acts (initial fs0) = Some s.

End System.

Definition stay (h : hstate) (fs : FS) : option hmove :=
  Some {| m_next := h; m_files := fs; m_sent := []; m_received := false |}.

(** The external command a worker runs: the context it is bound to, if
    any, and its arguments. *)
Record Cmd := {
  cmdCtx : option Context;
  cmdArgs : list string
}.

(** What one sequential run of [normalizeHandler] leaves behind. *)
Record Finished := {
  outcome : Outcome;
  store : FS;
  enqueued : list Job;           (* the jobs sent on jobQueue *)
  received : option Result       (* the result read from job.result *)
}.

Definition finish (o : Outcome) (fs : FS) : Finished :=
  {| outcome := o; store := fs; enqueued := []; received := None |}.

(** ** main.go *)

Module MainGo.

Definition mkJob (i : nat) (a : Accepted) : Job :=
  {| ctx := RequestContext;
     data := a_data a;
     hash := a_hash a;
     ext := a_ext a;
     outPath := tmpPathOf (a_hash a);
     result := i |}.

(** [ffmpeg.Input(tmpInput).Output(tmpOutput, KwArgs{...})]: the
    binding is given no context; the key/value pairs are listed as the
    source writes them. *)
Definition command (job : Job) : Cmd :=
  {| cmdCtx := None;
     cmdArgs := ["-i"; tmpInputOf (hash job) (ext job);
                 "-ac"; "1"; "-ar"; "16000"; "-sample_fmt"; "s16";
                 "-f"; "wav"; outPath job] |}.

Definition process (env : Env) (job : Job) (fs : FS) : Result * FS :=
  let tmpInput := Join TempDir (hash job +:+ ext job) in
  let tmpOutput := outPath job in
  match writeErr env with
  | Some e => (failure e, failedWrite env tmpInput fs)
  | None =>
      let fs1 := <[tmpInput := bytes (data job)]> fs in
      let fs2 := ffmpegRun env tmpOutput fs1 in
      let fs3 := Remove (removeInputErr env) tmpInput fs2 in
      if runFailed env
      then (failure ("ffmpeg: " +:+ stderr env), fs3)
      else
        let '(size, sum) := hashFile fs2 tmpOutput in
        ({| Size := size; Sha256 := sum; Err := None |}, fs3)
  end.

(** [normalizeHandler], one request from start to end with the job
    processed while the handler waits. *)
Definition normalizeHandler (env : Env) (req : Request) (fs : FS) : Finished :=
  match checkUpload req with
  | inl o => finish o fs
  | inr a =>
      let hash := a_hash a in
      let outPath := Join StorageDir (hash +:+ ".wav") in
      match Stat fs outPath with
      | Some _ => finish (respond fs hash (a_filename a) outPath true) fs
      | None =>
          let tmpPath := outPath +:+ ".tmp" in
          match claimErr env, fs !! tmpPath with
          | Some e, _ => finish (httpError 500 "FS_ERROR" e) fs
          | None, Some _ =>
              (* errors.Is(err, os.ErrExist) *)
              finish (respond fs hash (a_filename a) outPath true) fs
          | None, None =>
              let fs1 := <[tmpPath := []]> fs in
              let job := mkJob 0 a in
              let '(res, fs2) := process env job fs1 in
              match Err res with
              | Some e =>
                  {| outcome := httpError 500 "FFMPEG_FAILED" e;
                     store := Remove (removeErr env) tmpPath fs2;
                     enqueued := [job]; received := Some res |}
              | None =>
                  let fs3 := snd (Rename env tmpPath outPath fs2) in
                  {| outcome := respond fs3 hash (a_filename a) outPath false;
                     store := fs3;
                     enqueued := [job]; received := Some res |}
              end
          end
      end
  end.

(** The same function cut at its blocking and file system calls. *)
Definition hnext (env : Env) (i : nat) (h : hstate) (fs : FS)
           (room : bool) (inbox : option Result) : option hmove :=
  match h with
  | HStart req =>
      match checkUpload req with
      | inl o => stay (HDone o) fs
      | inr a => stay (HLookup a) fs
      end
  | HLookup a =>
      match Stat fs (outPathOf (a_hash a)) with
      | Some _ => stay (HRespond a true) fs
      | None => stay (HClaim a) fs
      end
  | HClaim a =>
      match claimErr env, fs !! tmpPathOf (a_hash a) with
      | Some e, _ => stay (HDone (httpError 500 "FS_ERROR" e)) fs
      | None, Some _ => stay (HRespond a true) fs
      | None, None => stay (HSend a) (<[tmpPathOf (a_hash a) := []]> fs)
      end
  | HSend a =>
      if room
      then Some {| m_next := HWait a; m_files := fs;
                   m_sent := [mkJob i a]; m_received := false |}
      else None
  | HWait a =>
      match inbox with
      | None => None
      | Some res =>
          match Err res with
          | Some e =>
              Some {| m_next := HDone (httpError 500 "FFMPEG_FAILED" e);
                      m_files := Remove (removeErr env) (tmpPathOf (a_hash a)) fs;
                      m_sent := []; m_received := true |}
          | None =>
              Some {| m_next := HRespond a false;
                      m_files := snd (Rename env (tmpPathOf (a_hash a))
                                             (outPathOf (a_hash a)) fs);
                      m_sent := []; m_received := true |}
          end
      end
  | HRespond a skipped =>
      stay (HDone (respond fs (a_hash a) (a_filename a)
                           (outPathOf (a_hash a)) skipped)) fs
  | HDone _ => None
  end.

Definition step := step hnext process.
Definition exec := exec hnext process.
Definition reachable := reachable hnext process.

End MainGo.

(** ** The second program *)

Module Part000.

Definition mkJob (i : nat) (a : Accepted) : Job :=
  {| ctx := WithTimeout RequestContext 3;
     data := a_data a;
     hash := a_hash a;
     ext := a_ext a;
     outPath := tmpPathOf (a_hash a);
     result := i |}.

(** [exec.CommandContext(job.ctx, "ffmpeg", ...)]. *)
Definition command (job : Job) : Cmd :=
  {| cmdCtx := Some (ctx job);
     cmdArgs := ["-y"; "-loglevel"; "error";
                 "-i"; tmpInputOf (hash job) (ext job);
                 "-ac"; "1"; "-ar"; "16000"; "-sample_fmt"; "s16";
                 "-f"; "wav"; outPath job] |}.

Definition process (env : Env) (job : Job) (fs : FS) : Result * FS :=
  let tmpInput := Join TempDir (hash job +:+ ext job) in
  let tmpOutput := outPath job in
  match writeErr env with
  | Some e => (failure e, failedWrite env tmpInput fs)
  | None =>
      let fs1 := <[tmpInput := bytes (data job)]> fs in
      let fs2 := ffmpegRun env tmpOutput fs1 in
      let fs3 := Remove (removeInputErr env) tmpInput fs2 in
      if runFailed env
      then
        match ctxErr env with
        | Some DeadlineExceeded => (failure "ffmpeg timed out", fs3)
        | Some Canceled => (failure "request cancelled", fs3)
        | None => (failure ("ffmpeg failed: " +:+ stderr env), fs3)
        end
      else
        match Stat fs2 tmpOutput with
        | None =>
            (failure ("stat " +:+ tmpOutput +:+ ": no such file or directory"), fs3)
        | Some size =>
            if (size =? 0)%Z
            then (failure "ffmpeg produced empty output", fs3)
            else
              let '(size, sum) := hashFile fs2 tmpOutput in
              ({| Size := size; Sha256 := sum; Err := None |}, fs3)
        end
  end.

Definition normalizeHandler (env : Env) (req : Request) (fs : FS) : Finished :=
  match checkUpload req with
  | inl o => finish o fs
  | inr a =>
      let hash := a_hash a in
      let outPath := Join StorageDir (hash +:+ ".wav") in
      match Stat fs outPath with
      | Some _ => finish (respond fs hash (a_filename a) outPath true) fs
      | None =>
          let tmpPath := outPath +:+ ".tmp" in
          let job := mkJob 0 a in
          let '(res, fs1) := process env job fs in
          match Err res with
          | Some e =>
              {| outcome := httpError 500 "FFMPEG_FAILED" e;
                 store := Remove (removeErr env) tmpPath fs1;
                 enqueued := [job]; received := Some res |}
          | None =>
              match Rename env tmpPath outPath fs1 with
              | (Some e, fs2) =>
                  {| outcome := httpError 500 "FS_ERROR" e;
                     store := Remove (removeErr env) tmpPath fs2;
                     enqueued := [job]; received := Some res |}
              | (None, fs2) =>
                  {| outcome := respond fs2 hash (a_filename a) outPath false;
                     store := fs2;
                     enqueued := [job]; received := Some res |}
              end
          end
      end
  end.

Definition hnext (env : Env) (i : nat) (h : hstate) (fs : FS)
           (room : bool) (inbox : option Result) : option hmove :=
  match h with
  | HStart req =>
      match checkUpload req with
      | inl o => stay (HDone o) fs
      | inr a => stay (HLookup a) fs
      end
  | HLookup a =>
      match Stat fs (outPathOf (a_hash a)) with
      | Some _ => stay (HRespond a true) fs
      | None => stay (HSend a) fs
      end
  | HClaim a => None
  | HSend a =>
      if room
      then Some {| m_next := HWait a; m_files := fs;
                   m_sent := [mkJob i a]; m_received := false |}
      else None
  | HWait a =>
      match inbox with
      | None => None
      | Some res =>
          match Err res with
          | Some e =>
              Some {| m_next := HDone (httpError 500 "FFMPEG_FAILED" e);
                      m_files := Remove (removeErr env) (tmpPathOf (a_hash a)) fs;
                      m_sent := []; m_received := true |}
          | None =>
              match Rename env (tmpPathOf (a_hash a)) (outPathOf (a_hash a)) fs with
              | (Some e, fs') =>
                  Some {| m_next := HDone (httpError 500 "FS_ERROR" e);
                          m_files := Remove (removeErr env) (tmpPathOf (a_hash a)) fs';
                          m_sent := []; m_received := true |}
              | (None, fs') =>
                  Some {| m_next := HRespond a false; m_files := fs';
                          m_sent := []; m_received := true |}
              end
          end
      end
  | HRespond a skipped =>
      stay (HDone (respond fs (a_hash a) (a_filename a)
                           (outPathOf (a_hash a)) skipped)) fs
  | HDone _ => None
  end.

Definition step := step hnext process.
Definition exec := exec hnext process.
Definition reachable := reachable hnext process.

End Part000.

(** ** Both programs under one name *)

Inductive program := main_go | part_000.

Definition process (p : program) : Env -> Job -> FS -> Result * FS :=
  match p with
  | main_go => MainGo.process
  | part_000 => Part000.process
  end.

Definition normalizeHandler (p : program) : Env -> Request -> FS -> Finished :=
  match p with
  | main_go => MainGo.normalizeHandler
  | part_000 => Part000.normalizeHandler
  end.

Definition execute (p : program) : list action -> State -> option State :=
  match p with
  | main_go => MainGo.exec
  | part_000 => Part000.exec
  end.

(** The extension test of the handler. *)
Definition supported (name : string) : Prop :=
  ToLower (Ext name) = ".mp3" \/ ToLower (Ext name) = ".wav".

(** An upload that passes every validation of the handler. *)
Definition valid (req : Request) (u : Upload) : Prop :=
  formErr req = None /\ fileField req = Some u /\ supported (filename u) /\
  readErr u = None /\ (Z.of_nat (length (payload u)) <= MaxUploadSize)%Z.

Definition lowercase_hex (s : string) : Prop :=
  Forall (fun c => In c (list_ascii_of_string hextable)) (list_ascii_of_string s).

(** ** Concrete inputs used by the examples *)

Definition wavHeader : list Byte.byte := bytes_of_string "RIFF$000WAVEfmt ".

Definition upload_wav (content : list Byte.byte) : Upload :=
  {| filename := "a.wav"; payload := content; readErr := None; spare := 0 |}.

Definition request_of (u : Upload) : Request :=
  {| formErr := None; fileField := Some u |}.

(** An environment without failures in which ffmpeg writes [out]. *)
Definition ffmpeg_writes (out : list Byte.byte) : Env :=
  {| writeErr := None; runFailed := false; stderr := ""; written := Some out;
     ctxErr := None; claimErr := None; renameErr := None;
     writeLeft := None; removeInputErr := None; removeErr := None |}.

(** An environment without failures in which ffmpeg exits with status
    zero and writes nothing. *)
Definition ffmpeg_silent : Env :=
  {| writeErr := None; runFailed := false; stderr := ""; written := None;
     ctxErr := None; claimErr := None; renameErr := None;
     writeLeft := None; removeInputErr := None; removeErr := None |}.

(** ffmpeg fails with [msg] on its error output; [c] is the state of the
    job's context. *)
Definition ffmpeg_fails (msg : string) (c : option CtxErr) : Env :=
  {| writeErr := None; runFailed := true; stderr := msg; written := None;
     ctxErr := c; claimErr := None; renameErr := None;
     writeLeft := None; removeInputErr := None; removeErr := None |}.

(** ffmpeg writes [out] and [os.Rename] then fails with [e]. *)
Definition rename_fails (out : list Byte.byte) (e : string) : Env :=
  {| writeErr := None; runFailed := false; stderr := ""; written := Some out;
     ctxErr := None; claimErr := None; renameErr := Some e;
     writeLeft := None; removeInputErr := None; removeErr := None |}.

(** What [checkUpload] hands on for an upload that passes. *)
Definition accepted_of (u : Upload) : Accepted :=
  {| a_filename := filename u;
     a_ext := ToLower (Ext (filename u));
     a_data := ReadAll (payload u) (spare u);
     a_first16 := Slice (backing (ReadAll (payload u) (spare u))) 16;
     a_hash := sha256Hex (payload u) |}.

(** The file system after a worker has written the input, run ffmpeg and
    called [os.Remove] on the input. *)
Definition worked (env : Env) (job : Job) (fs : FS) : FS :=
  Remove (removeInputErr env) (tmpInputOf (hash job) (ext job))
         (ffmpegRun env (outPath job)
                    (<[tmpInputOf (hash job) (ext job) := bytes (data job)]> fs)).

(** The file system as a worker finds it when [Run()] returns: the input
    materialized and whatever ffmpeg wrote. *)
Definition afterRun (env : Env) (job : Job) (fs : FS) : FS :=
  ffmpegRun env (outPath job)
            (<[tmpInputOf (hash job) (ext job) := bytes (data job)]> fs).

(** The request, the job and the marker used in the worked examples. *)
Definition wavRequest : Request := request_of (upload_wav wavHeader).
Definition wavHash : string := sha256Hex wavHeader.
Definition wavJob (p : program) : Job :=
  match p with
  | main_go => MainGo.mkJob 0 (accepted_of (upload_wav wavHeader))
  | part_000 => Part000.mkJob 0 (accepted_of (upload_wav wavHeader))
  end.
(** The store once [main.go]'s handler has created its marker. *)
Definition claimed : FS := {[ tmpPathOf wavHash := [] ]}.

(** ** Single flight *)

(** The jobs that were sent and whose result is not yet produced:
    waiting in the channel or in the hands of a worker. *)
Definition pending (s : State) : list Job := jobQueue s ++ running s.

Definition jobs_for (h : string) (s : State) : nat :=
  length (filter (fun j => hash j = h) (pending s)).

Definition calls_for (h : string) (s : State) : nat :=
  length (filter (fun x => x = h) (ffmpegCalls s)).

(** A handler holds the claim on [h] from the exclusive create of the
    marker until it has read its result. *)
Definition holds (h : string) (st : hstate) : Prop :=
  match st with
  | HSend a | HWait a => a_hash a = h
  | _ => False
  end.

Definition waiting (st : hstate) : Prop :=
  match st with
  | HWait _ => True
  | _ => False
  end.

(** The invariant of [main.go]'s claims. *)
Record claims_held (s : State) : Prop := {
  held_once : forall i j hi hj h,
      handlers s !! i = Some hi -> handlers s !! j = Some hj ->
      holds h hi -> holds h hj -> i = j;
  held_marked : forall i hi h,
      handlers s !! i = Some hi -> holds h hi ->
      is_Some (files s !! tmpPathOf h);
  pending_waits : forall j,
      j ∈ pending s ->
      exists a, handlers s !! result j = Some (HWait a) /\
                hash j = a_hash a /\ results s !! result j = None;
  pending_nodup : NoDup (result <$> pending s);
  delivered_waits : forall i res,
      results s !! i = Some res ->
      exists a, handlers s !! i = Some (HWait a)
}.

(** Requests that are all in flight before any of them is served. *)
Definition is_arrival (act : action) : bool :=
  match act with
  | Arrive _ => true
  | _ => false
  end.

(** The claim of single flight, for requests submitted together: at
    most one job per content is pending, ffmpeg runs at most once per
    content, and any two success bodies for one content report the same
    size. *)
Definition single_flight (p : program) : Prop :=
  forall (fs0 : FS) (reqs : list Request) (rest : list action) (s : State),
    forallb (fun act => negb (is_arrival act)) rest = true ->
    execute p (map Arrive reqs ++ rest) (initial fs0) = Some s ->
    (forall h, jobs_for h s <= 1)%nat /\
    (forall h, calls_for h s <= 1)%nat /\
    (forall i j bi bj,
        handlers s !! i = Some (HDone (Responded (Success bi))) ->
        handlers s !! j = Some (HDone (Responded (Success bj))) ->
        fileId bi = fileId bj -> sizeBytes bi = sizeBytes bj).

(** Two identical uploads served by [main.go]: the second handler looks
    for the entry before the first has finalized it, and creates its
    marker after. *)
Definition firstOutput : list Byte.byte := bytes_of_string "first output".
Definition secondOutput : list Byte.byte := bytes_of_string "second".
Definition quiet : Env := ffmpeg_silent.

Definition main_go_first_finalized : list action :=
  [ Handler 0 quiet; Handler 1 quiet;       (* both pass the validations *)
    Handler 0 quiet; Handler 1 quiet;       (* both find no entry *)
    Handler 0 quiet; Handler 0 quiet;       (* 0 creates the marker, sends *)
    Take; Work 0 (ffmpeg_writes firstOutput);
    Handler 0 quiet; Handler 0 quiet ].     (* 0 renames and answers *)

Definition main_go_second_processed : list action :=
  main_go_first_finalized ++
  [ Handler 1 quiet; Handler 1 quiet;       (* 1 creates the marker, sends *)
    Take; Work 0 (ffmpeg_writes secondOutput) ].

Definition main_go_race : list action :=
  main_go_second_processed ++
  [ Handler 1 quiet; Handler 1 quiet ].     (* 1 renames and answers *)

(** The second handler meets the marker of the first. *)
Definition main_go_claim_lost : list action :=
  [ Handler 0 quiet; Handler 1 quiet;
    Handler 0 quiet; Handler 1 quiet;
    Handler 0 quiet;                        (* 0 creates the marker *)
    Handler 1 quiet;                        (* 1: ErrExist *)
    Handler 1 quiet ].                      (* 1: respond *)

(** The same two uploads served by the second program. *)
Definition part_000_both_sent : list action :=
  [ Handler 0 quiet; Handler 1 quiet;
    Handler 0 quiet; Handler 1 quiet;
    Handler 0 quiet; Handler 1 quiet ].     (* both send their job *)

Definition part_000_second_processed : list action :=
  part_000_both_sent ++
  [ Take; Take; Work 0 (ffmpeg_writes firstOutput);
    Handler 0 quiet; Handler 0 quiet;       (* 0 renames and answers *)
    Work 0 (ffmpeg_writes secondOutput) ].

Definition part_000_race : list action :=
  part_000_second_processed ++
  [ Handler 1 quiet; Handler 1 quiet ].     (* 1 renames and answers *)

Definition twice : list action := [Arrive wavRequest; Arrive wavRequest].




(** The state a trace leads to from the empty store. *)
Definition state_after (p : program) (acts : list action) : State :=
  default (initial ∅) (execute p acts (initial ∅)).

Definition step_of (p : program) : action -> State -> option State :=
  match p with
  | main_go => MainGo.step
  | part_000 => Part000.step
  end.

Definition hnext_of (p : program)
  : Env -> nat -> hstate -> FS -> bool -> option Result -> option hmove :=
  match p with
  | main_go => MainGo.hnext
  | part_000 => Part000.hnext
  end.

(** ** Reachable states of either program *)

Definition reachable_in (p : program) (s : State) : Prop :=
  exists fs0 acts, execute p acts (initial fs0) = Some s.

(** A string without dot and without path separator. *)
Definition plain (e : string) : Prop :=
  Forall (fun c => c <> "."%char /\ c <> "/"%char) (list_ascii_of_string e).

(** ** Channels and workers *)

(** The channel discipline both programs keep: the jobs on their way
    belong to different handlers, each blocked at [<-job.result] on an
    empty channel; a result in a channel belongs to a handler blocked
    there; and a handler blocked there has its job on the way or its
    result in the channel. *)
Record channels_ok (s : State) : Prop := {
  ch_nodup : NoDup (result <$> pending s);
  ch_pending : forall j,
      j ∈ pending s ->
      exists a, handlers s !! result j = Some (HWait a) /\
                hash j = a_hash a /\ results s !! result j = None;
  ch_results : forall i res,
      results s !! i = Some res ->
      exists a, handlers s !! i = Some (HWait a);
  ch_waiting : forall i a,
      handlers s !! i = Some (HWait a) ->
      is_Some (results s !! i) \/ exists j, j ∈ pending s /\ result j = i
}.

Definition bounded (s : State) : Prop :=
  (length (jobQueue s) <= QueueCapacity)%nat /\
  (length (running s) <= WorkerCount)%nat.

Definition finished (h : hstate) : Prop :=
  match h with
  | HDone _ => True
  | _ => False
  end.

(** The states a program's handler passes through: the second program
    never stands before an exclusive create. *)
Definition known_state (p : program) (h : hstate) : Prop :=
  match p, h with
  | part_000, HClaim _ => False
  | _, _ => True
  end.

(** The three kinds of step a handler takes, as far as the channels are
    concerned. *)
Inductive move_shape (p : program) (i : nat) (h : hstate) (inbox : option Result)
          (m : hmove) : Prop :=
| shape_quiet :
    ~ waiting h -> ~ waiting (m_next m) -> known_state p (m_next m) ->
    m_sent m = [] -> m_received m = false ->
    move_shape p i h inbox m
| shape_send (a : Accepted) (j : Job) :
    h = HSend a -> m_next m = HWait a -> m_sent m = [j] ->
    result j = i -> hash j = a_hash a -> m_received m = false ->
    move_shape p i h inbox m
| shape_receive (a : Accepted) (res : Result) :
    h = HWait a -> inbox = Some res -> ~ waiting (m_next m) ->
    known_state p (m_next m) ->
    m_sent m = [] -> m_received m = true ->
    move_shape p i h inbox m.

(** ** What the handlers carry in every interleaving *)

Definition mkJob_of (p : program) : nat -> Accepted -> Job :=
  match p with
  | main_go => MainGo.mkJob
  | part_000 => Part000.mkJob
  end.

(** The upload a handler works on once it is past the validations. *)
Definition carries (h : hstate) : option Accepted :=
  match h with
  | HLookup a | HClaim a | HSend a | HWait a | HRespond a _ => Some a
  | HStart _ | HDone _ => None
  end.

(** Past the validations a handler works on what [checkUpload] made of
    a valid upload, and a job on its way is the job its handler built
    from that upload. *)
Record uploads_valid (p : program) (s : State) : Prop := {
  uv_handlers : forall i h a,
      handlers s !! i = Some h -> carries h = Some a ->
      exists req u, valid req u /\ a = accepted_of u;
  uv_jobs : forall j,
      j ∈ pending s ->
      exists a, handlers s !! result j = Some (HWait a) /\
                j = mkJob_of p (result j) a
}.


(** A step in which the removal of a [.tmp] file does not fail: no
    [os.Remove] fails, and in [main.go], which does not look at the
    result of [os.Rename], no [os.Rename] either. *)
Definition cleans (p : program) (act : action) : Prop :=
  match act with
  | Handler _ env => removeErr env = None /\ (p = main_go -> renameErr env = None)
  | _ => True
  end.

(** Every [.tmp] file of the store belongs to a handler that is between
    its claim and its receive. *)
Definition markers_held (s : State) : Prop :=
  forall k, is_Some (files s !! tmpPathOf k) ->
            exists i h, handlers s !! i = Some h /\ holds k h.

(** * Checks of the embedding on known values *)

Example round_constants :
  length Sha256.K = 64%nat /\
  firstn 2 Sha256.K = [0x428a2f98; 0x71374491]%N /\
  List.last Sha256.K 0%N = 0xc67178f2%N /\
  firstn 2 Sha256.H0 = [0x6a09e667; 0xbb67ae85]%N.
Proof. vm_compute. repeat split; reflexivity. Qed.

Example sha256Hex_empty :
  sha256Hex [] = "e3b0c44298fc1c149afbf4c8996fb92427ae41e4649b934ca495991b7852b855".
Proof. vm_compute. reflexivity. Qed.

Example sha256Hex_abc :
  sha256Hex (bytes_of_string "abc")
  = "ba7816bf8f01cfea414140de5dae2223b00361a396177a9cb410ff61f20015ad".
Proof. vm_compute. reflexivity. Qed.

Example sha256Hex_two_blocks :
  sha256Hex (bytes_of_string "abcdbcdecdefdefgefghfghighijhijkijkljklmklmnlmnomnopnopq")
  = "248d6a61d20638b8e5c026930c3e6039a33ce45964ff2167f6ecedd419db06c1".
Proof. vm_compute. reflexivity. Qed.

Example Ext_upper : ToLower (Ext "dir.d/Take.One.WAV") = ".wav".
Proof. reflexivity. Qed.

Example Base_out : Base (outPathOf "00ff") = "00ff.wav".
Proof. reflexivity. Qed.

Example Ext_none : Ext "a.b/readme" = "".
Proof. reflexivity. Qed.

Example MaxUploadSize_value : MaxUploadSize = 10485760%Z.
Proof. reflexivity. Qed.

(** A three byte payload: the slice of the first 16 bytes is in range and
    shows the payload followed by the zeros of [io.ReadAll]'s buffer. *)
Example short_payload_first16 :
  option_map bytes (slice_to (ReadAll (bytes_of_string "abc") 0) 16)
  = Some (bytes_of_string "abc" ++ repeat Byte.x00 13) /\
  slice_to (Slice (bytes_of_string "abc") 3) 16 = None.
Proof. split; reflexivity. Qed.

(** One request on an empty store, in both programs. *)
Example first_request_done :
  outcome (normalizeHandler main_go (ffmpeg_writes firstOutput) wavRequest ∅)
  = outcome (normalizeHandler part_000 (ffmpeg_writes firstOutput) wavRequest ∅) /\
  store (normalizeHandler main_go (ffmpeg_writes firstOutput) wavRequest ∅)
  = {[ outPathOf wavHash := firstOutput ]} /\
  store (normalizeHandler part_000 (ffmpeg_writes firstOutput) wavRequest ∅)
  = {[ outPathOf wavHash := firstOutput ]}.
Proof. repeat split; vm_compute; reflexivity. Qed.

Example unsupported_extension :
  outcome (normalizeHandler main_go quiet
             (request_of {| filename := "a.txt"; payload := wavHeader;
                            readErr := None; spare := 0 |}) ∅)
  = httpError 400 "UNSUPPORTED_FORMAT" "only mp3 and wav supported".
Proof. reflexivity. Qed.

(** * Slices and the validation prefix *)

Arguments sha256Hex : simpl never.
Arguments Sha256.Sum256 : simpl never.
Arguments Base : simpl never.

Lemma firstn_repeat_le {A} (x : A) (n m : nat) :
  (n <= m)%nat -> firstn n (repeat x m) = repeat x n.
Proof.
  revert m. induction n as [|n IH]; intros [|m] H; simpl; try reflexivity; [lia|].
  f_equal. apply IH. lia.
Qed.

Lemma bytes_ReadAll (p : list Byte.byte) (s : nat) : bytes (ReadAll p s) = p.
Proof. unfold bytes, ReadAll; simpl. apply take_app_length. Qed.

Lemma cap_ReadAll (p : list Byte.byte) (s : nat) : (512 <= cap (ReadAll p s))%nat.
Proof. unfold cap, ReadAll; simpl. rewrite length_app, repeat_length. lia. Qed.

Lemma slice_to_ReadAll (p : list Byte.byte) (s hi : nat) :
  (hi <= 512)%nat ->
  slice_to (ReadAll p s) hi = Some (Slice (backing (ReadAll p s)) hi).
Proof.
  intros Hhi. unfold slice_to.
  pose proof (cap_ReadAll p s) as Hcap.
  destruct (Nat.leb_spec hi (cap (ReadAll p s))); [reflexivity | lia].
Qed.

Lemma supported_test (name : string) :
  supported name <->
  negb (String.eqb (ToLower (Ext name)) ".mp3")
  && negb (String.eqb (ToLower (Ext name)) ".wav") = false.
Proof.
  unfold supported.
  destruct (String.eqb_spec (ToLower (Ext name)) ".mp3") as [E1|E1];
    destruct (String.eqb_spec (ToLower (Ext name)) ".wav") as [E2|E2];
    simpl; intuition congruence.
Qed.

Lemma checkUpload_valid (req : Request) (u : Upload) :
  valid req u -> checkUpload req = inr (accepted_of u).
Proof.
  intros (Hf & Hu & Hext & Hr & Hlen).
  unfold checkUpload. rewrite Hf, Hu.
  apply supported_test in Hext. rewrite Hext, Hr.
  replace (slen (ReadAll (payload u) (spare u))) with (length (payload u))
    by reflexivity.
  destruct (Z.gtb_spec (Z.of_nat (length (payload u))) MaxUploadSize) as [Hgt|_];
    [lia|].
  rewrite slice_to_ReadAll by lia.
  unfold accepted_of. rewrite bytes_ReadAll. reflexivity.
Qed.

Lemma checkUpload_accepted (req : Request) (a : Accepted) :
  checkUpload req = inr a -> exists u, valid req u /\ a = accepted_of u.
Proof.
  unfold checkUpload.
  destruct (formErr req) eqn:Hf; [discriminate|].
  destruct (fileField req) as [u|] eqn:Hu; [|discriminate].
  destruct (negb (String.eqb (ToLower (Ext (filename u))) ".mp3")
            && negb (String.eqb (ToLower (Ext (filename u))) ".wav")) eqn:Hext;
    [discriminate|].
  destruct (readErr u) eqn:Hr; [discriminate|].
  replace (slen (ReadAll (payload u) (spare u))) with (length (payload u))
    by reflexivity.
  destruct (Z.gtb_spec (Z.of_nat (length (payload u))) MaxUploadSize) as [|Hle];
    [discriminate|].
  rewrite slice_to_ReadAll by lia. rewrite bytes_ReadAll.
  intros [= <-]. exists u. split; [|reflexivity].
  repeat split; auto. now apply supported_test.
Qed.

(** The rejections of the prefix, in the order of the source. *)
Lemma checkUpload_too_large (req : Request) (u : Upload) :
  formErr req = None -> fileField req = Some u -> supported (filename u) ->
  readErr u = None -> (MaxUploadSize < Z.of_nat (length (payload u)))%Z ->
  checkUpload req = inl (httpError 400 "FILE_TOO_LARGE" "max upload size is 10MB").
Proof.
  intros Hf Hu Hext Hr Hlen.
  unfold checkUpload. rewrite Hf, Hu.
  apply supported_test in Hext. rewrite Hext, Hr.
  replace (slen (ReadAll (payload u) (spare u))) with (length (payload u))
    by reflexivity.
  destruct (Z.gtb_spec (Z.of_nat (length (payload u))) MaxUploadSize); [reflexivity|lia].
Qed.

Lemma checkUpload_never_bounds (req : Request) :
  checkUpload req <> inl (Panicked SliceBounds).
Proof.
  unfold checkUpload.
  destruct (formErr req); [discriminate|].
  destruct (fileField req) as [u|]; [|discriminate].
  destruct (_ && _); [discriminate|].
  destruct (readErr u); [discriminate|].
  destruct (_ >? _)%Z; [discriminate|].
  rewrite slice_to_ReadAll by lia. discriminate.
Qed.

(** * Paths *)

Lemma list_ascii_app (s t : string) :
  list_ascii_of_string (s +:+ t) = list_ascii_of_string s ++ list_ascii_of_string t.
Proof. induction s as [|c s IH]; simpl; [reflexivity | now rewrite IH]. Qed.

Lemma string_app_inv_tail (s1 s2 t : string) : s1 +:+ t = s2 +:+ t -> s1 = s2.
Proof.
  intros H. apply (f_equal list_ascii_of_string) in H.
  rewrite !list_ascii_app in H. apply List.app_inv_tail in H.
  rewrite <- (string_of_list_ascii_of_string s1),
          <- (string_of_list_ascii_of_string s2).
  now rewrite H.
Qed.

Lemma string_app_inv_head (s t1 t2 : string) : s +:+ t1 = s +:+ t2 -> t1 = t2.
Proof.
  intros H. apply (f_equal list_ascii_of_string) in H.
  rewrite !list_ascii_app in H. apply List.app_inv_head in H.
  rewrite <- (string_of_list_ascii_of_string t1),
          <- (string_of_list_ascii_of_string t2).
  now rewrite H.
Qed.

Lemma outPathOf_inj (h1 h2 : string) : outPathOf h1 = outPathOf h2 -> h1 = h2.
Proof.
  unfold outPathOf, Join. intros H.
  do 2 apply string_app_inv_head in H. now apply string_app_inv_tail in H.
Qed.

Lemma tmpPathOf_inj (h1 h2 : string) : tmpPathOf h1 = tmpPathOf h2 -> h1 = h2.
Proof.
  unfold tmpPathOf. intros H. apply string_app_inv_tail in H.
  now apply outPathOf_inj.
Qed.

Lemma tmpPathOf_not_outPathOf (h1 h2 : string) : tmpPathOf h1 <> outPathOf h2.
Proof.
  unfold tmpPathOf, outPathOf, Join. intros H.
  apply (f_equal (fun s => rev (list_ascii_of_string s))) in H.
  rewrite !list_ascii_app, !rev_app_distr in H. simpl in H. discriminate.
Qed.

Lemma tmpInputOf_not_outPathOf (h e h' : string) : tmpInputOf h e <> outPathOf h'.
Proof.
  unfold tmpInputOf, outPathOf, Join, TempDir, StorageDir. intros H.
  apply (f_equal list_ascii_of_string) in H.
  rewrite !list_ascii_app in H. simpl in H. discriminate.
Qed.

Lemma tmpInputOf_not_tmpPathOf (h e h' : string) : tmpInputOf h e <> tmpPathOf h'.
Proof.
  unfold tmpInputOf, tmpPathOf, outPathOf, Join, TempDir, StorageDir. intros H.
  apply (f_equal list_ascii_of_string) in H.
  rewrite !list_ascii_app in H. simpl in H. discriminate.
Qed.

(** * The worker *)

Lemma Remove_other (err : option string) (path q : string) (fs : FS) :
  q <> path -> Remove err path fs !! q = fs !! q.
Proof.
  intros H. unfold Remove. destruct err; [reflexivity|].
  now rewrite lookup_delete_ne by congruence.
Qed.

Lemma Remove_done (path : string) (fs : FS) : Remove None path fs !! path = None.
Proof. apply lookup_delete_eq. Qed.

Lemma Remove_subset (err : option string) (path q : string) (fs : FS) :
  is_Some (Remove err path fs !! q) -> is_Some (fs !! q).
Proof.
  unfold Remove. destruct err; [auto|].
  destruct (decide (q = path)) as [->|H].
  - rewrite lookup_delete_eq. now intros [? ?].
  - now rewrite lookup_delete_ne by congruence.
Qed.

Lemma failedWrite_other (env : Env) (path q : string) (fs : FS) :
  q <> path -> failedWrite env path fs !! q = fs !! q.
Proof.
  intros H. unfold failedWrite. destruct (writeLeft env); [|reflexivity].
  now rewrite lookup_insert_ne by congruence.
Qed.

Lemma failedWrite_keeps (env : Env) (path q : string) (fs : FS) :
  is_Some (fs !! q) -> is_Some (failedWrite env path fs !! q).
Proof.
  intros H. unfold failedWrite. destruct (writeLeft env); [|exact H].
  destruct (decide (path = q)) as [->|Hne].
  - rewrite lookup_insert_eq. eauto.
  - now rewrite lookup_insert_ne by assumption.
Qed.

Lemma process_store (p : program) (env : Env) (job : Job) (fs : FS) :
  snd (process p env job fs)
  = match writeErr env with
    | Some _ => failedWrite env (tmpInputOf (hash job) (ext job)) fs
    | None => worked env job fs
    end.
Proof.
  destruct p; unfold process, MainGo.process, Part000.process, worked,
    tmpInputOf, hashFile;
    destruct (writeErr env); try reflexivity.
  - destruct (runFailed env); reflexivity.
  - destruct (runFailed env); [destruct (ctxErr env) as [[]|]; reflexivity|].
    destruct (Stat _ _); [|reflexivity].
    destruct (_ =? _)%Z; reflexivity.
Qed.

Lemma worked_other (env : Env) (job : Job) (fs : FS) (path : string) :
  path <> tmpInputOf (hash job) (ext job) -> path <> outPath job ->
  worked env job fs !! path = fs !! path.
Proof.
  intros H1 H2. unfold worked, ffmpegRun.
  rewrite Remove_other by congruence.
  destruct (written env).
  - rewrite lookup_insert_ne by congruence. now rewrite lookup_insert_ne by congruence.
  - now rewrite lookup_insert_ne by congruence.
Qed.

Lemma worked_output (env : Env) (job : Job) (fs : FS) :
  outPath job <> tmpInputOf (hash job) (ext job) ->
  worked env job fs !! outPath job
  = match written env with Some b => Some b | None => fs !! outPath job end.
Proof.
  intros H. unfold worked, ffmpegRun.
  rewrite Remove_other by congruence.
  destruct (written env).
  - apply lookup_insert_eq.
  - now rewrite lookup_insert_ne by congruence.
Qed.

(** A worker changes nothing but its input and its output path. *)
Lemma process_frame (p : program) (env : Env) (job : Job) (fs : FS) (path : string) :
  path <> tmpInputOf (hash job) (ext job) -> path <> outPath job ->
  snd (process p env job fs) !! path = fs !! path.
Proof.
  intros H1 H2. rewrite process_store.
  destruct (writeErr env); [now apply failedWrite_other | now apply worked_other].
Qed.

(** * [respond] *)

Lemma respond_success (fs : FS) (h o path : string) (sk : bool) (b : Body) :
  respond fs h o path sk = Responded (Success b) ->
  Stat fs path = Some (sizeBytes b) /\ fileId b = h /\ originalFilename b = o /\
  sampleRate b = 16000%Z /\ channels b = 1%Z /\ encoding b = "pcm_s16le" /\
  status b = (if sk then "skipped" else "done").
Proof.
  unfold respond. destruct (Stat fs path) as [n|]; [|discriminate].
  intros [= <-]. simpl. destruct sk; repeat split; reflexivity.
Qed.

Lemma respond_present (fs : FS) (h o path : string) (sk : bool) (n : Z) :
  Stat fs path = Some n ->
  exists b, respond fs h o path sk = Responded (Success b) /\
            sizeBytes b = n /\ fileId b = h /\
            status b = (if sk then "skipped" else "done").
Proof.
  intros H. unfold respond. rewrite H. eexists. split; [reflexivity|].
  destruct sk; repeat split; reflexivity.
Qed.

Lemma respond_not_failure (fs : FS) (h o path : string) (sk : bool)
      (c : Z) (code msg : string) :
  respond fs h o path sk <> Responded (Failure c code msg).
Proof. unfold respond. destruct (Stat fs path); discriminate. Qed.

Lemma respond_not_bounds (fs : FS) (h o path : string) (sk : bool) :
  respond fs h o path sk <> Panicked SliceBounds.
Proof. unfold respond. destruct (Stat fs path); discriminate. Qed.


(** * [os.Rename] *)

Lemma Rename_ok (env : Env) (src dst : string) (fs fs' : FS) :
  Rename env src dst fs = (None, fs') ->
  exists b, renameErr env = None /\ fs !! src = Some b /\
            fs' = <[dst := b]> (delete src fs).
Proof.
  unfold Rename. destruct (renameErr env); [discriminate|].
  destruct (fs !! src) as [b|]; [|discriminate].
  intros [= <-]. eauto.
Qed.

Lemma Rename_failed (env : Env) (src dst : string) (fs fs' : FS) (e : string) :
  Rename env src dst fs = (Some e, fs') -> fs' = fs.
Proof.
  unfold Rename. destruct (renameErr env); [now intros [= _ <-]|].
  destruct (fs !! src); [discriminate | now intros [= _ <-]].
Qed.

(** * Case analysis of the handlers *)

Ltac handler_cases :=
  unfold normalizeHandler, MainGo.normalizeHandler, Part000.normalizeHandler;
  repeat match goal with
  | H : checkUpload ?r = _ |- context [checkUpload ?r] => rewrite H
  | |- context [match Stat ?fs ?p with _ => _ end] =>
      let E := fresh "Hstat" in destruct (Stat fs p) eqn:E
  | |- context [match claimErr ?e with _ => _ end] =>
      let E := fresh "Hclaim" in destruct (claimErr e) eqn:E
  | |- context [match ?fs !! ?p with _ => _ end] =>
      let E := fresh "Hmark" in destruct (fs !! p) eqn:E
  | |- context [match MainGo.process ?e ?j ?f with _ => _ end] =>
      let E := fresh "Hproc" in destruct (MainGo.process e j f) eqn:E
  | |- context [match Part000.process ?e ?j ?f with _ => _ end] =>
      let E := fresh "Hproc" in destruct (Part000.process e j f) eqn:E
  | |- context [match Err ?r with _ => _ end] =>
      let E := fresh "Herr" in destruct (Err r) eqn:E
  | |- context [match Rename ?e ?a ?b ?f with _ => _ end] =>
      let E := fresh "Hren" in destruct (Rename e a b f) as [[?|] ?] eqn:E
  end.

(** The failures an accepted upload can end in. *)
Lemma accepted_failure_codes (p : program) (env : Env) (req : Request)
      (a : Accepted) (fs : FS) (c : Z) (code msg : string) :
  checkUpload req = inr a ->
  outcome (normalizeHandler p env req fs) = Responded (Failure c code msg) ->
  c = 500%Z /\ (code = "FS_ERROR" \/ code = "FFMPEG_FAILED").
Proof.
  intros Ha.
  destruct p; handler_cases; simpl; intros H;
    try (now apply respond_not_failure in H);
    injection H as <- <- <-; auto.
Qed.

(** Nothing is sent and nothing is stored when the prefix rejects. *)
Lemma rejected_untouched (p : program) (env : Env) (req : Request)
      (o : Outcome) (fs : FS) :
  checkUpload req = inl o ->
  normalizeHandler p env req fs = finish o fs.
Proof. intros Ho. destruct p; handler_cases; reflexivity. Qed.

Lemma respond_cases (fs : FS) (h o path : string) (sk : bool) :
  (exists b, respond fs h o path sk = Responded (Success b))
  \/ (respond fs h o path sk = Panicked NilDereference /\ fs !! path = None).
Proof.
  unfold respond, Stat. destruct (fs !! path); simpl; eauto.
Qed.

(** No run of either handler ends in a slice bounds panic. *)
Lemma handler_never_bounds (p : program) (env : Env) (req : Request) (fs : FS) :
  outcome (normalizeHandler p env req fs) <> Panicked SliceBounds.
Proof.
  destruct (checkUpload req) as [o|a] eqn:Hc.
  - rewrite (rejected_untouched p env req o fs Hc). simpl.
    intros ->. now apply checkUpload_never_bounds in Hc.
  - destruct p; handler_cases; simpl;
      first [apply respond_not_bounds | discriminate].
Qed.

(** The second program answers every accepted upload. *)
Lemma part_000_always_responds (env : Env) (req : Request) (a : Accepted) (fs : FS) :
  checkUpload req = inr a ->
  exists r, outcome (Part000.normalizeHandler env req fs) = Responded r.
Proof.
  intros Ha. handler_cases; simpl; try (unfold httpError; eauto; fail).
  - unfold respond. rewrite Hstat. eauto.
  - apply Rename_ok in Hren as (b & _ & _ & ->).
    unfold respond, Stat. rewrite lookup_insert_eq.
    cbn [fmap option_fmap option_map]. eauto.
Qed.

(** [main.go] answers an accepted upload unless [respond] finds no file. *)
Lemma main_go_responds_or_nil (env : Env) (req : Request) (a : Accepted) (fs : FS) :
  checkUpload req = inr a ->
  let r := MainGo.normalizeHandler env req fs in
  (exists x, outcome r = Responded x)
  \/ (outcome r = Panicked NilDereference /\ store r !! outPathOf (a_hash a) = None).
Proof.
  intros Ha. handler_cases; simpl; try (left; unfold httpError; eauto; fail).
  - left. unfold respond. rewrite Hstat. eauto.
  - destruct (respond_cases fs (a_hash a) (a_filename a)
                (Join StorageDir (a_hash a +:+ ".wav")) true) as [[b Hb]|[Hn Hl]].
    + left. rewrite Hb. eauto.
    + right. split; assumption.
  - match goal with |- context [respond ?f ?h ?o ?q ?k] =>
      destruct (respond_cases f h o q k) as [[b Hb]|[Hn Hl]] end.
    + left. rewrite Hb. eauto.
    + right. split; assumption.
Qed.

(** * The digest is 64 lowercase hexadecimal characters *)

Lemma hexdigit_in_table (n : N) : In (hexdigit n) (list_ascii_of_string hextable).
Proof.
  unfold hexdigit. generalize (N.to_nat n) as m. intros m.
  do 16 (destruct m as [|m]; [simpl; tauto|]).
  simpl. tauto.
Qed.

Lemma EncodeToString_lowercase (l : list Byte.byte) : lowercase_hex (EncodeToString l).
Proof.
  unfold lowercase_hex. induction l as [|v l IH]; simpl.
  - constructor.
  - constructor; [apply hexdigit_in_table|].
    constructor; [apply hexdigit_in_table | exact IH].
Qed.

Lemma EncodeToString_length (l : list Byte.byte) :
  String.length (EncodeToString l) = (2 * length l)%nat.
Proof. induction l as [|v l IH]; simpl; [reflexivity | rewrite IH; lia]. Qed.

Lemma round_length (v : list N) (kw : N * N) :
  length v = 8%nat -> length (Sha256.round v kw) = 8%nat.
Proof.
  intros H. do 8 (destruct v as [|? v]; [discriminate|]).
  destruct v; [reflexivity | discriminate].
Qed.

Lemma rounds_length (kws : list (N * N)) (v : list N) :
  length v = 8%nat -> length (fold_left Sha256.round kws v) = 8%nat.
Proof.
  revert v. induction kws as [|kw kws IH]; intros v H; simpl; [exact H|].
  apply IH. now apply round_length.
Qed.

Lemma compress_length (h block : list N) :
  length h = 8%nat -> length (Sha256.compress h block) = 8%nat.
Proof.
  intros H. unfold Sha256.compress.
  rewrite length_map, length_combine, rounds_length by exact H. lia.
Qed.

Lemma digest_words_length (blocks : list (list N)) (h : list N) :
  length h = 8%nat -> length (fold_left Sha256.compress blocks h) = 8%nat.
Proof.
  revert h. induction blocks as [|b blocks IH]; intros h H; simpl; [exact H|].
  apply IH. now apply compress_length.
Qed.

Lemma Sum256_length (b : list Byte.byte) : length (Sha256.Sum256 b) = 32%nat.
Proof.
  unfold Sha256.Sum256. rewrite length_map.
  set (ws := fold_left Sha256.compress _ _).
  assert (Hws : length ws = 8%nat) by (apply digest_words_length; reflexivity).
  do 8 (destruct ws as [|? ws]; [discriminate|]).
  destruct ws; [reflexivity | discriminate].
Qed.

Lemma sha256Hex_shape (b : list Byte.byte) :
  String.length (sha256Hex b) = 64%nat /\ lowercase_hex (sha256Hex b).
Proof.
  unfold sha256Hex. split.
  - now rewrite EncodeToString_length, Sum256_length.
  - apply EncodeToString_lowercase.
Qed.

(** * What a successful run leaves behind *)

Lemma tmpPathOf_unfold (h : string) :
  Join StorageDir (h +:+ ".wav") +:+ ".tmp" = tmpPathOf h.
Proof. reflexivity. Qed.

Lemma outPathOf_unfold (h : string) : Join StorageDir (h +:+ ".wav") = outPathOf h.
Proof. reflexivity. Qed.

Lemma success_entry (p : program) (env : Env) (req : Request) (a : Accepted)
      (fs : FS) (b : Body) :
  checkUpload req = inr a ->
  let r := normalizeHandler p env req fs in
  outcome r = Responded (Success b) ->
  fileId b = a_hash a /\
  Stat (store r) (outPathOf (a_hash a)) = Some (sizeBytes b) /\
  sampleRate b = 16000%Z /\ channels b = 1%Z /\ encoding b = "pcm_s16le" /\
  status b = (match fs !! outPathOf (a_hash a) with
              | Some _ => "skipped" | None => "done" end).
Proof.
  intros Ha.
  assert (Hlk : forall (f : FS) q, Stat f q = None -> f !! q = None).
  { intros f q. unfold Stat. now destruct (f !! q). }
  assert (Hlk' : forall (f : FS) q n, Stat f q = Some n -> exists x, f !! q = Some x).
  { intros f q n. unfold Stat. destruct (f !! q); [eauto | discriminate]. }
  intros r. subst r.
  set (expected := match fs !! outPathOf (a_hash a) with
                   | Some _ => "skipped" | None => "done" end).
  destruct p; handler_cases; simpl; intros H; try discriminate;
    apply respond_success in H as (H1 & H2 & _ & H4 & H5 & H6 & H7);
    rewrite ?outPathOf_unfold in *;
    try congruence;
    repeat split; try assumption;
    rewrite H7; subst expected;
    first [ apply Hlk' in Hstat as [x ->]; reflexivity
          | apply Hlk in Hstat; rewrite Hstat; reflexivity ].
Qed.

(** A success body is only written for an upload that passed the
    validations. *)
Lemma success_accepted (p : program) (env : Env) (req : Request) (fs : FS) (b : Body) :
  outcome (normalizeHandler p env req fs) = Responded (Success b) ->
  exists u, valid req u /\ checkUpload req = inr (accepted_of u).
Proof.
  intros Hout.
  destruct (checkUpload req) as [o|a] eqn:Ha.
  - exfalso. rewrite (rejected_untouched p env req o fs Ha) in Hout.
    simpl in Hout. subst o. revert Ha. unfold checkUpload.
    destruct (formErr req); [discriminate|].
    destruct (fileField req) as [u|]; [|discriminate].
    destruct (_ && _); [discriminate|].
    destruct (readErr u); [discriminate|].
    destruct (_ >? _)%Z; [discriminate|].
    destruct (slice_to _ _); discriminate.
  - destruct (checkUpload_accepted req a Ha) as (u & Hv & ->). eauto.
Qed.

Lemma handler_skips (p : program) (env : Env) (req : Request) (a : Accepted)
      (fs : FS) (n : Z) :
  checkUpload req = inr a ->
  Stat fs (outPathOf (a_hash a)) = Some n ->
  normalizeHandler p env req fs
  = finish (respond fs (a_hash a) (a_filename a) (outPathOf (a_hash a)) true) fs.
Proof.
  intros Ha Hs.
  destruct p; unfold normalizeHandler, MainGo.normalizeHandler,
    Part000.normalizeHandler; rewrite Ha; rewrite !outPathOf_unfold, Hs;
    reflexivity.
Qed.

(** * The second program's worker and finalization *)

Lemma worked_afterRun (env : Env) (job : Job) (fs : FS) :
  worked env job fs
  = Remove (removeInputErr env) (tmpInputOf (hash job) (ext job)) (afterRun env job fs).
Proof. reflexivity. Qed.

(** A result without error means ffmpeg reported success and the output
    existed with at least one byte when it was validated; [Size] is its
    length. *)
Lemma part_000_result_ok (env : Env) (job : Job) (fs : FS) :
  Err (fst (Part000.process env job fs)) = None ->
  writeErr env = None /\ runFailed env = false /\
  exists content,
    afterRun env job fs !! outPath job = Some content /\
    content <> [] /\
    Size (fst (Part000.process env job fs)) = Z.of_nat (length content).
Proof.
  unfold Part000.process, afterRun, tmpInputOf, hashFile, Stat.
  destruct (writeErr env); [discriminate|].
  destruct (runFailed env); [destruct (ctxErr env) as [[]|]; discriminate|].
  destruct (ffmpegRun env (outPath job) _ !! outPath job) as [content|];
    simpl; [|discriminate].
  destruct (Z.eqb_spec (Z.of_nat (length content)) 0) as [|Hne]; [discriminate|].
  intros _. repeat split. exists content. repeat split.
  intros ->. simpl in Hne. lia.
Qed.

(** Success reported over a missing or empty output is a failure. *)
Lemma part_000_rejects_empty_output (env : Env) (job : Job) (fs : FS) :
  writeErr env = None -> runFailed env = false ->
  afterRun env job fs !! outPath job = None \/
  afterRun env job fs !! outPath job = Some [] ->
  exists e, Err (fst (Part000.process env job fs)) = Some e.
Proof.
  intros Hw Hr Hout.
  unfold Part000.process, tmpInputOf, hashFile, Stat.
  unfold afterRun, tmpInputOf in Hout. rewrite Hw, Hr.
  destruct Hout as [-> | ->]; simpl; eauto.
Qed.

Lemma messages_distinct (s : string) :
  "ffmpeg failed: " +:+ s <> "ffmpeg timed out" /\
  "ffmpeg failed: " +:+ s <> "request cancelled" /\
  "ffmpeg timed out" <> "request cancelled".
Proof.
  repeat split; intros H; apply (f_equal list_ascii_of_string) in H;
    rewrite ?list_ascii_app in H; simpl in H; discriminate.
Qed.

(** The three failures of a run are told apart, and the command is bound
    to the job's context. *)
Lemma part_000_discriminates (env : Env) (job : Job) (fs : FS) :
  writeErr env = None -> runFailed env = true ->
  cmdCtx (Part000.command job) = Some (ctx job) /\
  Err (fst (Part000.process env job fs))
  = Some (match ctxErr env with
          | Some DeadlineExceeded => "ffmpeg timed out"
          | Some Canceled => "request cancelled"
          | None => "ffmpeg failed: " +:+ stderr env
          end).
Proof.
  intros Hw Hr. split; [reflexivity|].
  unfold Part000.process. rewrite Hw, Hr.
  destruct (ctxErr env) as [[]|]; reflexivity.
Qed.

(** After a job without error the second program renames the output; a
    failed rename calls [os.Remove] on the [.tmp] file and answers
    [FS_ERROR], a successful one answers ["done"] with the size of the
    entry. *)
Lemma part_000_finalize (env : Env) (req : Request) (fs : FS) (res : Result) :
  let r := Part000.normalizeHandler env req fs in
  received r = Some res -> Err res = None ->
  exists u, valid req u /\
    let h := sha256Hex (payload u) in
    match renameErr env with
    | Some e =>
        outcome r = httpError 500 "FS_ERROR" e /\ store r !! outPathOf h = None /\
        (removeErr env = None -> store r !! tmpPathOf h = None)
    | None =>
        store r !! tmpPathOf h = None /\
        exists b, outcome r = Responded (Success b) /\ status b = "done" /\
                  sizeBytes b = Size res /\
                  Stat (store r) (outPathOf h) = Some (sizeBytes b)
    end.
Proof.
  intros r. subst r.
  destruct (checkUpload req) as [o|a] eqn:Ha.
  { pose proof (rejected_untouched part_000 env req o fs Ha) as E.
    unfold normalizeHandler in E. rewrite E. discriminate. }
  destruct (checkUpload_accepted req a Ha) as (u & Hv & ->).
  intros Hrec He. exists u. split; [exact Hv|].
  unfold Part000.normalizeHandler in *. rewrite Ha in *.
  rewrite !tmpPathOf_unfold, !outPathOf_unfold in *.
  destruct (Stat fs (outPathOf (a_hash (accepted_of u)))) eqn:Hstat;
    [discriminate|].
  set (job := Part000.mkJob 0 (accepted_of u)) in *.
  pose proof (part_000_result_ok env job fs) as Hok.
  pose proof (process_store part_000 env job fs) as Hst.
  unfold process in Hst.
  destruct (Part000.process env job fs) as [res' fs1] eqn:Hproc.
  cbn [fst snd] in Hok, Hst.
  destruct (Err res') eqn:He'; [simpl in Hrec; congruence|].
  destruct (Hok eq_refl) as (Hw & _ & content & Hc & _ & Hsz).
  rewrite Hw in Hst. subst fs1.
  assert (Hjob : outPath job = tmpPathOf (sha256Hex (payload u))) by reflexivity.
  assert (Htmp : worked env job fs !! tmpPathOf (sha256Hex (payload u)) = Some content).
  { rewrite worked_afterRun.
    rewrite Remove_other by apply not_eq_sym, tmpInputOf_not_tmpPathOf.
    rewrite <- Hjob. exact Hc. }
  assert (Hout : worked env job fs !! outPathOf (sha256Hex (payload u)) = None).
  { rewrite worked_other.
    - unfold Stat in Hstat. simpl in Hstat.
      now destruct (fs !! outPathOf (sha256Hex (payload u))).
    - apply not_eq_sym, tmpInputOf_not_outPathOf.
    - rewrite Hjob. apply not_eq_sym, tmpPathOf_not_outPathOf. }
  assert (res' = res) as -> by (revert Hrec; destruct (Rename _ _ _ _) as [[?|] ?];
                                 simpl; congruence).
  unfold Rename. simpl a_hash. cbv zeta.
  destruct (renameErr env) as [e|]; simpl.
  - split; [reflexivity|]. split.
    + rewrite Remove_other by apply not_eq_sym, tmpPathOf_not_outPathOf.
      exact Hout.
    + intros ->. apply Remove_done.
  - rewrite Htmp. simpl. split.
    + rewrite lookup_insert_ne by apply not_eq_sym, tmpPathOf_not_outPathOf.
      apply lookup_delete_eq.
    + unfold respond, Stat. rewrite lookup_insert_eq.
      cbn [fmap option_fmap option_map].
      eexists. split; [reflexivity|].
      cbn [status sizeBytes ternary]. repeat split; congruence.
Qed.

(** * [main.go]'s worker *)

(** Whatever the output looks like, a run that reports success gives a
    result without error. *)
Lemma main_go_never_validates (env : Env) (job : Job) (fs : FS) :
  writeErr env = None -> runFailed env = false ->
  Err (fst (MainGo.process env job fs)) = None.
Proof.
  intros Hw Hr. unfold MainGo.process, hashFile. now rewrite Hw, Hr.
Qed.

(** A failed run gives the same error whatever the state of the context. *)
Lemma main_go_one_message (env : Env) (job : Job) (fs : FS) :
  writeErr env = None -> runFailed env = true ->
  Err (fst (MainGo.process env job fs)) = Some ("ffmpeg: " +:+ stderr env).
Proof.
  intros Hw Hr. unfold MainGo.process. now rewrite Hw, Hr.
Qed.

(** * The claim invariant of [main.go] *)

Lemma claims_held_initial (fs0 : FS) : claims_held (initial fs0).
Proof.
  split; simpl.
  - intros i j hi hj h Hi. discriminate.
  - intros i hi h Hi. discriminate.
  - intros j Hj. unfold pending in Hj. simpl in Hj. now apply elem_of_nil in Hj.
  - constructor.
  - intros i res Hi. rewrite lookup_empty in Hi. discriminate.
Qed.

Lemma worked_keeps (env : Env) (job : Job) (fs : FS) (q : string) :
  q <> tmpInputOf (hash job) (ext job) ->
  is_Some (fs !! q) -> is_Some (worked env job fs !! q).
Proof.
  intros Hq Hs. unfold worked, ffmpegRun.
  rewrite Remove_other by congruence.
  destruct (written env).
  - destruct (decide (outPath job = q)) as [->|Hne].
    + rewrite lookup_insert_eq. eauto.
    + rewrite lookup_insert_ne by assumption.
      now rewrite lookup_insert_ne by congruence.
  - now rewrite lookup_insert_ne by congruence.
Qed.

Lemma process_keeps_markers (p : program) (env : Env) (job : Job) (fs : FS) (h : string) :
  is_Some (fs !! tmpPathOf h) ->
  is_Some (snd (process p env job fs) !! tmpPathOf h).
Proof.
  intros Hs. rewrite process_store.
  destruct (writeErr env); [now apply failedWrite_keeps|].
  apply worked_keeps; [|exact Hs].
  apply not_eq_sym, tmpInputOf_not_tmpPathOf.
Qed.

Lemma handler_move_preserves (s : State) (i : nat) (h hn : hstate)
      (fs' : FS) (sent : list Job) (res' : gmap nat Result) :
  claims_held s -> handlers s !! i = Some h ->
  (forall j, j ∈ pending s -> result j <> i) ->
  (forall k, holds k hn -> holds k h \/ files s !! tmpPathOf k = None) ->
  (forall k, holds k hn -> is_Some (fs' !! tmpPathOf k)) ->
  (forall k j hj, j <> i -> handlers s !! j = Some hj -> holds k hj ->
                  is_Some (fs' !! tmpPathOf k)) ->
  (forall j, j ∈ sent -> result j = i /\ exists a, hn = HWait a /\ hash j = a_hash a) ->
  NoDup (result <$> sent) ->
  res' !! i = None -> (forall k, k <> i -> res' !! k = results s !! k) ->
  claims_held {| files := fs'; jobQueue := jobQueue s ++ sent;
                 running := running s; results := res';
                 handlers := <[i := hn]> (handlers s);
                 ffmpegCalls := ffmpegCalls s |}.
Proof.
  intros Inv Hi Hfree Hnew Hown Hothers Hsent Hnd Hres Hres'.
  assert (Hlen : i < length (handlers s)) by (apply lookup_lt_is_Some; eauto).
  assert (Hpend : forall j,
             j ∈ (jobQueue s ++ sent) ++ running s <-> j ∈ pending s \/ j ∈ sent).
  { intros j. unfold pending. rewrite !elem_of_app. tauto. }
  split; simpl.
  - intros i1 j1 hi hj k H1 H2 Hh1 Hh2.
    apply list_lookup_insert_Some in H1 as [(<- & <- & _)|(Hn1 & H1)];
      apply list_lookup_insert_Some in H2 as [(E2 & <- & _)|(Hn2 & H2)];
      try congruence.
    + destruct (Hnew k Hh1) as [Hold|Hnone].
      * exact (held_once s Inv _ _ _ _ _ Hi H2 Hold Hh2).
      * destruct (held_marked s Inv _ _ _ H2 Hh2) as [x Hx]. congruence.
    + subst j1. destruct (Hnew k Hh2) as [Hold|Hnone].
      * exact (held_once s Inv _ _ _ _ _ H1 Hi Hh1 Hold).
      * destruct (held_marked s Inv _ _ _ H1 Hh1) as [x Hx]. congruence.
    + exact (held_once s Inv _ _ _ _ _ H1 H2 Hh1 Hh2).
  - intros i1 hi k H1 Hh1.
    apply list_lookup_insert_Some in H1 as [(<- & <- & _)|(Hn1 & H1)].
    + now apply Hown.
    + apply (Hothers k i1 hi); auto.
  - intros j Hj. unfold pending in Hj. simpl in Hj. apply Hpend in Hj as [Hj|Hj].
    + destruct (pending_waits s Inv j Hj) as (a & Ha & Hh & Hr).
      exists a. pose proof (Hfree j Hj) as Hne.
      rewrite list_lookup_insert_ne by congruence.
      rewrite Hres' by assumption. auto.
    + destruct (Hsent j Hj) as (Hr & a & -> & Hh). exists a. rewrite Hr.
      rewrite list_lookup_insert_eq by assumption. auto.
  - unfold pending. simpl.
    rewrite !fmap_app, <- app_assoc, (Permutation_app_comm (result <$> sent)),
      app_assoc, <- fmap_app.
    apply NoDup_app. split; [exact (pending_nodup s Inv)|]. split; [|exact Hnd].
    intros x Hx Hx'.
    apply list_elem_of_fmap in Hx as (j & -> & Hj).
    apply list_elem_of_fmap in Hx' as (j' & E & Hj').
    destruct (Hsent j' Hj') as (Hr & _). apply (Hfree j Hj). congruence.
  - intros k res Hk.
    destruct (decide (k = i)) as [->|Hne]; [congruence|].
    rewrite Hres' in Hk by assumption.
    destruct (delivered_waits s Inv k res Hk) as (a & Ha).
    exists a. now rewrite list_lookup_insert_ne by congruence.
Qed.

(** No pending job belongs to a handler that is not waiting, or that
    already has its result. *)
Lemma pending_not_mine (s : State) (i : nat) (h : hstate) :
  claims_held s -> handlers s !! i = Some h ->
  ~ waiting h \/ is_Some (results s !! i) ->
  forall j, j ∈ pending s -> result j <> i.
Proof.
  intros Inv Hi Hor j Hj E. subst i.
  destruct (pending_waits s Inv j Hj) as (a & Ha & _ & Hr).
  destruct Hor as [Hw|[x Hx]].
  - rewrite Ha in Hi. injection Hi as <-. now apply Hw.
  - congruence.
Qed.

Lemma not_waiting_no_result (s : State) (i : nat) (h : hstate) :
  claims_held s -> handlers s !! i = Some h -> ~ waiting h ->
  results s !! i = None.
Proof.
  intros Inv Hi Hw. destruct (results s !! i) as [res|] eqn:Hr; [|reflexivity].
  destruct (delivered_waits s Inv i res Hr) as (a & Ha).
  rewrite Ha in Hi. injection Hi as <-. exfalso. now apply Hw.
Qed.

(** The four kinds of step [main.go]'s handler takes. *)
Inductive effect (i : nat) (h : hstate) (fs : FS) (inbox : option Result)
          (m : hmove) : Prop :=
| eff_quiet :
    (forall k, ~ holds k h) -> ~ waiting h -> (forall k, ~ holds k (m_next m)) ->
    m_files m = fs -> m_sent m = [] -> m_received m = false ->
    effect i h fs inbox m
| eff_claim (a : Accepted) :
    h = HClaim a -> fs !! tmpPathOf (a_hash a) = None ->
    m_next m = HSend a -> m_files m = <[tmpPathOf (a_hash a) := []]> fs ->
    m_sent m = [] -> m_received m = false ->
    effect i h fs inbox m
| eff_send (a : Accepted) :
    h = HSend a -> m_next m = HWait a -> m_files m = fs ->
    m_sent m = [MainGo.mkJob i a] -> m_received m = false ->
    effect i h fs inbox m
| eff_receive (a : Accepted) (res : Result) :
    h = HWait a -> inbox = Some res ->
    (forall k, ~ holds k (m_next m)) ->
    (forall q, q <> tmpPathOf (a_hash a) -> is_Some (fs !! q) ->
               is_Some (m_files m !! q)) ->
    m_sent m = [] -> m_received m = true ->
    effect i h fs inbox m.

Lemma Rename_keeps (env : Env) (src dst : string) (fs : FS) (q : string) :
  q <> src -> is_Some (fs !! q) -> is_Some (snd (Rename env src dst fs) !! q).
Proof.
  intros Hq Hs. unfold Rename.
  destruct (renameErr env); [exact Hs|].
  destruct (fs !! src); [|exact Hs]. simpl.
  destruct (decide (dst = q)) as [->|Hne].
  - rewrite lookup_insert_eq. eauto.
  - rewrite lookup_insert_ne by assumption.
    now rewrite lookup_delete_ne by congruence.
Qed.

Lemma hnext_effect (env : Env) (i : nat) (h : hstate) (fs : FS) (room : bool)
      (inbox : option Result) (m : hmove) :
  MainGo.hnext env i h fs room inbox = Some m -> effect i h fs inbox m.
Proof.
  destruct h as [req|a|a|a|a|a sk|o]; simpl.
  - destruct (checkUpload req); intros [= <-]; apply eff_quiet; simpl; auto.
  - destruct (Stat fs _); intros [= <-]; apply eff_quiet; simpl; auto.
  - destruct (claimErr env); [intros [= <-]; apply eff_quiet; simpl; auto|].
    destruct (fs !! tmpPathOf (a_hash a)) eqn:Hm; intros [= <-].
    + apply eff_quiet; simpl; auto.
    + now apply (eff_claim _ _ _ _ _ a).
  - destruct room; [|discriminate]. intros [= <-]. now apply (eff_send _ _ _ _ _ a).
  - destruct inbox as [res|]; [|discriminate].
    destruct (Err res); intros [= <-]; apply (eff_receive _ _ _ _ _ a res);
      simpl; auto.
    + intros q Hq Hs. now rewrite Remove_other by congruence.
    + intros q Hq Hs. now apply Rename_keeps.
  - intros [= <-]. apply eff_quiet; simpl; auto.
  - discriminate.
Qed.

Lemma claims_held_step (act : action) (s s' : State) :
  claims_held s -> MainGo.step act s = Some s' -> claims_held s'.
Proof.
  intros Inv. unfold MainGo.step, step.
  destruct act as [req|i env| |k env].
  - (* a request arrives *)
    intros [= <-].
    assert (Hold : forall k x, (handlers s ++ [HStart req]) !! k = Some x ->
                               handlers s !! k = Some x \/ x = HStart req).
    { intros k x Hk. apply lookup_app_Some in Hk as [Hk|[_ Hk]]; [now left|].
      apply list_lookup_singleton_Some in Hk as [_ <-]. now right. }
    split; simpl.
    + intros i j hi hj h Hi Hj Hhi Hhj.
      destruct (Hold _ _ Hi) as [Hi'| ->]; [|contradiction].
      destruct (Hold _ _ Hj) as [Hj'| ->]; [|contradiction].
      exact (held_once s Inv _ _ _ _ _ Hi' Hj' Hhi Hhj).
    + intros i hi h Hi Hhi.
      destruct (Hold _ _ Hi) as [Hi'| ->]; [|contradiction].
      exact (held_marked s Inv _ _ _ Hi' Hhi).
    + intros j Hj. destruct (pending_waits s Inv j Hj) as (a & Ha & Hh & Hr).
      exists a. split; [|auto]. apply lookup_app_l_Some. exact Ha.
    + exact (pending_nodup s Inv).
    + intros i res Hi. destruct (delivered_waits s Inv i res Hi) as (a & Ha).
      exists a. now apply lookup_app_l_Some.
  - (* a handler moves *)
    destruct (handlers s !! i) as [h|] eqn:Hi; [|discriminate].
    destruct (MainGo.hnext env i h (files s) _ (results s !! i)) as [m|] eqn:Hm;
      [|discriminate].
    intros [= <-]. apply hnext_effect in Hm.
    destruct Hm as [Hnh Hnw Hnh' Hf Hs Hr | a -> Hfree Hn Hf Hs Hr
                   | a -> Hn Hf Hs Hr | a res -> Hin Hnh' Hkeep Hs Hr];
      rewrite ?Hf, ?Hs, ?Hr, ?Hn; apply (handler_move_preserves s i _ _ _ _ _ Inv Hi).
    + apply (pending_not_mine s i _ Inv Hi). now left.
    + intros k Hk. now apply Hnh' in Hk.
    + intros k Hk. now apply Hnh' in Hk.
    + intros k j hj _ Hj Hk. exact (held_marked s Inv _ _ _ Hj Hk).
    + intros j Hj. now apply elem_of_nil in Hj.
    + constructor.
    + now apply (not_waiting_no_result s i _ Inv Hi).
    + reflexivity.
    + apply (pending_not_mine s i _ Inv Hi). left. simpl. tauto.
    + simpl. intros k <-. now right.
    + simpl. intros k <-. rewrite lookup_insert_eq. eauto.
    + intros k j hj _ Hj Hk.
      destruct (held_marked s Inv _ _ _ Hj Hk) as [x Hx].
      destruct (decide (tmpPathOf (a_hash a) = tmpPathOf k)) as [->|Hne].
      * rewrite lookup_insert_eq. eauto.
      * rewrite lookup_insert_ne by assumption. eauto.
    + intros j Hj. now apply elem_of_nil in Hj.
    + constructor.
    + apply (not_waiting_no_result s i _ Inv Hi). simpl. tauto.
    + reflexivity.
    + apply (pending_not_mine s i _ Inv Hi). left. simpl. tauto.
    + simpl. intros k <-. now left.
    + simpl. intros k <-. exact (held_marked s Inv _ _ _ Hi eq_refl).
    + intros k j hj _ Hj Hk. exact (held_marked s Inv _ _ _ Hj Hk).
    + intros j Hj. apply list_elem_of_singleton in Hj as ->. simpl. eauto.
    + simpl. apply NoDup_singleton.
    + apply (not_waiting_no_result s i _ Inv Hi). simpl. tauto.
    + reflexivity.
    + apply (pending_not_mine s i _ Inv Hi). right. rewrite Hin. eauto.
    + intros k Hk. now apply Hnh' in Hk.
    + intros k Hk. now apply Hnh' in Hk.
    + intros k j hj Hne Hj Hk. apply Hkeep.
      * intros E. apply tmpPathOf_inj in E. subst k.
        apply Hne. exact (held_once s Inv _ _ _ _ _ Hj Hi Hk eq_refl).
      * exact (held_marked s Inv _ _ _ Hj Hk).
    + intros j Hj. now apply elem_of_nil in Hj.
    + constructor.
    + apply lookup_delete_eq.
    + intros k Hk. now apply lookup_delete_ne.
  - (* a worker receives a job *)
    destruct (jobQueue s) as [|j q] eqn:Hq; [discriminate|].
    destruct (_ <? _)%nat; [|discriminate]. intros [= <-].
    assert (Hperm : q ++ running s ++ [j] ≡ₚ pending s).
    { unfold pending. rewrite Hq, app_assoc. simpl.
      now rewrite <- Permutation_cons_append. }
    split; simpl.
    + exact (held_once s Inv).
    + exact (held_marked s Inv).
    + intros j' Hj'. unfold pending in Hj'. simpl in Hj'. rewrite Hperm in Hj'.
      exact (pending_waits s Inv j' Hj').
    + unfold pending. simpl. rewrite Hperm. exact (pending_nodup s Inv).
    + exact (delivered_waits s Inv).
  - (* a worker processes a job and sends the result *)
    destruct (running s !! k) as [j|] eqn:Hk; [|discriminate].
    destruct (results s !! result j) eqn:Hrj; [discriminate|].
    pose proof (process_keeps_markers main_go env j (files s)) as Hkeep.
    unfold process in Hkeep.
    destruct (MainGo.process env j (files s)) as [res fs'] eqn:Hp.
    cbn [snd] in Hkeep. intros [= <-].
    assert (Hperm : pending s ≡ₚ j :: (jobQueue s ++ delete k (running s))).
    { unfold pending. rewrite (delete_Permutation _ _ _ Hk) at 1.
      now rewrite <- Permutation_middle. }
    assert (Hnd : NoDup (result j :: (result <$> jobQueue s ++ delete k (running s)))).
    { rewrite <- fmap_cons, <- Hperm. exact (pending_nodup s Inv). }
    apply NoDup_cons in Hnd as [Hnotin Hnd].
    assert (Hj : j ∈ pending s) by (rewrite Hperm; left).
    split; simpl.
    + exact (held_once s Inv).
    + intros i hi h Hi Hh. apply Hkeep. exact (held_marked s Inv _ _ _ Hi Hh).
    + intros j' Hj'. unfold pending in Hj'. simpl in Hj'.
      assert (Hj'' : j' ∈ pending s) by (rewrite Hperm; now right).
      destruct (pending_waits s Inv j' Hj'') as (a & Ha & Hh & Hr).
      exists a. split; [exact Ha|]. split; [exact Hh|].
      rewrite lookup_insert_ne; [exact Hr|].
      intros E. apply Hnotin. rewrite E. now apply list_elem_of_fmap_2.
    + exact Hnd.
    + intros i r Hi.
      destruct (decide (result j = i)) as [<-|Hne].
      * destruct (pending_waits s Inv j Hj) as (a & Ha & _). eauto.
      * rewrite lookup_insert_ne in Hi by assumption.
        exact (delivered_waits s Inv i r Hi).
Qed.

Lemma claims_held_exec (acts : list action) (s s' : State) :
  claims_held s -> MainGo.exec acts s = Some s' -> claims_held s'.
Proof.
  revert s. induction acts as [|act acts IH]; intros s Inv; simpl.
  - now intros [= <-].
  - unfold MainGo.exec, exec. fold (exec MainGo.hnext MainGo.process).
    destruct (step MainGo.hnext MainGo.process act s) as [s1|] eqn:Hs; [|discriminate].
    apply IH. exact (claims_held_step act s s1 Inv Hs).
Qed.

(** At most one entry of a list satisfies [P] when the entries that do
    agree on a key that no two entries share. *)
Lemma at_most_one {A B} (P : A -> Prop) `{!forall x, Decision (P x)}
      (f : A -> B) (l : list A) :
  NoDup (f <$> l) ->
  (forall x y, x ∈ l -> y ∈ l -> P x -> P y -> f x = f y) ->
  (length (filter P l) <= 1)%nat.
Proof.
  induction l as [|x l IH]; intros Hnd Hsame; simpl; [lia|].
  apply NoDup_cons in Hnd as [Hx Hnd].
  rewrite filter_cons. destruct (decide (P x)) as [Hp|Hp].
  - assert (Hnil : filter P l = []).
    { destruct (filter P l) as [|y l'] eqn:Hf; [reflexivity|].
      assert (Hy : y ∈ filter P l) by (rewrite Hf; left).
      apply list_elem_of_filter in Hy as [Hpy Hy].
      exfalso. apply Hx. rewrite (Hsame x y); [now apply list_elem_of_fmap_2| left
                                               | now right | assumption | assumption]. }
    rewrite Hnil. simpl. lia.
  - apply IH; [exact Hnd|]. intros a b Ha Hb. apply Hsame; now right.
Qed.

(** * A handler alone

    Run without another request in between, the transition system takes
    a handler through exactly what the sequential [normalizeHandler]
    computes. *)
Lemma main_go_solo (env : Env) (req : Request) (fs : FS) :
  let r := MainGo.normalizeHandler env req fs in
  exists acts s,
    MainGo.exec (Arrive req :: acts) (initial fs) = Some s /\
    handlers s = [HDone (outcome r)] /\ files s = store r /\
    pending s = [] /\ results s = ∅.
Proof.
  intros r. subst r. unfold MainGo.normalizeHandler.
  destruct (checkUpload req) as [o|a] eqn:Ha.
  { exists [Handler 0 env]. eexists. split.
    - unfold MainGo.exec, exec, step. simpl. rewrite Ha. simpl. reflexivity.
    - simpl. auto. }
  rewrite ?tmpPathOf_unfold, ?outPathOf_unfold.
  destruct (Stat fs (outPathOf (a_hash a))) eqn:Hstat.
  { exists [Handler 0 env; Handler 0 env; Handler 0 env]. eexists. split.
    - unfold MainGo.exec, exec, step. simpl. rewrite Ha. simpl. rewrite Hstat. simpl. reflexivity.
    - simpl. auto. }
  destruct (claimErr env) as [e|] eqn:Hclaim.
  { exists [Handler 0 env; Handler 0 env; Handler 0 env]. eexists. split.
    - unfold MainGo.exec, exec, step. simpl. rewrite Ha. simpl. rewrite Hstat. simpl.
      rewrite Hclaim. simpl. reflexivity.
    - simpl. auto. }
  destruct (fs !! tmpPathOf (a_hash a)) eqn:Hmark.
  { exists [Handler 0 env; Handler 0 env; Handler 0 env; Handler 0 env]. eexists. split.
    - unfold MainGo.exec, exec, step. simpl. rewrite Ha. simpl. rewrite Hstat. simpl.
      rewrite Hclaim, Hmark. simpl. reflexivity.
    - simpl. auto. }
  destruct (MainGo.process env (MainGo.mkJob 0 a) _) as [res fs2] eqn:Hproc.
  destruct (Err res) as [e|] eqn:Herr.
  { exists [Handler 0 env; Handler 0 env; Handler 0 env; Handler 0 env; Take;
            Work 0 env; Handler 0 env]. eexists. split.
    - unfold MainGo.exec, exec, step. simpl. rewrite Ha. simpl. rewrite Hstat. simpl.
      rewrite Hclaim, Hmark. simpl. rewrite lookup_empty. rewrite Hproc. simpl.
      rewrite lookup_insert_eq. rewrite Herr. simpl. reflexivity.
    - simpl. rewrite delete_insert_eq, delete_empty. auto. }
  { exists [Handler 0 env; Handler 0 env; Handler 0 env; Handler 0 env; Take;
            Work 0 env; Handler 0 env; Handler 0 env]. eexists. split.
    - unfold MainGo.exec, exec, step. simpl. rewrite Ha. simpl. rewrite Hstat. simpl.
      rewrite Hclaim, Hmark. simpl. rewrite lookup_empty. rewrite Hproc. simpl.
      rewrite lookup_insert_eq. rewrite Herr. simpl. reflexivity.
    - simpl. rewrite delete_insert_eq, delete_empty. auto. }
Qed.

Lemma part_000_solo (env : Env) (req : Request) (fs : FS) :
  let r := Part000.normalizeHandler env req fs in
  exists acts s,
    Part000.exec (Arrive req :: acts) (initial fs) = Some s /\
    handlers s = [HDone (outcome r)] /\ files s = store r /\
    pending s = [] /\ results s = ∅.
Proof.
  intros r. subst r. unfold Part000.normalizeHandler.
  destruct (checkUpload req) as [o|a] eqn:Ha.
  { exists [Handler 0 env]. eexists. split.
    - unfold Part000.exec, exec, step. simpl. rewrite Ha. simpl. reflexivity.
    - simpl. auto. }
  rewrite ?tmpPathOf_unfold, ?outPathOf_unfold.
  destruct (Stat fs (outPathOf (a_hash a))) eqn:Hstat.
  { exists [Handler 0 env; Handler 0 env; Handler 0 env]. eexists. split.
    - unfold Part000.exec, exec, step. simpl. rewrite Ha. simpl. rewrite Hstat.
      simpl. reflexivity.
    - simpl. auto. }
  destruct (Part000.process env (Part000.mkJob 0 a) fs) as [res fs1] eqn:Hproc.
  destruct (Err res) as [e|] eqn:Herr.
  { exists [Handler 0 env; Handler 0 env; Handler 0 env; Take; Work 0 env;
            Handler 0 env]. eexists. split.
    - unfold Part000.exec, exec, step. simpl. rewrite Ha. simpl. rewrite Hstat. simpl.
      rewrite lookup_empty. rewrite Hproc. simpl.
      rewrite lookup_insert_eq. rewrite Herr. simpl. reflexivity.
    - simpl. rewrite delete_insert_eq, delete_empty. auto. }
  destruct (Rename env (tmpPathOf (a_hash a)) (outPathOf (a_hash a)) fs1)
    as [[e|] fs2] eqn:Hren.
  { exists [Handler 0 env; Handler 0 env; Handler 0 env; Take; Work 0 env;
            Handler 0 env]. eexists. split.
    - unfold Part000.exec, exec, step. simpl. rewrite Ha. simpl. rewrite Hstat. simpl.
      rewrite lookup_empty. rewrite Hproc. simpl.
      rewrite lookup_insert_eq. rewrite Herr, Hren. simpl. reflexivity.
    - simpl. rewrite delete_insert_eq, delete_empty. auto. }
  { exists [Handler 0 env; Handler 0 env; Handler 0 env; Take; Work 0 env;
            Handler 0 env; Handler 0 env]. eexists. split.
    - unfold Part000.exec, exec, step. simpl. rewrite Ha. simpl. rewrite Hstat. simpl.
      rewrite lookup_empty. rewrite Hproc. simpl.
      rewrite lookup_insert_eq. rewrite Herr, Hren. simpl. reflexivity.
    - simpl. rewrite delete_insert_eq, delete_empty. auto. }
Qed.

(** * No step deletes a finalized entry

    [os.Remove] is only called on the [.tmp] path and on the temporary
    input, and [os.Rename] only moves the [.tmp] path away. *)

Lemma main_go_move_keeps_entries (env : Env) (i : nat) (h : hstate) (fs : FS)
      (room : bool) (inbox : option Result) (m : hmove) (k : string) :
  MainGo.hnext env i h fs room inbox = Some m ->
  is_Some (fs !! outPathOf k) -> is_Some (m_files m !! outPathOf k).
Proof.
  intros Hm Hs.
  destruct h as [req|a|a|a|a|a sk|o]; simpl in Hm.
  - destruct (checkUpload req); injection Hm as <-; exact Hs.
  - destruct (Stat fs _); injection Hm as <-; exact Hs.
  - destruct (claimErr env); [injection Hm as <-; exact Hs|].
    destruct (fs !! tmpPathOf (a_hash a)); injection Hm as <-; simpl; [exact Hs|].
    now rewrite lookup_insert_ne by apply tmpPathOf_not_outPathOf.
  - destruct room; [|discriminate]. injection Hm as <-. exact Hs.
  - destruct inbox as [res|]; [|discriminate].
    destruct (Err res); injection Hm as <-; simpl.
    + now rewrite Remove_other by apply not_eq_sym, tmpPathOf_not_outPathOf.
    + apply Rename_keeps; [|exact Hs]. apply not_eq_sym, tmpPathOf_not_outPathOf.
  - injection Hm as <-. exact Hs.
  - discriminate.
Qed.

Lemma part_000_move_keeps_entries (env : Env) (i : nat) (h : hstate) (fs : FS)
      (room : bool) (inbox : option Result) (m : hmove) (k : string) :
  Part000.hnext env i h fs room inbox = Some m ->
  is_Some (fs !! outPathOf k) -> is_Some (m_files m !! outPathOf k).
Proof.
  intros Hm Hs.
  destruct h as [req|a|a|a|a|a sk|o]; simpl in Hm.
  - destruct (checkUpload req); injection Hm as <-; exact Hs.
  - destruct (Stat fs _); injection Hm as <-; exact Hs.
  - discriminate.
  - destruct room; [|discriminate]. injection Hm as <-. exact Hs.
  - destruct inbox as [res|]; [|discriminate].
    destruct (Err res).
    + injection Hm as <-. simpl.
      now rewrite Remove_other by apply not_eq_sym, tmpPathOf_not_outPathOf.
    + pose proof (Rename_keeps env (tmpPathOf (a_hash a)) (outPathOf (a_hash a))
                    fs (outPathOf k)
                    (not_eq_sym (tmpPathOf_not_outPathOf _ _)) Hs) as Hk.
      destruct (Rename env _ _ fs) as [[e|] fs']; injection Hm as <-; simpl in *.
      * now rewrite Remove_other by apply not_eq_sym, tmpPathOf_not_outPathOf.
      * exact Hk.
  - injection Hm as <-. exact Hs.
  - discriminate.
Qed.

Lemma entry_never_deleted (p : program) (act : action) (s s' : State) (k : string) :
  step_of p act s = Some s' ->
  is_Some (files s !! outPathOf k) -> is_Some (files s' !! outPathOf k).
Proof.
  intros Hstep Hs.
  assert (Hwork : forall env j,
             is_Some (snd (process p env j (files s)) !! outPathOf k)).
  { intros env j. rewrite process_store.
    destruct (writeErr env); [now apply failedWrite_keeps|].
    apply worked_keeps; [|exact Hs]. apply not_eq_sym, tmpInputOf_not_outPathOf. }
  destruct p; unfold step_of, MainGo.step, Part000.step, step in Hstep;
    destruct act as [req|i env| |j env].
  all: try (injection Hstep as <-; exact Hs).
  all: try (destruct (handlers s !! i) as [h|]; [|discriminate]).
  all: try (destruct (jobQueue s); [discriminate|];
            destruct (_ <? _)%nat; [|discriminate];
            injection Hstep as <-; exact Hs).
  all: try (destruct (running s !! j) as [job|]; [|discriminate];
            destruct (results s !! result job); [discriminate|];
            specialize (Hwork env job); unfold process in Hwork;
            match type of Hstep with context [let '(_, _) := ?x in _] =>
              destruct x as [res fs'] end;
            injection Hstep as <-; exact Hwork).
  - destruct (MainGo.hnext _ _ _ _ _ _) as [m|] eqn:Hm; [|discriminate].
    injection Hstep as <-. simpl.
    exact (main_go_move_keeps_entries _ _ _ _ _ _ _ k Hm Hs).
  - destruct (Part000.hnext _ _ _ _ _ _) as [m|] eqn:Hm; [|discriminate].
    injection Hstep as <-. simpl.
    exact (part_000_move_keeps_entries _ _ _ _ _ _ _ k Hm Hs).
Qed.

(** * The failure step in any interleaving

    Whatever the other goroutines have done, the step a handler takes on
    a result with an error calls [os.Remove] on the marker, leaves the
    entry path as it is and ends the handler with [FFMPEG_FAILED]; the
    marker is gone when that call succeeds and stays when it fails. *)
Lemma failure_step_cleans (p : program) (env : Env) (i : nat) (a : Accepted)
      (fs : FS) (room : bool) (res : Result) (e : string) :
  Err res = Some e ->
  exists m,
    hnext_of p env i (HWait a) fs room (Some res) = Some m /\
    m_next m = HDone (httpError 500 "FFMPEG_FAILED" e) /\
    (removeErr env = None -> m_files m !! tmpPathOf (a_hash a) = None) /\
    (removeErr env <> None -> m_files m = fs) /\
    m_files m !! outPathOf (a_hash a) = fs !! outPathOf (a_hash a) /\
    m_sent m = [].
Proof.
  intros He. destruct p; simpl; rewrite He; eexists; (split; [reflexivity|]);
    simpl; repeat split;
    first [ intros ->; apply Remove_done
          | intros Hr; unfold Remove; now destruct (removeErr env)
          | now rewrite Remove_other by apply not_eq_sym, tmpPathOf_not_outPathOf ].
Qed.

(** * A resubmission on an unchanged entry

    When a request for content [C] has been answered with a success
    body, a later request that carries the same bytes (under any
    supported file name) and is served on a store that still holds the
    entry of [C] as the first request left it, is answered from that
    entry: status ["skipped"], the same [fileId], the same size, no job
    sent and the store unchanged. *)
Lemma resubmission_is_skipped (p : program) (env1 env2 : Env)
        (req1 req2 : Request) (u1 u2 : Upload) (fs later : FS) (b1 : Body) :
  fileField req1 = Some u1 ->
  outcome (normalizeHandler p env1 req1 fs) = Responded (Success b1) ->
  later !! outPathOf (fileId b1)
  = store (normalizeHandler p env1 req1 fs) !! outPathOf (fileId b1) ->
  formErr req2 = None -> fileField req2 = Some u2 ->
  supported (filename u2) -> readErr u2 = None ->
  payload u2 = payload u1 ->
  let r2 := normalizeHandler p env2 req2 later in
  exists b2,
    outcome r2 = Responded (Success b2) /\
    status b2 = "skipped" /\
    fileId b2 = fileId b1 /\
    sizeBytes b2 = sizeBytes b1 /\
    enqueued r2 = [] /\ received r2 = None /\
    store r2 = later.
Proof.
  intros Hu1 Hout Hlater Hf2 Hu2 Hext2 Hr2 Hsame r2. subst r2.
  destruct (success_accepted p env1 req1 fs b1 Hout) as (u & Hv1 & Ha1).
  assert (u = u1) as -> by (destruct Hv1 as (_ & Hu & _); congruence).
  pose proof (success_entry p env1 req1 _ fs b1 Ha1 Hout) as (Hid & Hst & _).
  simpl in Hid, Hst.
  assert (Hv2 : valid req2 u2).
  { destruct Hv1 as (_ & _ & _ & _ & Hlen). rewrite <- Hsame in Hlen.
    repeat split; assumption. }
  pose proof (checkUpload_valid req2 u2 Hv2) as Ha2.
  assert (Hst2 : Stat later (outPathOf (a_hash (accepted_of u2))) = Some (sizeBytes b1)).
  { simpl. rewrite Hsame. rewrite Hid in Hlater.
    unfold Stat in *. rewrite Hlater. exact Hst. }
  rewrite (handler_skips p env2 req2 _ _ _ Ha2 Hst2). simpl.
  destruct (respond_present later
              (sha256Hex (payload u2)) (filename u2)
              (outPathOf (sha256Hex (payload u2))) true _ Hst2)
    as (b2 & Hb2 & Hsz & Hid2 & Hst').
  exists b2. repeat split; try assumption.
  rewrite Hid2, Hid, Hsame. reflexivity.
Qed.

(** * The failures the worker reports

    When the result a handler reads from its job carries an error, the
    handler answers 500 [FFMPEG_FAILED] with that error and no finalized
    entry for the content exists when it returns; the [.tmp] marker is
    gone provided [os.Remove] did not fail. *)
Lemma cleanup_when_result_fails (p : program) (env : Env) (req : Request)
        (fs : FS) (res : Result) (e : string) :
  let r := normalizeHandler p env req fs in
  received r = Some res -> Err res = Some e ->
  exists u,
    valid req u /\
    outcome r = httpError 500 "FFMPEG_FAILED" e /\
    (removeErr env = None -> store r !! tmpPathOf (sha256Hex (payload u)) = None) /\
    fs !! outPathOf (sha256Hex (payload u)) = None /\
    store r !! outPathOf (sha256Hex (payload u)) = None.
Proof.
  intros r. subst r.
  destruct (checkUpload req) as [o|a] eqn:Ha.
  { rewrite (rejected_untouched p env req o fs Ha). discriminate. }
  destruct (checkUpload_accepted req a Ha) as (u & Hv & ->).
  intros Hrec He. exists u. split; [exact Hv|].
  assert (Hlk : forall (f : FS) q, Stat f q = None -> f !! q = None).
  { intros f q. unfold Stat. now destruct (f !! q). }
  revert Hrec.
  destruct p; handler_cases; simpl; try discriminate; intros [= ->];
    try congruence;
    rewrite ?tmpPathOf_unfold, ?outPathOf_unfold in *;
    apply Hlk in Hstat;
    (split; [congruence|]); (split; [intros ->; apply Remove_done|]);
    (split; [exact Hstat|]);
    rewrite Remove_other by apply not_eq_sym, tmpPathOf_not_outPathOf.
  - pose proof (f_equal snd Hproc) as Hg. cbn [snd] in Hg. rewrite <- Hg.
    etrans; [apply (process_frame main_go)|].
    + apply not_eq_sym, tmpInputOf_not_outPathOf.
    + apply not_eq_sym, tmpPathOf_not_outPathOf.
    + rewrite lookup_insert_ne by apply tmpPathOf_not_outPathOf. exact Hstat.
  - pose proof (f_equal snd Hproc) as Hg. cbn [snd] in Hg. rewrite <- Hg.
    etrans; [apply (process_frame part_000)|].
    + apply not_eq_sym, tmpInputOf_not_outPathOf.
    + apply not_eq_sym, tmpPathOf_not_outPathOf.
    + exact Hstat.
Qed.

(** * The claims *)

(** C1, as the code has it.  In [main.go] the marker is created with an
    exclusive create before the job is sent and is removed or renamed
    only by the handler that created it, after it has read its result.
    So in every reachable state, for every content key, at most one job
    is pending (queued or with a worker), and while one is pending the
    marker of that key is in the store; a handler whose exclusive create
    meets the marker sends no job and goes on to [respond] with
    [skipped = true], without waiting for the holder. *)
Theorem main_go_single_flight (s : State) :
  MainGo.reachable s ->
  (forall h, (jobs_for h s <= 1)%nat /\
             ((1 <= jobs_for h s)%nat -> is_Some (files s !! tmpPathOf h))) /\
  (forall env i a room inbox,
      claimErr env = None -> is_Some (files s !! tmpPathOf (a_hash a)) ->
      MainGo.hnext env i (HClaim a) (files s) room inbox
      = Some {| m_next := HRespond a true; m_files := files s;
                m_sent := []; m_received := false |}).
Proof.
  intros (fs0 & acts & Hexec).
  split; [|intros env i a room inbox Hc [x Hx]; simpl; now rewrite Hc, Hx].
  intros h.
  assert (Inv : claims_held s).
  { exact (claims_held_exec acts (initial fs0) s (claims_held_initial fs0) Hexec). }
  assert (Hholder : forall j, j ∈ pending s -> hash j = h ->
             exists a, handlers s !! result j = Some (HWait a) /\ a_hash a = h).
  { intros j Hj Hh. destruct (pending_waits s Inv j Hj) as (a & Ha & Hh' & _).
    exists a. split; [exact Ha | congruence]. }
  split.
  - unfold jobs_for. apply (at_most_one _ result); [exact (pending_nodup s Inv)|].
    intros x y Hx Hy Hpx Hpy.
    destruct (Hholder x Hx Hpx) as (a & Ha & Hah).
    destruct (Hholder y Hy Hpy) as (b & Hb & Hbh).
    exact (held_once s Inv _ _ _ _ h Ha Hb Hah Hbh).
  - unfold jobs_for. intros Hone.
    destruct (filter (fun j => hash j = h) (pending s)) as [|j l] eqn:Hf;
      [simpl in Hone; lia|].
    assert (Hj : j ∈ filter (fun j => hash j = h) (pending s)) by (rewrite Hf; left).
    apply list_elem_of_filter in Hj as [Hh Hj].
    destruct (Hholder j Hj Hh) as (a & Ha & Hah).
    exact (held_marked s Inv _ _ h Ha Hah).
Qed.

Lemma main_go_single_flight_witness :
  let s := state_after main_go (twice ++ firstn 6 main_go_first_finalized) in
  MainGo.reachable s /\ jobs_for wavHash s = 1%nat /\
  is_Some (files s !! tmpPathOf wavHash).
Proof.
  cbv zeta.
  assert (Hr : MainGo.reachable
                 (state_after main_go (twice ++ firstn 6 main_go_first_finalized))).
  { exists ∅, (twice ++ firstn 6 main_go_first_finalized). vm_compute. reflexivity. }
  split; [exact Hr|]. split; [vm_compute; reflexivity|].
  apply (proj1 (main_go_single_flight _ Hr) wavHash).
  vm_compute. lia.
Defined.

(** C1, as stated, fails in both programs.  With two identical uploads
    in flight together, [main.go] runs ffmpeg twice and reports two
    different sizes, its handler that meets the marker of the other
    panics in [respond] instead of answering, and the second program
    has two jobs for the one key in its queue. *)
Lemma single_flight_fails :
  ~ single_flight main_go /\ ~ single_flight part_000 /\
  (let s := state_after main_go (twice ++ main_go_race) in
   execute main_go (twice ++ main_go_race) (initial ∅) = Some s /\
   ffmpegCalls s = [wavHash; wavHash] /\
   exists b0 b1,
     handlers s = [HDone (Responded (Success b0)); HDone (Responded (Success b1))] /\
     fileId b0 = fileId b1 /\ sizeBytes b0 = 12%Z /\ sizeBytes b1 = 6%Z) /\
  (let s := state_after main_go (twice ++ main_go_claim_lost) in
   execute main_go (twice ++ main_go_claim_lost) (initial ∅) = Some s /\
   handlers s !! 1%nat = Some (HDone (Panicked NilDereference))) /\
  (let s := state_after part_000 (twice ++ part_000_both_sent) in
   execute part_000 (twice ++ part_000_both_sent) (initial ∅) = Some s /\
   jobs_for wavHash s = 2%nat).
Proof.
  split; [|split; [|split; [|split]]].
  - intros H.
    assert (E : execute main_go (map Arrive [wavRequest; wavRequest] ++ main_go_race)
                        (initial ∅)
                = Some (state_after main_go (twice ++ main_go_race)))
      by (vm_compute; reflexivity).
    destruct (H ∅ [wavRequest; wavRequest] main_go_race _ eq_refl E) as (_ & Hc & _).
    specialize (Hc wavHash). vm_compute in Hc. lia.
  - intros H.
    assert (E : execute part_000 (map Arrive [wavRequest; wavRequest] ++ part_000_race)
                        (initial ∅)
                = Some (state_after part_000 (twice ++ part_000_race)))
      by (vm_compute; reflexivity).
    destruct (H ∅ [wavRequest; wavRequest] part_000_race _ eq_refl E) as (_ & Hc & _).
    specialize (Hc wavHash). vm_compute in Hc. lia.
  - cbv zeta. split; [vm_compute; reflexivity|]. split; [vm_compute; reflexivity|].
    eexists; eexists. split; [vm_compute; reflexivity|].
    repeat split; reflexivity.
  - cbv zeta. split; vm_compute; reflexivity.
  - cbv zeta. split; vm_compute; reflexivity.
Qed.


(** C3.  [main.go] finalizes an attempt that produced nothing.  For a
    valid upload whose content has neither entry nor marker, when ffmpeg
    exits with status zero and leaves an empty output (it writes no
    byte, or nothing at all), [main.go] answers ["done"] with size 0 and
    the empty file is the finalized entry of the content.  The second
    program, on the same request, store and environment, answers 500
    [FFMPEG_FAILED], creates no entry and calls [os.Remove] on the
    [.tmp] path. *)
Theorem main_go_finalizes_empty_output (env : Env) (req : Request) (u : Upload)
        (fs : FS) :
  valid req u ->
  fs !! outPathOf (sha256Hex (payload u)) = None ->
  fs !! tmpPathOf (sha256Hex (payload u)) = None ->
  claimErr env = None -> writeErr env = None -> renameErr env = None ->
  runFailed env = false -> written env = None \/ written env = Some [] ->
  let h := sha256Hex (payload u) in
  let r := MainGo.normalizeHandler env req fs in
  let r' := Part000.normalizeHandler env req fs in
  (exists b, outcome r = Responded (Success b) /\
             status b = "done" /\ fileId b = h /\ sizeBytes b = 0%Z) /\
  store r !! outPathOf h = Some [] /\
  (exists e, outcome r' = httpError 500 "FFMPEG_FAILED" e) /\
  store r' !! outPathOf h = None /\
  (removeErr env = None -> store r' !! tmpPathOf h = None).
Proof.
  intros Hv Hnone Hfree Hc Hw Hrn Hrun Hout h r r'. subst h r r'.
  set (h := sha256Hex (payload u)) in *.
  pose proof (checkUpload_valid req u Hv) as Ha.
  assert (Hstat : Stat fs (outPathOf h) = None) by (unfold Stat; now rewrite Hnone).
  assert (Hin : forall k, tmpInputOf h (a_ext (accepted_of u)) <> tmpPathOf k)
    by (intros k; apply tmpInputOf_not_tmpPathOf).
  unfold MainGo.normalizeHandler, Part000.normalizeHandler. rewrite Ha. cbv zeta.
  rewrite ?tmpPathOf_unfold, ?outPathOf_unfold.
  change (a_hash (accepted_of u)) with h.
  rewrite Hstat, Hc, Hfree.
  unfold MainGo.process, Part000.process, hashFile, Rename.
  rewrite Hw, Hrun, Hrn. cbn [hash ext outPath MainGo.mkJob Part000.mkJob data].
  change (a_hash (accepted_of u)) with h.
  change (Join TempDir (h +:+ a_ext (accepted_of u)))
    with (tmpInputOf h (a_ext (accepted_of u))).
  set (input := tmpInputOf h (a_ext (accepted_of u))) in *.
  assert (Hmarker : ffmpegRun env (tmpPathOf h)
                      (<[input := bytes (a_data (accepted_of u))]>
                         (<[tmpPathOf h := []]> fs)) !! tmpPathOf h = Some []).
  { unfold ffmpegRun. destruct Hout as [-> | ->].
    - rewrite lookup_insert_ne by apply Hin. apply lookup_insert_eq.
    - apply lookup_insert_eq. }
  assert (Hempty : Stat (ffmpegRun env (tmpPathOf h)
                           (<[input := bytes (a_data (accepted_of u))]> fs))
                        (tmpPathOf h) = None \/
                   Stat (ffmpegRun env (tmpPathOf h)
                           (<[input := bytes (a_data (accepted_of u))]> fs))
                        (tmpPathOf h) = Some 0%Z).
  { unfold ffmpegRun, Stat. destruct Hout as [-> | ->].
    - left. rewrite lookup_insert_ne by apply Hin. now rewrite Hfree.
    - right. now rewrite lookup_insert_eq. }
  assert (Hkeep : ffmpegRun env (tmpPathOf h)
                    (<[input := bytes (a_data (accepted_of u))]> fs)
                  !! outPathOf h = None).
  { unfold ffmpegRun. destruct (written env).
    - rewrite lookup_insert_ne by apply tmpPathOf_not_outPathOf.
      now rewrite lookup_insert_ne by apply tmpInputOf_not_outPathOf.
    - now rewrite lookup_insert_ne by apply tmpInputOf_not_outPathOf. }
  rewrite Hmarker. cbn [default length Err].
  rewrite Remove_other by apply not_eq_sym, Hin. rewrite Hmarker. cbn [snd].
  split; [|split; [|split; [|split]]].
  - unfold respond, Stat. rewrite lookup_insert_eq.
    cbn [fmap option_fmap option_map]. eexists. split; [reflexivity|].
    repeat split.
  - cbn [store]. apply lookup_insert_eq.
  - destruct Hempty as [-> | ->]; cbn [Z.eqb Err failure fst snd outcome]; eauto.
  - destruct Hempty as [-> | ->]; cbn [Z.eqb Err failure fst snd store];
      rewrite !Remove_other
        by first [apply not_eq_sym, tmpPathOf_not_outPathOf
                 |apply not_eq_sym, tmpInputOf_not_outPathOf];
      exact Hkeep.
  - intros Hr. rewrite Hr.
    destruct Hempty as [-> | ->]; cbn [Z.eqb Err failure fst snd store];
      apply Remove_done.
Qed.

Lemma main_go_finalizes_empty_output_witness :
  exists b,
    outcome (MainGo.normalizeHandler ffmpeg_silent wavRequest ∅)
    = Responded (Success b) /\
    status b = "done" /\ fileId b = wavHash /\ sizeBytes b = 0%Z.
Proof.
  assert (Hv : valid wavRequest (upload_wav wavHeader)).
  { repeat split; try reflexivity; [right; reflexivity | vm_compute; discriminate]. }
  exact (proj1 (main_go_finalizes_empty_output
                  ffmpeg_silent wavRequest (upload_wav wavHeader) ∅
                  Hv eq_refl eq_refl eq_refl eq_refl eq_refl eq_refl
                  (or_introl eq_refl))).
Defined.

(** C4.  [main.go] ignores a failed finalize.  The job succeeds and
    [os.Rename] fails.  [main.go] discards the error: the [.tmp] file is
    left in the store, no storage error is reported, and [respond]
    panics on the missing entry.  The second program, on the same
    request, removes the [.tmp] file and answers 500 [FS_ERROR]. *)
Theorem main_go_ignores_rename_failure :
  let env := rename_fails wavHeader "rename: permission denied" in
  let r := MainGo.normalizeHandler env wavRequest ∅ in
  let r' := Part000.normalizeHandler env wavRequest ∅ in
  (exists res, received r = Some res /\ Err res = None) /\
  outcome r = Panicked NilDereference /\
  store r !! tmpPathOf wavHash = Some wavHeader /\
  store r !! outPathOf wavHash = None /\
  outcome r' = httpError 500 "FS_ERROR" "rename: permission denied" /\
  store r' !! tmpPathOf wavHash = None.
Proof.
  cbv zeta. split; [eexists; split; vm_compute; reflexivity|].
  repeat split; vm_compute; reflexivity.
Qed.

(** C5.  Empty output is not rejected by [main.go].  ffmpeg exits with
    status zero and writes nothing, so the output path still holds the
    empty marker the handler created.  [main.go]'s worker returns a
    result without error and with size 0, and its handler finalizes the
    empty file and answers ["done"]; the second program's worker, on the
    same job and store, returns the error the claim asks for. *)
Theorem main_go_accepts_empty_output :
  afterRun ffmpeg_silent (wavJob main_go) claimed !! outPath (wavJob main_go)
  = Some [] /\
  fst (MainGo.process ffmpeg_silent (wavJob main_go) claimed)
  = {| Size := 0; Sha256 := sha256Hex []; Err := None |} /\
  Err (fst (Part000.process ffmpeg_silent (wavJob part_000) claimed))
  = Some "ffmpeg produced empty output" /\
  exists b,
    outcome (MainGo.normalizeHandler ffmpeg_silent wavRequest ∅)
    = Responded (Success b) /\
    status b = "done" /\ sizeBytes b = 0%Z /\
    store (MainGo.normalizeHandler ffmpeg_silent wavRequest ∅) !! outPathOf wavHash
    = Some [].
Proof.
  split; [vm_compute; reflexivity|].
  split; [vm_compute; reflexivity|].
  split; [vm_compute; reflexivity|].
  eexists. split; [vm_compute; reflexivity|].
  split; [reflexivity|]. split; [reflexivity|]. vm_compute. reflexivity.
Qed.

(** C6.  [main.go] does not bind the transcoder to the job's context.
    The job carries the request's context, but the command is built
    without one, and a failed run yields the same error whether the
    context's deadline has passed, the context was canceled, or neither;
    the second program, on the same job and store, gives three different
    errors. *)
Theorem main_go_ignores_the_context :
  ctx (wavJob main_go) = RequestContext /\
  cmdCtx (MainGo.command (wavJob main_go)) = None /\
  (forall c,
      fst (MainGo.process (ffmpeg_fails "Invalid data" c) (wavJob main_go) claimed)
      = failure "ffmpeg: Invalid data") /\
  cmdCtx (Part000.command (wavJob part_000)) = Some (WithTimeout RequestContext 3) /\
  fst (Part000.process (ffmpeg_fails "Invalid data" (Some DeadlineExceeded))
                       (wavJob part_000) claimed)
  = failure "ffmpeg timed out" /\
  fst (Part000.process (ffmpeg_fails "Invalid data" (Some Canceled))
                       (wavJob part_000) claimed)
  = failure "request cancelled" /\
  fst (Part000.process (ffmpeg_fails "Invalid data" None) (wavJob part_000) claimed)
  = failure "ffmpeg failed: Invalid data".
Proof.
  repeat split; try reflexivity;
    intros c; destruct c as [[]|]; reflexivity.
Qed.

(** C7.  Content of a successful response.  Whenever either program
    answers with a success body, the request carried a file, [fileId] is
    the hexadecimal encoding of the SHA-256 digest of the uploaded bytes
    (64 characters of [0-9a-f]), the metadata reads 16000 Hz, one
    channel, ["pcm_s16le"], and the status is ["done"] when the entry
    was not yet stored (the first call) and ["skipped"] when it was; the
    entry is stored afterwards, so the same request repeated answers
    ["skipped"] with the same [fileId]. *)
Theorem response_content (p : program) (env : Env) (req : Request)
        (fs : FS) (b : Body) :
  let r := normalizeHandler p env req fs in
  outcome r = Responded (Success b) ->
  exists u,
    fileField req = Some u /\
    fileId b = EncodeToString (Sha256.Sum256 (payload u)) /\
    String.length (fileId b) = 64%nat /\ lowercase_hex (fileId b) /\
    sampleRate b = 16000%Z /\ channels b = 1%Z /\ encoding b = "pcm_s16le" /\
    status b = (match fs !! outPathOf (fileId b) with
                | Some _ => "skipped" | None => "done" end) /\
    forall env', exists b',
      outcome (normalizeHandler p env' req (store r)) = Responded (Success b') /\
      status b' = "skipped" /\ fileId b' = fileId b.
Proof.
  intros r Hout. subst r.
  destruct (success_accepted p env req fs b Hout) as (u & Hv & Ha).
  pose proof (success_entry p env req _ fs b Ha Hout)
    as (Hid & Hst & Hsr & Hch & Hen & Hstatus).
  simpl in Hid, Hst, Hstatus.
  exists u. destruct Hv as (_ & Hu & _).
  split; [exact Hu|]. split; [exact Hid|].
  rewrite Hid. destruct (sha256Hex_shape (payload u)) as [Hlen Hlow].
  repeat split; try assumption.
  intros env'.
  rewrite (handler_skips p env' req _ _ _ Ha Hst). simpl.
  destruct (respond_present (store (normalizeHandler p env req fs))
              (sha256Hex (payload u)) (filename u)
              (outPathOf (sha256Hex (payload u))) true _ Hst)
    as (b' & Hb' & _ & Hid' & Hst').
  exists b'. repeat split; assumption.
Qed.

Lemma response_content_witness :
  exists b,
    outcome (normalizeHandler part_000 (ffmpeg_writes wavHeader)
               (request_of (upload_wav wavHeader)) ∅) = Responded (Success b) /\
    fileId b = "c4553b369567835a5176898f3bfb563111cf4a76977a4a6a3e6de8c2976fe9ec" /\
    status b = "done" /\ sampleRate b = 16000%Z.
Proof.
  eexists. split; [vm_compute; reflexivity|].
  split; [reflexivity|]. split; [reflexivity|].
  match goal with |- sampleRate ?b = _ =>
    destruct (response_content part_000 (ffmpeg_writes wavHeader)
                (request_of (upload_wav wavHeader)) ∅ b)
      as (u & _ & _ & _ & _ & Hsr & _)
  end; [vm_compute; reflexivity | exact Hsr].
Defined.

(** C8.  A finalized entry is rewritten.  Two requests carry the same
    bytes.  In [main.go] the second handler looks for the entry before
    the first has renamed its output, and creates the marker after: the
    exclusive create succeeds because the rename took the marker away.
    In the second program nothing keeps the second handler from sending
    its job.  In both, the state reached has the finalized entry of the
    first request in the store, and the next step of the second handler,
    its [os.Rename], replaces the bytes of that entry. *)
Theorem finalized_entry_is_rewritten :
  let s := state_after main_go (twice ++ main_go_second_processed) in
  let t := state_after part_000 (twice ++ part_000_second_processed) in
  (execute main_go (twice ++ main_go_second_processed) (initial ∅) = Some s /\
   files s !! outPathOf wavHash = Some firstOutput /\
   handlers s !! 0%nat
   = Some (HDone (respond (files s) wavHash "a.wav" (outPathOf wavHash) false)) /\
   exists s', MainGo.step (Handler 1 quiet) s = Some s' /\
              files s' !! outPathOf wavHash = Some secondOutput) /\
  (execute part_000 (twice ++ part_000_second_processed) (initial ∅) = Some t /\
   files t !! outPathOf wavHash = Some firstOutput /\
   handlers t !! 0%nat
   = Some (HDone (respond (files t) wavHash "a.wav" (outPathOf wavHash) false)) /\
   exists t', Part000.step (Handler 1 quiet) t = Some t' /\
              files t' !! outPathOf wavHash = Some secondOutput) /\
  firstOutput <> secondOutput.
Proof.
  cbv zeta. split; [|split].
  - split; [vm_compute; reflexivity|]. split; [vm_compute; reflexivity|].
    split; [vm_compute; reflexivity|].
    exists (state_after main_go (twice ++ main_go_second_processed ++ [Handler 1 quiet])).
    split; vm_compute; reflexivity.
  - split; [vm_compute; reflexivity|]. split; [vm_compute; reflexivity|].
    split; [vm_compute; reflexivity|].
    exists (state_after part_000 (twice ++ part_000_second_processed ++ [Handler 1 quiet])).
    split; vm_compute; reflexivity.
  - discriminate.
Qed.

(** C9.  A valid short upload does not always reach a response in
    [main.go].  The upload [a.wav] of the three bytes ["abc"] passes
    every validation, and the debug slice [data[:16]] is in range: it
    shows the three bytes followed by thirteen zero bytes of the buffer
    that [io.ReadAll] returned, and no run of either program on this
    request ends in a bounds violation.  But [main.go] does not run to a
    response when the marker of the content is in the store, or when
    [os.Rename] fails: [respond] calls [Size] on the nil [FileInfo] of
    the missing entry.  The second program answers this request in every
    environment and on every store. *)
Theorem main_go_panics_on_short_upload :
  let u := upload_wav (bytes_of_string "abc") in
  let req := request_of u in
  let marked : FS := {[ tmpPathOf (sha256Hex (payload u)) := [] ]} in
  let env := rename_fails wavHeader "rename: permission denied" in
  valid req u /\ (length (payload u) < 16)%nat /\
  (exists first16,
      slice_to (ReadAll (payload u) (spare u)) 16 = Some first16 /\
      bytes first16 = payload u ++ repeat Byte.x00 13) /\
  (forall p e fs, outcome (normalizeHandler p e req fs) <> Panicked SliceBounds) /\
  outcome (MainGo.normalizeHandler quiet req marked) = Panicked NilDereference /\
  outcome (MainGo.normalizeHandler env req ∅) = Panicked NilDereference /\
  (forall e fs, exists x, outcome (Part000.normalizeHandler e req fs) = Responded x) /\
  outcome (Part000.normalizeHandler quiet req marked)
  = httpError 500 "FFMPEG_FAILED" "ffmpeg produced empty output" /\
  outcome (Part000.normalizeHandler env req ∅)
  = httpError 500 "FS_ERROR" "rename: permission denied".
Proof.
  cbv zeta.
  assert (Hv : valid (request_of (upload_wav (bytes_of_string "abc")))
                     (upload_wav (bytes_of_string "abc"))).
  { repeat split; try reflexivity; [right; reflexivity | vm_compute; discriminate]. }
  pose proof (checkUpload_valid _ _ Hv) as Ha.
  split; [exact Hv|]. split; [simpl; lia|].
  split; [eexists; split; vm_compute; reflexivity|].
  split; [intros p e fs; apply handler_never_bounds|].
  split; [vm_compute; reflexivity|]. split; [vm_compute; reflexivity|].
  split; [intros e fs; exact (part_000_always_responds e _ _ fs Ha)|].
  split; vm_compute; reflexivity.
Qed.

(** C10.  The size cap is strict.  For an upload that gets as far as the
    size test (the form parses, the file field is present, the extension
    is supported and the body is read), the handler answers
    [FILE_TOO_LARGE] exactly when the payload is longer than
    [MaxUploadSize = 10485760] bytes; a payload of exactly that length
    passes on to hashing; and a rejected payload sends no job and leaves
    the store as it was.  This holds for both programs. *)
Theorem size_cap_is_strict (p : program) (env : Env) (req : Request)
        (u : Upload) (fs : FS) :
  formErr req = None -> fileField req = Some u ->
  supported (filename u) -> readErr u = None ->
  let r := normalizeHandler p env req fs in
  (outcome r = httpError 400 "FILE_TOO_LARGE" "max upload size is 10MB"
   <-> (MaxUploadSize < Z.of_nat (length (payload u)))%Z)
  /\ (Z.of_nat (length (payload u)) = 10485760%Z ->
      checkUpload req = inr (accepted_of u)
      /\ a_hash (accepted_of u) = sha256Hex (payload u))
  /\ ((MaxUploadSize < Z.of_nat (length (payload u)))%Z ->
      enqueued r = [] /\ received r = None /\ store r = fs).
Proof.
  intros Hf Hu Hext Hr r. subst r.
  assert (Hbig : (MaxUploadSize < Z.of_nat (length (payload u)))%Z ->
                 normalizeHandler p env req fs
                 = finish (httpError 400 "FILE_TOO_LARGE" "max upload size is 10MB") fs).
  { intros Hlen. apply rejected_untouched. now apply checkUpload_too_large with u. }
  split; [split|split].
  - intros Hout.
    destruct (Z.lt_ge_cases MaxUploadSize (Z.of_nat (length (payload u))))
      as [Hlt|Hge]; [assumption|].
    assert (Hv : valid req u) by (repeat split; auto).
    apply checkUpload_valid in Hv.
    apply (accepted_failure_codes _ _ _ _ _ _ _ _ Hv) in Hout.
    destruct Hout as [Hc _]. discriminate.
  - intros Hlen. now rewrite Hbig.
  - intros Hlen. split; [|reflexivity].
    apply checkUpload_valid. repeat split; auto.
    rewrite Hlen. vm_compute. discriminate.
  - intros Hlen. rewrite Hbig by assumption. repeat split.
Qed.

Lemma size_cap_is_strict_witness :
  formErr (request_of (upload_wav wavHeader)) = None /\
  supported (filename (upload_wav wavHeader)) /\
  (outcome (normalizeHandler main_go (ffmpeg_writes wavHeader)
                             (request_of (upload_wav wavHeader)) ∅)
   = httpError 400 "FILE_TOO_LARGE" "max upload size is 10MB"
   <-> (MaxUploadSize < 16)%Z).
Proof.
  split; [reflexivity|]. split; [right; reflexivity|].
  apply (size_cap_is_strict main_go (ffmpeg_writes wavHeader)
           (request_of (upload_wav wavHeader)) (upload_wav wavHeader) ∅);
    try reflexivity.
  right; reflexivity.
Defined.

(** * Further properties of the code *)

(** ** The validations of [normalizeHandler] *)

(** X1.  The rejections come in the order of the source and each one
    ends the request before anything is stored or sent: a form that does
    not parse is [INVALID_FORM] whatever else the request holds, a
    missing file field is [NO_FILE], an unsupported extension is
    [UNSUPPORTED_FORMAT] even when the body could not be read or is too
    long, and a failed read is 500 [READ_FAILED] with the reader's
    message.  This is the same in both programs. *)
Theorem rejections_in_source_order (p : program) (env : Env) (req : Request) (fs : FS) :
  let r := normalizeHandler p env req fs in
  (forall e, formErr req = Some e ->
             r = finish (httpError 400 "INVALID_FORM" e) fs) /\
  (formErr req = None -> fileField req = None ->
   r = finish (httpError 400 "NO_FILE" "missing file field") fs) /\
  (forall u, formErr req = None -> fileField req = Some u ->
             ~ supported (filename u) ->
             r = finish (httpError 400 "UNSUPPORTED_FORMAT"
                                   "only mp3 and wav supported") fs) /\
  (forall u e, formErr req = None -> fileField req = Some u ->
               supported (filename u) -> readErr u = Some e ->
               r = finish (httpError 500 "READ_FAILED" e) fs).
Proof.
  intros r. subst r. repeat split.
  - intros e He. apply rejected_untouched. unfold checkUpload. now rewrite He.
  - intros Hf Hu. apply rejected_untouched. unfold checkUpload. now rewrite Hf, Hu.
  - intros u Hf Hu Hext. apply rejected_untouched. unfold checkUpload.
    rewrite Hf, Hu.
    destruct (negb (String.eqb (ToLower (Ext (filename u))) ".mp3")
              && negb (String.eqb (ToLower (Ext (filename u))) ".wav")) eqn:E;
      [reflexivity|].
    exfalso. apply Hext. now apply supported_test.
  - intros u e Hf Hu Hext Hr. apply rejected_untouched. unfold checkUpload.
    rewrite Hf, Hu. apply supported_test in Hext. now rewrite Hext, Hr.
Qed.

Lemma rejections_in_source_order_witness :
  let req := request_of {| filename := "song.flac"; payload := [];
                           readErr := Some "unexpected EOF"; spare := 0 |} in
  ~ supported "song.flac" /\
  normalizeHandler part_000 quiet req ∅
  = finish (httpError 400 "UNSUPPORTED_FORMAT" "only mp3 and wav supported") ∅.
Proof.
  intros req.
  assert (H : ~ supported "song.flac")
    by (intros [H|H]; vm_compute in H; discriminate).
  split; [exact H|].
  exact (proj1 (proj2 (proj2 (rejections_in_source_order part_000 quiet req ∅)))
               _ eq_refl eq_refl H).
Defined.

(** ** The extension test *)

Lemma ext_scan_plain (e : string) : plain e -> ext_scan e = ExtNone.
Proof.
  unfold plain. induction e as [|c e IH]; simpl; intros H; [reflexivity|].
  inversion H as [|? ? [Hdot Hsep] Hrest]; subst.
  rewrite (IH Hrest). unfold IsPathSeparator.
  destruct (Ascii.eqb_spec c "/"); [contradiction|].
  destruct (Ascii.eqb_spec c "."); [contradiction|]. reflexivity.
Qed.

Lemma ext_scan_found_app (s t x : string) :
  ext_scan t = ExtFound x -> ext_scan (s +:+ t) = ExtFound x.
Proof.
  intros H. induction s as [|c s IH]; simpl; [exact H | now rewrite IH].
Qed.

Lemma ext_scan_separator_app (s t : string) :
  ext_scan t = ExtSeparator -> ext_scan (s +:+ t) = ExtSeparator.
Proof.
  intros H. induction s as [|c s IH]; simpl; [exact H | now rewrite IH].
Qed.

Lemma ToLower_app (s t : string) : ToLower (s +:+ t) = ToLower s +:+ ToLower t.
Proof. induction s as [|c s IH]; simpl; [reflexivity | now rewrite IH]. Qed.

(** X3.  The extension the handler tests is what follows the last dot of
    the last path element, compared without regard to case: a name
    [s.e], where [e] holds neither dot nor separator, is supported
    exactly when [e] lowers to ["mp3"] or ["wav"], whatever [s] is (also
    empty, or ending in another extension); a name whose last element
    has no dot has no extension and is rejected. *)
Theorem extension_is_last_dot_suffix (s e : string) :
  plain e ->
  Ext (s +:+ "." +:+ e) = "." +:+ e /\
  (supported (s +:+ "." +:+ e) <-> ToLower e = "mp3" \/ ToLower e = "wav") /\
  Ext (s +:+ "/" +:+ e) = "" /\ ~ supported (s +:+ "/" +:+ e).
Proof.
  intros He. pose proof (ext_scan_plain e He) as Hscan.
  assert (Hdot : ext_scan ("." +:+ e) = ExtFound ("." +:+ e)).
  { change ("." +:+ e) with (String "." e). simpl. now rewrite Hscan. }
  assert (Hsep : ext_scan ("/" +:+ e) = ExtSeparator).
  { change ("/" +:+ e) with (String "/" e). simpl. now rewrite Hscan. }
  assert (E1 : Ext (s +:+ "." +:+ e) = "." +:+ e).
  { unfold Ext. now rewrite (ext_scan_found_app s _ _ Hdot). }
  assert (E2 : Ext (s +:+ "/" +:+ e) = "").
  { unfold Ext. now rewrite (ext_scan_separator_app s _ Hsep). }
  split; [exact E1|]. split; [|split; [exact E2|]].
  - unfold supported. rewrite E1.
    assert (Hl : ToLower ("." +:+ e) = String "." (ToLower e)) by reflexivity.
    rewrite Hl.
    split; intros [H|H]; [left|right|left|right];
      first [now injection H | now rewrite H].
  - unfold supported. rewrite E2. simpl. intros [H|H]; discriminate.
Qed.

Lemma extension_is_last_dot_suffix_witness :
  plain "WaV" /\ supported ("take.one.mp3" +:+ "." +:+ "WaV").
Proof.
  assert (H : plain "WaV").
  { unfold plain. simpl. repeat constructor; discriminate. }
  split; [exact H|].
  apply (extension_is_last_dot_suffix "take.one.mp3" "WaV" H).
  right. reflexivity.
Defined.

(** ** The paths of the store *)

Lemma list_ascii_inj (s t : string) :
  list_ascii_of_string s = list_ascii_of_string t -> s = t.
Proof.
  intros H. rewrite <- (string_of_list_ascii_of_string s),
                    <- (string_of_list_ascii_of_string t). now rewrite H.
Qed.

Lemma drop_separators_head (c : ascii) (l : list ascii) :
  c <> "/"%char -> drop_separators (c :: l) = c :: l.
Proof.
  intros H. simpl. unfold IsPathSeparator.
  destruct (Ascii.eqb_spec c "/"); [contradiction | reflexivity].
Qed.

Lemma until_separator_app (l1 l2 : list ascii) :
  Forall (fun c => c <> "/"%char) l1 ->
  until_separator (l1 ++ "/"%char :: l2) = l1.
Proof.
  induction l1 as [|c l1 IH]; intros H; simpl.
  - reflexivity.
  - inversion H as [|? ? Hc Hrest]; subst. unfold IsPathSeparator.
    destruct (Ascii.eqb_spec c "/"); [contradiction|]. now rewrite IH.
Qed.

(** [filepath.Base] of a directory joined with one element is the
    element. *)
Lemma Base_Join (d n : string) :
  n <> "" -> Forall (fun c => c <> "/"%char) (list_ascii_of_string n) ->
  Base (Join d n) = n.
Proof.
  intros Hn Hplain. unfold Base, Join.
  assert (Hl : list_ascii_of_string (d +:+ "/" +:+ n)
               = list_ascii_of_string d ++ "/"%char :: list_ascii_of_string n).
  { now rewrite !list_ascii_app. }
  destruct (d +:+ "/" +:+ n) as [|c0 rest] eqn:E.
  { apply (f_equal list_ascii_of_string) in E. rewrite Hl in E.
    now destruct (list_ascii_of_string d). }
  rewrite Hl, rev_app_distr.
  change (rev ("/"%char :: list_ascii_of_string n))
    with (rev (list_ascii_of_string n) ++ ["/"%char]).
  destruct (rev (list_ascii_of_string n)) as [|c l] eqn:Hr.
  { apply (f_equal (@rev ascii)) in Hr. rewrite rev_involutive in Hr.
    exfalso. apply Hn. now apply list_ascii_inj. }
  assert (Hrev : Forall (fun c => c <> "/"%char) (c :: l)).
  { rewrite <- Hr. now apply Forall_rev. }
  inversion Hrev as [|? ? Hc Hrest]; subst.
  replace (((c :: l) ++ ["/"%char]) ++ rev (list_ascii_of_string d))
    with (c :: (l ++ "/"%char :: rev (list_ascii_of_string d)))
    by (now rewrite <- app_assoc).
  rewrite drop_separators_head by assumption.
  replace (c :: (l ++ "/"%char :: rev (list_ascii_of_string d)))
    with ((c :: l) ++ "/"%char :: rev (list_ascii_of_string d)) by reflexivity.
  rewrite until_separator_app by assumption.
  rewrite <- Hr, rev_involutive. apply string_of_list_ascii_of_string.
Qed.

Lemma hex_has_no_separator (s : string) :
  lowercase_hex s -> Forall (fun c => c <> "/"%char) (list_ascii_of_string s).
Proof.
  unfold lowercase_hex. intros H. eapply Forall_impl; [exact H|].
  intros c Hc E. subst c.
  simpl in Hc. repeat (destruct Hc as [Hc|Hc]; [discriminate|]). exact Hc.
Qed.

(** X4.  The [normalized.filename] of every success body is the file
    identifier followed by [".wav"]: [filepath.Base] of the entry path
    gives back the element the handler joined to the storage directory. *)
Theorem normalized_filename_is_fileId_wav (p : program) (env : Env)
        (req : Request) (fs : FS) (b : Body) :
  outcome (normalizeHandler p env req fs) = Responded (Success b) ->
  normalizedFilename b = fileId b +:+ ".wav" /\
  originalFilename b = match fileField req with
                       | Some u => filename u
                       | None => ""
                       end.
Proof.
  intros Hout.
  destruct (success_accepted p env req fs b Hout) as (u & Hv & Ha).
  destruct Hv as (_ & Hu & _). rewrite Hu.
  assert (Hbase : Base (outPathOf (sha256Hex (payload u)))
                  = sha256Hex (payload u) +:+ ".wav").
  { unfold outPathOf. apply Base_Join.
    - intros E. apply (f_equal list_ascii_of_string) in E.
      rewrite list_ascii_app in E. simpl in E.
      now destruct (list_ascii_of_string (sha256Hex (payload u))).
    - rewrite list_ascii_app. apply Forall_app. split.
      + apply hex_has_no_separator, sha256Hex_shape.
      + simpl. repeat constructor; discriminate. }
  revert Hout.
  destruct p; handler_cases; simpl; try discriminate;
    unfold respond;
    match goal with |- context [Stat ?f ?q] => destruct (Stat f q) end;
    try discriminate; intros [= <-]; simpl;
    rewrite ?outPathOf_unfold; (split; [exact Hbase | reflexivity]).
Qed.

Lemma normalized_filename_is_fileId_wav_witness :
  exists b,
    outcome (normalizeHandler main_go (ffmpeg_writes firstOutput) wavRequest ∅)
    = Responded (Success b) /\
    normalizedFilename b = fileId b +:+ ".wav".
Proof.
  eexists.
  match goal with |- ?o = Responded (Success ?b) /\ _ =>
    assert (H : o = Responded (Success b)) by (vm_compute; reflexivity)
  end.
  split; [exact H|].
  apply (normalized_filename_is_fileId_wav main_go (ffmpeg_writes firstOutput)
           wavRequest ∅ _ H).
Defined.

(** X5.  The paths derived from digests do not collide: two contents
    share an entry path, or a marker path, only when they share the
    digest; no marker path is an entry path; and the worker's temporary
    input is never a path of the store. *)
Theorem store_paths_do_not_collide (d1 d2 : list Byte.byte) (e : string) :
  (outPathOf (sha256Hex d1) = outPathOf (sha256Hex d2) <->
   sha256Hex d1 = sha256Hex d2) /\
  (tmpPathOf (sha256Hex d1) = tmpPathOf (sha256Hex d2) <->
   sha256Hex d1 = sha256Hex d2) /\
  tmpPathOf (sha256Hex d1) <> outPathOf (sha256Hex d2) /\
  tmpInputOf (sha256Hex d1) e <> outPathOf (sha256Hex d2) /\
  tmpInputOf (sha256Hex d1) e <> tmpPathOf (sha256Hex d2).
Proof.
  repeat split.
  - apply outPathOf_inj.
  - now intros ->.
  - apply tmpPathOf_inj.
  - now intros ->.
  - apply tmpPathOf_not_outPathOf.
  - apply tmpInputOf_not_outPathOf.
  - apply tmpInputOf_not_tmpPathOf.
Qed.

(** ** The worker *)

(** X6.  What [process] leaves in the file system, in both programs
    and whatever fails.  Every path other than the temporary input and
    the job's output path is as before.  The output path holds what
    ffmpeg wrote, and is untouched when ffmpeg wrote nothing or was
    never started.  The temporary input is gone when [os.WriteFile] and
    the deferred [os.Remove] both succeeded; when [os.Remove] fails the
    uploaded bytes stay there; and when [os.WriteFile] fails, [process]
    returns before the removal is deferred, so whatever the failed call
    created stays too. *)
Theorem worker_footprint (p : program) (env : Env) (job : Job) (fs : FS) :
  outPath job <> tmpInputOf (hash job) (ext job) ->
  let input := tmpInputOf (hash job) (ext job) in
  let fs' := snd (process p env job fs) in
  (forall q, q <> input -> q <> outPath job -> fs' !! q = fs !! q) /\
  fs' !! outPath job = match writeErr env, written env with
                       | None, Some out => Some out
                       | _, _ => fs !! outPath job
                       end /\
  fs' !! input = match writeErr env, writeLeft env, removeInputErr env with
                 | Some _, Some b, _ => Some b
                 | Some _, None, _ => fs !! input
                 | None, _, Some _ => Some (bytes (data job))
                 | None, _, None => None
                 end.
Proof.
  intros Hne input fs'. subst input fs'. rewrite process_store. repeat split.
  - intros q H1 H2.
    destruct (writeErr env); [now apply failedWrite_other | now apply worked_other].
  - destruct (writeErr env).
    + rewrite failedWrite_other by assumption. now destruct (written env).
    + rewrite worked_output by assumption. now destruct (written env).
  - destruct (writeErr env).
    + unfold failedWrite. destruct (writeLeft env); [apply lookup_insert_eq|reflexivity].
    + unfold worked, Remove, ffmpegRun.
      assert (E : forall w : option (list Byte.byte),
                 match w with
                 | Some b => <[outPath job := b]>
                               (<[tmpInputOf (hash job) (ext job)
                                  := bytes (data job)]> fs)
                 | None => <[tmpInputOf (hash job) (ext job)
                             := bytes (data job)]> fs
                 end !! tmpInputOf (hash job) (ext job)
                 = Some (bytes (data job))).
      { intros [b|]; [rewrite lookup_insert_ne by assumption|];
          apply lookup_insert_eq. }
      destruct (removeInputErr env), (writeLeft env);
        first [apply E | apply lookup_delete_eq].
Qed.

Lemma worker_footprint_witness :
  let job := wavJob part_000 in
  let env := {| writeErr := Some "no space left on device";
                writeLeft := Some (firstn 4 wavHeader);
                runFailed := false; stderr := EmptyString; written := None;
                ctxErr := None; claimErr := None; renameErr := None;
                removeInputErr := None; removeErr := None |} in
  outPath job <> tmpInputOf (hash job) (ext job) /\
  snd (process part_000 env job claimed) !! tmpInputOf (hash job) (ext job)
  = Some (firstn 4 wavHeader) /\
  snd (process part_000 (ffmpeg_fails "Invalid data" None) job claimed)
  !! tmpInputOf (hash job) (ext job) = None.
Proof.
  intros job env.
  assert (H : outPath job <> tmpInputOf (hash job) (ext job)).
  { apply not_eq_sym, tmpInputOf_not_tmpPathOf. }
  split; [exact H|]. split.
  - exact (proj2 (proj2 (worker_footprint part_000 env job claimed H))).
  - exact (proj2 (proj2 (worker_footprint part_000 (ffmpeg_fails "Invalid data" None)
                                          job claimed H))).
Defined.



(** ** The two programs side by side *)

Lemma worked_lookup (env : Env) (job : Job) (fs : FS) (q : string) :
  worked env job fs !! q
  = if decide (q = tmpInputOf (hash job) (ext job))
    then match removeInputErr env with
         | Some _ => afterRun env job fs !! q
         | None => None
         end
    else if decide (q = outPath job)
         then match written env with
              | Some out => Some out
              | None => fs !! q
              end
         else fs !! q.
Proof.
  rewrite worked_afterRun.
  destruct (decide (q = tmpInputOf (hash job) (ext job))) as [->|H1].
  { destruct (removeInputErr env); [reflexivity | apply Remove_done]. }
  rewrite Remove_other by assumption. unfold afterRun, ffmpegRun.
  destruct (decide (q = outPath job)) as [->|H2]; destruct (written env).
  - apply lookup_insert_eq.
  - now rewrite lookup_insert_ne by congruence.
  - rewrite lookup_insert_ne by congruence. now rewrite lookup_insert_ne by congruence.
  - now rewrite lookup_insert_ne by congruence.
Qed.

(** X8.  Where the two programs agree.  When no work is needed (the
    upload is rejected, or its entry exists) both handlers do the same
    in every respect.  And whenever the second program answers with a
    success body, [main.go], served the same request on the same store
    by the same environment, gives the same answer and leaves the same
    store, provided its exclusive create meets no marker and no
    failure. *)
Theorem programs_agree_on_success (env : Env) (req : Request) (u : Upload)
        (fs : FS) (b : Body) :
  fileField req = Some u -> claimErr env = None ->
  fs !! tmpPathOf (sha256Hex (payload u)) = None ->
  outcome (Part000.normalizeHandler env req fs) = Responded (Success b) ->
  outcome (MainGo.normalizeHandler env req fs) = Responded (Success b) /\
  store (MainGo.normalizeHandler env req fs)
  = store (Part000.normalizeHandler env req fs) /\
  ((forall a, checkUpload req = inr a -> is_Some (fs !! outPathOf (a_hash a))) ->
   MainGo.normalizeHandler env req fs = Part000.normalizeHandler env req fs).
Proof.
  intros Hu Hc Hfree Hout.
  assert (Hskip : (forall a, checkUpload req = inr a ->
                             is_Some (fs !! outPathOf (a_hash a))) ->
                  MainGo.normalizeHandler env req fs
                  = Part000.normalizeHandler env req fs).
  { intros Hall. destruct (checkUpload req) as [o|a] eqn:Ha.
    - pose proof (rejected_untouched main_go env req o fs Ha) as E1.
      pose proof (rejected_untouched part_000 env req o fs Ha) as E2.
      unfold normalizeHandler in E1, E2. now rewrite E1, E2.
    - destruct (Hall a eq_refl) as [x Hx].
      assert (Hs : Stat fs (outPathOf (a_hash a)) = Some (Z.of_nat (length x))).
      { unfold Stat. now rewrite Hx. }
      pose proof (handler_skips main_go env req a fs _ Ha Hs) as E1.
      pose proof (handler_skips part_000 env req a fs _ Ha Hs) as E2.
      unfold normalizeHandler in E1, E2. now rewrite E1, E2. }
  destruct (success_accepted part_000 env req fs b Hout) as (u' & Hv & Ha).
  assert (u' = u) as -> by (destruct Hv as (_ & Hu' & _); congruence).
  destruct (fs !! outPathOf (sha256Hex (payload u))) as [x|] eqn:Hentry.
  { assert (E : MainGo.normalizeHandler env req fs = Part000.normalizeHandler env req fs).
    { apply Hskip. intros a Ha'. rewrite Ha in Ha'. injection Ha' as <-.
      simpl. rewrite Hentry. eauto. }
    rewrite E. auto. }
  assert (Hstat : Stat fs (outPathOf (sha256Hex (payload u))) = None)
    by (unfold Stat; now rewrite Hentry).
  cut (outcome (MainGo.normalizeHandler env req fs) = Responded (Success b) /\
       store (MainGo.normalizeHandler env req fs)
       = store (Part000.normalizeHandler env req fs)).
  { intros [H1 H2]. auto. }
  set (jp := Part000.mkJob 0 (accepted_of u)).
  set (jm := MainGo.mkJob 0 (accepted_of u)).
  set (fm := <[tmpPathOf (sha256Hex (payload u)) := []]> fs).
  pose proof (process_store part_000 env jp fs) as Hsp.
  pose proof (process_store main_go env jm fm) as Hsm.
  pose proof (part_000_result_ok env jp fs) as Hok.
  pose proof (main_go_never_validates env jm fm) as Hm.
  unfold process in Hsp, Hsm.
  revert Hout.
  unfold MainGo.normalizeHandler, Part000.normalizeHandler. rewrite Ha. cbv zeta.
  rewrite ?tmpPathOf_unfold, ?outPathOf_unfold.
  change (a_hash (accepted_of u)) with (sha256Hex (payload u)).
  change (a_filename (accepted_of u)) with (filename u).
  rewrite Hstat, Hc, Hfree.
  fold jp jm fm.
  destruct (Part000.process env jp fs) as [res fs1] eqn:Hp.
  destruct (MainGo.process env jm fm) as [resm fs2] eqn:Hpm.
  cbn [fst snd] in Hsp, Hsm, Hok, Hm.
  destruct (Err res) eqn:He; [discriminate|].
  destruct (Hok eq_refl) as (Hw & Hr & out & Hafter & _).
  rewrite (Hm Hw Hr). rewrite Hw in Hsp, Hsm. subst fs1 fs2.
  assert (Hwritten : written env = Some out).
  { unfold afterRun, ffmpegRun in Hafter. destruct (written env).
    - rewrite lookup_insert_eq in Hafter. congruence.
    - rewrite lookup_insert_ne in Hafter by apply tmpInputOf_not_tmpPathOf.
      change (outPath jp) with (tmpPathOf (sha256Hex (payload u))) in Hafter.
      congruence. }
  assert (Hlk : forall j f, hash j = sha256Hex (payload u) ->
                            outPath j = tmpPathOf (sha256Hex (payload u)) ->
                            worked env j f !! tmpPathOf (sha256Hex (payload u)) = Some out).
  { intros j f Hh Ho. rewrite worked_lookup, Hwritten, Ho.
    destruct (decide _) as [E|_].
    { exfalso. symmetry in E. revert E. apply tmpInputOf_not_tmpPathOf. }
    now destruct (decide _). }
  unfold Rename. destruct (renameErr env); [discriminate|].
  rewrite (Hlk jp fs eq_refl eq_refl), (Hlk jm fm eq_refl eq_refl).
  cbn [fst snd outcome store]. intros Hout.
  split.
  - rewrite <- Hout. unfold respond, Stat. now rewrite !lookup_insert_eq.
  - f_equal. apply map_eq. intros q.
    destruct (decide (q = tmpPathOf (sha256Hex (payload u)))) as [->|Hq].
    { now rewrite !lookup_delete_eq. }
    rewrite !lookup_delete_ne by congruence. rewrite !worked_lookup.
    change (hash jm) with (hash jp). change (ext jm) with (ext jp).
    change (outPath jm) with (outPath jp).
    destruct (decide _) as [->|_].
    { destruct (removeInputErr env); [|reflexivity].
      unfold afterRun, ffmpegRun. rewrite Hwritten.
      change (hash jm) with (hash jp). change (ext jm) with (ext jp).
      change (outPath jm) with (outPath jp).
      rewrite !(lookup_insert_ne _ (outPath jp))
        by apply not_eq_sym, tmpInputOf_not_tmpPathOf.
      now rewrite !lookup_insert_eq. }
    destruct (decide _); [now destruct (written env)|].
    unfold fm. now rewrite lookup_insert_ne by congruence.
Qed.

Lemma programs_agree_on_success_witness :
  exists b,
    outcome (Part000.normalizeHandler (ffmpeg_writes firstOutput) wavRequest ∅)
    = Responded (Success b) /\
    outcome (MainGo.normalizeHandler (ffmpeg_writes firstOutput) wavRequest ∅)
    = Responded (Success b).
Proof.
  eexists.
  match goal with |- ?o = Responded (Success ?b) /\ _ =>
    assert (H : o = Responded (Success b)) by (vm_compute; reflexivity)
  end.
  split; [exact H|].
  apply (programs_agree_on_success (ffmpeg_writes firstOutput) wavRequest
           (upload_wav wavHeader) ∅ _ eq_refl eq_refl (lookup_empty _) H).
Defined.

(** ** The causes of a failed run *)

(** X9.  In the second program the error of a failed run tells its cause:
    two failed runs give the same error only when the job's context was
    in the same state (deadline passed, canceled, or neither), and
    without a context error only when ffmpeg's error output was the
    same. *)
Theorem part_000_failure_cause (env1 env2 : Env) (job : Job) (fs : FS) :
  writeErr env1 = None -> runFailed env1 = true ->
  writeErr env2 = None -> runFailed env2 = true ->
  Err (fst (Part000.process env1 job fs)) = Err (fst (Part000.process env2 job fs)) ->
  ctxErr env1 = ctxErr env2 /\
  (ctxErr env1 = None -> stderr env1 = stderr env2).
Proof.
  intros Hw1 Hr1 Hw2 Hr2.
  destruct (part_000_discriminates env1 job fs Hw1 Hr1) as [_ ->].
  destruct (part_000_discriminates env2 job fs Hw2 Hr2) as [_ ->].
  intros [= H].
  destruct (messages_distinct (stderr env1)) as (A1 & B1 & C).
  destruct (messages_distinct (stderr env2)) as (A2 & B2 & _).
  destruct (ctxErr env1) as [[]|], (ctxErr env2) as [[]|];
    try (split; [reflexivity | discriminate]);
    try (exfalso; congruence).
  split; [reflexivity|]. intros _.
  now apply string_app_inv_head in H.
Qed.

Lemma part_000_failure_cause_witness :
  Err (fst (Part000.process (ffmpeg_fails "Invalid data" (Some Canceled))
                            (wavJob part_000) ∅))
  = Err (fst (Part000.process (ffmpeg_fails "No such file" (Some Canceled))
                              (wavJob part_000) ∅)) /\
  ctxErr (ffmpeg_fails "Invalid data" (Some Canceled))
  = ctxErr (ffmpeg_fails "No such file" (Some Canceled)).
Proof.
  assert (H : Err (fst (Part000.process (ffmpeg_fails "Invalid data" (Some Canceled))
                                        (wavJob part_000) ∅))
              = Err (fst (Part000.process (ffmpeg_fails "No such file" (Some Canceled))
                                          (wavJob part_000) ∅))) by reflexivity.
  split; [exact H|].
  apply (part_000_failure_cause (ffmpeg_fails "Invalid data" (Some Canceled))
           (ffmpeg_fails "No such file" (Some Canceled))
           (wavJob part_000) ∅ eq_refl eq_refl eq_refl eq_refl H).
Defined.

(** ** The marker *)

(** X12.  A marker without an entry stops [main.go].  When the [.tmp]
    path of the content exists and the entry does not (a request in
    flight, or a marker left by a crash or by a failed rename),
    [main.go]'s handler sends no job, leaves the store as it is and ends
    in [respond]'s call on the nil [FileInfo]: the content is not
    normalized until the marker is removed.  The second program, on the
    same store, sends its job. *)
Theorem stale_marker_stops_main_go (env : Env) (req : Request) (u : Upload) (fs : FS) :
  valid req u -> claimErr env = None ->
  fs !! outPathOf (sha256Hex (payload u)) = None ->
  is_Some (fs !! tmpPathOf (sha256Hex (payload u))) ->
  MainGo.normalizeHandler env req fs = finish (Panicked NilDereference) fs /\
  enqueued (Part000.normalizeHandler env req fs)
  = [Part000.mkJob 0 (accepted_of u)].
Proof.
  intros Hv Hc Hnone [x Hx].
  pose proof (checkUpload_valid req u Hv) as Ha.
  assert (Hstat : Stat fs (outPathOf (sha256Hex (payload u))) = None).
  { unfold Stat. now rewrite Hnone. }
  unfold MainGo.normalizeHandler, Part000.normalizeHandler. rewrite Ha. cbv zeta.
  rewrite ?tmpPathOf_unfold, ?outPathOf_unfold.
  change (a_hash (accepted_of u)) with (sha256Hex (payload u)).
  rewrite Hstat, Hc, Hx. split.
  - unfold respond. now rewrite Hstat.
  - destruct (Part000.process env _ fs) as [res fs1].
    destruct (Err res); [reflexivity|].
    destruct (Rename env _ _ fs1) as [[e|] fs2]; reflexivity.
Qed.

Lemma stale_marker_stops_main_go_witness :
  valid wavRequest (upload_wav wavHeader) /\
  is_Some (claimed !! tmpPathOf (sha256Hex (payload (upload_wav wavHeader)))) /\
  MainGo.normalizeHandler quiet wavRequest claimed
  = finish (Panicked NilDereference) claimed.
Proof.
  assert (Hv : valid wavRequest (upload_wav wavHeader)).
  { repeat split; try reflexivity; [right; reflexivity | vm_compute; discriminate]. }
  assert (Hm : is_Some (claimed !! tmpPathOf (sha256Hex (payload (upload_wav wavHeader))))).
  { exists []. vm_compute. reflexivity. }
  split; [exact Hv|]. split; [exact Hm|].
  apply (stale_marker_stops_main_go quiet wavRequest (upload_wav wavHeader) claimed
           Hv eq_refl); [vm_compute; reflexivity | exact Hm].
Defined.


(** ** The system of handlers and workers *)

Lemma execute_cons (p : program) (act : action) (acts : list action) (s : State) :
  execute p (act :: acts) s
  = match step_of p act s with
    | Some s' => execute p acts s'
    | None => None
    end.
Proof. destruct p; reflexivity. Qed.

Lemma execute_nil (p : program) (s : State) : execute p [] s = Some s.
Proof. destruct p; reflexivity. Qed.

Lemma execute_invariant (p : program) (I : State -> Prop) :
  (forall act s s', I s -> step_of p act s = Some s' -> I s') ->
  forall acts s s', I s -> execute p acts s = Some s' -> I s'.
Proof.
  intros Hstep acts. induction acts as [|act acts IH]; intros s s' Hs.
  - rewrite execute_nil. now intros [= <-].
  - rewrite execute_cons. destruct (step_of p act s) as [s1|] eqn:E; [|discriminate].
    apply IH. exact (Hstep act s s1 Hs E).
Qed.

(** X13.  A finalized entry stays.  In every run of either program,
    from any state, a path of the form [storage/normalized/<key>.wav]
    that holds a file still holds one after any number of steps of
    handlers and workers: [os.Remove] is only ever called on [.tmp]
    paths and temporary inputs, and [os.Rename] only takes [.tmp] paths
    away.  (Its bytes can be replaced, see C8.) *)
Theorem entries_persist (p : program) (acts : list action) (s s' : State) (k : string) :
  execute p acts s = Some s' ->
  is_Some (files s !! outPathOf k) -> is_Some (files s' !! outPathOf k).
Proof.
  intros Hexec Hs.
  apply (execute_invariant p (fun t => is_Some (files t !! outPathOf k)))
    with (acts := acts) (s := s); try assumption.
  intros act t t' Ht Hstep. exact (entry_never_deleted p act t t' k Hstep Ht).
Qed.

Lemma entries_persist_witness :
  execute main_go (twice ++ main_go_race) (initial {[ outPathOf "00" := [] ]})
  = Some (default (initial ∅)
            (execute main_go (twice ++ main_go_race)
                     (initial {[ outPathOf "00" := [] ]}))) /\
  is_Some (files (default (initial ∅)
                    (execute main_go (twice ++ main_go_race)
                             (initial {[ outPathOf "00" := [] ]})))
           !! outPathOf "00").
Proof.
  assert (H : execute main_go (twice ++ main_go_race) (initial {[ outPathOf "00" := [] ]})
              = Some (default (initial ∅)
                        (execute main_go (twice ++ main_go_race)
                                 (initial {[ outPathOf "00" := [] ]}))))
    by (vm_compute; reflexivity).
  split; [exact H|].
  apply (entries_persist main_go _ _ _ "00" H).
  exists []. vm_compute. reflexivity.
Defined.

(** A handler sends at most one job in a step, and only when the queue
    has room. *)
Lemma sends_when_room (p : program) (env : Env) (i : nat) (h : hstate) (fs : FS)
      (room : bool) (inbox : option Result) (m : hmove) :
  hnext_of p env i h fs room inbox = Some m ->
  m_sent m = [] \/ (room = true /\ length (m_sent m) = 1%nat).
Proof.
  destruct p, h as [req|a|a|a|a|a sk|o]; simpl; intros H;
    repeat match type of H with
           | context [match ?x with _ => _ end] => destruct x
           | context [if ?x then _ else _] => destruct x
           end;
    try discriminate; injection H as <-; simpl; auto.
Qed.

(** X14.  The queue and the workers are bounded.  In every reachable
    state of either program at most 32 jobs wait in [jobQueue] and at
    most 4 jobs are with a worker, however many requests have arrived:
    a handler whose send finds the queue full does not move. *)
Theorem queue_and_workers_bounded (p : program) (s : State) :
  reachable_in p s ->
  (length (jobQueue s) <= 32)%nat /\ (length (running s) <= 4)%nat /\
  (forall env i a,
      handlers s !! i = Some (HSend a) -> length (jobQueue s) = 32%nat ->
      step_of p (Handler i env) s = None).
Proof.
  intros (fs0 & acts & Hexec).
  assert (Hb : bounded s).
  { apply (execute_invariant p bounded) with (acts := acts) (s := initial fs0);
      [|split; simpl; lia|exact Hexec].
    intros act t t' [Hq Hr] Hstep.
    assert (Hmove : forall i env m,
               hnext_of p env i
                 (default (HDone (Panicked SliceBounds)) (handlers t !! i)) (files t)
                 (length (jobQueue t) <? QueueCapacity)%nat (results t !! i) = Some m ->
               (length (jobQueue t ++ m_sent m) <= QueueCapacity)%nat).
    { intros i env m Hm. apply sends_when_room in Hm as [-> | [Hroom Hlen]].
      - now rewrite app_nil_r.
      - rewrite length_app, Hlen. apply Nat.ltb_lt in Hroom. lia. }
    destruct act as [req|i env| |k env].
    - destruct p; injection Hstep as <-; split; simpl; assumption.
    - destruct p; unfold step_of, MainGo.step, Part000.step, step in Hstep;
        specialize (Hmove i env); simpl in Hmove;
        destruct (handlers t !! i) as [h|]; try discriminate; simpl in Hmove;
        match type of Hstep with
        | context [match ?x with _ => _ end] => destruct x as [m|] eqn:Hm
        end; try discriminate;
        injection Hstep as <-; split; simpl;
        first [assumption | now apply Hmove].
    - destruct p; unfold step_of, MainGo.step, Part000.step, step in Hstep;
        (destruct (jobQueue t) as [|j q]; [discriminate|]);
        (destruct (Nat.ltb_spec (length (running t)) WorkerCount) as [Hlt|];
         [|discriminate]);
        injection Hstep as <-; split; simpl in *;
        first [lia | rewrite length_app; simpl; lia].
    - destruct p; unfold step_of, MainGo.step, Part000.step, step in Hstep;
        (destruct (running t !! k) as [j|] eqn:Hk; [|discriminate]);
        (destruct (results t !! result j); [discriminate|]);
        match type of Hstep with context [let '(_, _) := ?x in _] =>
          destruct x as [res fs'] end;
        injection Hstep as <-; split; simpl; try assumption;
        pose proof (sublist_length _ _ (sublist_delete (running t) k)) as Hd; lia. }
  destruct Hb as [Hq Hr]. unfold QueueCapacity, WorkerCount in *.
  split; [exact Hq|]. split; [exact Hr|].
  intros env i a Hi Hfull.
  destruct p; unfold step_of, MainGo.step, Part000.step, step; rewrite Hi; simpl;
    rewrite Hfull; reflexivity.
Qed.

Lemma queue_and_workers_bounded_witness :
  reachable_in part_000 (state_after part_000 (twice ++ part_000_both_sent)) /\
  (length (jobQueue (state_after part_000 (twice ++ part_000_both_sent))) <= 32)%nat.
Proof.
  assert (H : reachable_in part_000 (state_after part_000 (twice ++ part_000_both_sent))).
  { exists ∅, (twice ++ part_000_both_sent). vm_compute. reflexivity. }
  split; [exact H|].
  apply (queue_and_workers_bounded part_000 _ H).
Defined.

(** ** The channels in every interleaving *)

Lemma hnext_shape (p : program) (env : Env) (i : nat) (h : hstate) (fs : FS)
      (room : bool) (inbox : option Result) (m : hmove) :
  hnext_of p env i h fs room inbox = Some m -> move_shape p i h inbox m.
Proof.
  destruct p, h as [req|a|a|a|a|a sk|o]; simpl; intros H; try discriminate.
  all: try (destruct inbox as [res|]; [|discriminate]).
  all: try (destruct room; [|discriminate]).
  all: repeat match type of H with
              | context [match ?x with _ => _ end] => destruct x
              end.
  all: injection H as <-.
  all: first [ (eapply shape_send; simpl; eauto; reflexivity)
             | (eapply shape_receive; simpl; eauto; tauto)
             | (apply shape_quiet; simpl; tauto) ].
Qed.

Lemma channels_ok_initial (fs0 : FS) : channels_ok (initial fs0).
Proof.
  split; simpl.
  - constructor.
  - intros j Hj. unfold pending in Hj. simpl in Hj. now apply elem_of_nil in Hj.
  - intros i res Hi. rewrite lookup_empty in Hi. discriminate.
  - intros i a Hi. discriminate.
Qed.

Lemma channels_ok_step (p : program) (act : action) (s s' : State) :
  channels_ok s -> step_of p act s = Some s' -> channels_ok s'.
Proof.
  intros Inv Hstep.
  assert (Hstep' : step (hnext_of p) (process p) act s = Some s')
    by (destruct p; exact Hstep).
  clear Hstep. unfold step in Hstep'.
  destruct act as [req|i env| |k env].
  - (* arrival *)
    injection Hstep' as <-. split; simpl.
    + exact (ch_nodup s Inv).
    + intros j Hj. destruct (ch_pending s Inv j Hj) as (a & Ha & Hh & Hr).
      exists a. split; [now apply lookup_app_l_Some | auto].
    + intros i res Hi. destruct (ch_results s Inv i res Hi) as (a & Ha).
      exists a. now apply lookup_app_l_Some.
    + intros i a Hi. apply lookup_app_Some in Hi as [Hi|[_ Hi]].
      * exact (ch_waiting s Inv i a Hi).
      * apply list_lookup_singleton_Some in Hi as [_ Hi]. discriminate.
  - (* a handler moves *)
    destruct (handlers s !! i) as [h|] eqn:Hi; [|discriminate].
    destruct (hnext_of p env i h (files s) _ (results s !! i)) as [m|] eqn:Hm;
      [|discriminate].
    injection Hstep' as <-. apply hnext_shape in Hm.
    assert (Hlen : i < length (handlers s)) by (apply lookup_lt_is_Some; eauto).
    assert (Hmine : ~ waiting h \/ is_Some (results s !! i) ->
                    forall j, j ∈ pending s -> result j <> i).
    { intros Hor j Hj E. subst i.
      destruct (ch_pending s Inv j Hj) as (a & Ha & _ & Hr).
      destruct Hor as [Hw|[x Hx]]; [|congruence].
      rewrite Ha in Hi. injection Hi as <-. now apply Hw. }
    assert (Hnores : ~ waiting h -> results s !! i = None).
    { intros Hw. destruct (results s !! i) as [res|] eqn:Hr; [|reflexivity].
      destruct (ch_results s Inv i res Hr) as (a & Ha).
      rewrite Ha in Hi. injection Hi as <-. exfalso. now apply Hw. }
    assert (Hpend : forall j sent,
               j ∈ (jobQueue s ++ sent) ++ running s <-> j ∈ pending s \/ j ∈ sent).
    { intros j sent. unfold pending. rewrite !elem_of_app. tauto. }
    destruct Hm as [Hnw Hnw' _ Hs Hr | a j -> Hn Hs Hj Hh Hr
                   | a res -> Hin Hnw' _ Hs Hr]; rewrite Hs, Hr.
    + (* quiet *)
      specialize (Hmine (or_introl Hnw)). specialize (Hnores Hnw).
      split; simpl; unfold pending; simpl; rewrite ?app_nil_r.
      * exact (ch_nodup s Inv).
      * intros j Hj. destruct (ch_pending s Inv j Hj) as (a & Ha & Hh & Hr').
        exists a. rewrite list_lookup_insert_ne by (apply not_eq_sym, Hmine, Hj). auto.
      * intros k res Hk. destruct (decide (k = i)) as [->|Hne]; [congruence|].
        destruct (ch_results s Inv k res Hk) as (a & Ha).
        exists a. now rewrite list_lookup_insert_ne by congruence.
      * intros k a Hk.
        apply list_lookup_insert_Some in Hk as [(<- & E & _)|(Hne & Hk)].
        { rewrite E in Hnw'. now elim Hnw'. }
        exact (ch_waiting s Inv k a Hk).
    + (* send *)
      assert (Hnw : ~ waiting (HSend a)) by (simpl; tauto).
      specialize (Hmine (or_introl Hnw)). specialize (Hnores Hnw).
      rewrite Hn. split; simpl.
      * unfold pending. simpl.
        rewrite !fmap_app, <- app_assoc, (Permutation_app_comm (result <$> [j])),
          app_assoc, <- fmap_app.
        apply NoDup_app. split; [exact (ch_nodup s Inv)|].
        split; [|apply NoDup_singleton].
        intros x Hx Hx'. apply list_elem_of_fmap in Hx as (j' & -> & Hj').
        simpl in Hx'. apply list_elem_of_singleton in Hx'.
        apply (Hmine j' Hj'). congruence.
      * intros j' Hj'. unfold pending in Hj'. simpl in Hj'.
        apply Hpend in Hj' as [Hj'|Hj'].
        { destruct (ch_pending s Inv j' Hj') as (a' & Ha' & Hh' & Hr').
          exists a'. rewrite list_lookup_insert_ne by (apply not_eq_sym, Hmine, Hj').
          auto. }
        apply list_elem_of_singleton in Hj' as ->. exists a. rewrite Hj.
        rewrite list_lookup_insert_eq by assumption. auto.
      * intros k res Hk. destruct (decide (k = i)) as [->|Hne]; [congruence|].
        destruct (ch_results s Inv k res Hk) as (a' & Ha').
        exists a'. now rewrite list_lookup_insert_ne by congruence.
      * intros k a' Hk.
        apply list_lookup_insert_Some in Hk as [(<- & E & _)|(Hne & Hk)].
        { right. exists j. split; [|exact Hj]. unfold pending. simpl.
          rewrite !elem_of_app. left. right. now left. }
        destruct (ch_waiting s Inv k a' Hk) as [Hx|(j' & Hj' & Hr')];
          [now left|].
        right. exists j'. split; [|exact Hr']. unfold pending. simpl.
        apply Hpend. now left.
    + (* receive *)
      assert (Hsome : is_Some (results s !! i)) by (rewrite Hin; eauto).
      specialize (Hmine (or_intror Hsome)).
      split; simpl; unfold pending; simpl; rewrite ?app_nil_r.
      * exact (ch_nodup s Inv).
      * intros j Hj. destruct (ch_pending s Inv j Hj) as (a' & Ha' & Hh' & Hr').
        pose proof (Hmine j Hj) as Hne.
        exists a'. rewrite list_lookup_insert_ne by congruence.
        rewrite lookup_delete_ne by congruence. auto.
      * intros k res' Hk. destruct (decide (k = i)) as [->|Hne].
        { rewrite lookup_delete_eq in Hk. discriminate. }
        rewrite lookup_delete_ne in Hk by congruence.
        destruct (ch_results s Inv k res' Hk) as (a' & Ha').
        exists a'. now rewrite list_lookup_insert_ne by congruence.
      * intros k a' Hk.
        apply list_lookup_insert_Some in Hk as [(<- & E & _)|(Hne & Hk)].
        { rewrite E in Hnw'. now elim Hnw'. }
        rewrite lookup_delete_ne by congruence.
        exact (ch_waiting s Inv k a' Hk).
  - (* a worker receives a job *)
    destruct (jobQueue s) as [|j q] eqn:Hq; [discriminate|].
    destruct (_ <? _)%nat; [|discriminate]. injection Hstep' as <-.
    assert (Hperm : q ++ running s ++ [j] ≡ₚ pending s).
    { unfold pending. rewrite Hq, app_assoc. simpl.
      now rewrite <- Permutation_cons_append. }
    split; simpl; unfold pending; simpl.
    + rewrite Hperm. exact (ch_nodup s Inv).
    + intros j' Hj'. rewrite Hperm in Hj'. exact (ch_pending s Inv j' Hj').
    + exact (ch_results s Inv).
    + intros i a Hi. destruct (ch_waiting s Inv i a Hi) as [H|(j' & Hj' & Hr)];
        [now left|].
      right. exists j'. split; [|exact Hr]. now rewrite Hperm.
  - (* a worker processes a job and sends the result *)
    destruct (running s !! k) as [j|] eqn:Hk; [|discriminate].
    destruct (results s !! result j) eqn:Hrj; [discriminate|].
    destruct (process p env j (files s)) as [res fs'].
    injection Hstep' as <-.
    assert (Hperm : pending s ≡ₚ j :: (jobQueue s ++ delete k (running s))).
    { unfold pending. rewrite (delete_Permutation _ _ _ Hk) at 1.
      now rewrite <- Permutation_middle. }
    assert (Hnd : NoDup (result j :: (result <$> jobQueue s ++ delete k (running s)))).
    { rewrite <- fmap_cons, <- Hperm. exact (ch_nodup s Inv). }
    apply NoDup_cons in Hnd as [Hnotin Hnd].
    assert (Hj : j ∈ pending s) by (rewrite Hperm; left).
    split; simpl; unfold pending; simpl.
    + exact Hnd.
    + intros j' Hj'.
      assert (Hj'' : j' ∈ pending s) by (rewrite Hperm; now right).
      destruct (ch_pending s Inv j' Hj'') as (a & Ha & Hh & Hr).
      exists a. split; [exact Ha|]. split; [exact Hh|].
      rewrite lookup_insert_ne; [exact Hr|].
      intros E. apply Hnotin. rewrite E. now apply list_elem_of_fmap_2.
    + intros i r Hi.
      destruct (decide (result j = i)) as [<-|Hne].
      * destruct (ch_pending s Inv j Hj) as (a & Ha & _). eauto.
      * rewrite lookup_insert_ne in Hi by assumption.
        exact (ch_results s Inv i r Hi).
    + intros i a Hi.
      destruct (decide (result j = i)) as [<-|Hne].
      { left. rewrite lookup_insert_eq. eauto. }
      rewrite lookup_insert_ne by assumption.
      destruct (ch_waiting s Inv i a Hi) as [H|(j' & Hj' & Hr)]; [now left|].
      right. exists j'. split; [|exact Hr].
      rewrite Hperm in Hj'. apply elem_of_cons in Hj' as [->|Hj']; [congruence|].
      exact Hj'.
Qed.

Lemma channels_ok_reachable (p : program) (s : State) :
  reachable_in p s -> channels_ok s.
Proof.
  intros (fs0 & acts & Hexec).
  apply (execute_invariant p channels_ok) with (acts := acts) (s := initial fs0);
    [|apply channels_ok_initial|exact Hexec].
  intros act t t'. apply channels_ok_step.
Qed.

(** The handlers of the second program never stand before an exclusive
    create. *)
Lemma known_states_reachable (p : program) (s : State) :
  reachable_in p s -> forall i h, handlers s !! i = Some h -> known_state p h.
Proof.
  intros (fs0 & acts & Hexec).
  apply (execute_invariant p
           (fun t => forall i h, handlers t !! i = Some h -> known_state p h))
    with (acts := acts) (s := initial fs0); [| |exact Hexec].
  - intros act t t' Inv Hstep.
    assert (Hstep' : step (hnext_of p) (process p) act t = Some t')
      by (destruct p; exact Hstep).
    clear Hstep. unfold step in Hstep'.
    destruct act as [req|i env| |k env].
    + injection Hstep' as <-. simpl. intros i h Hi.
      apply lookup_app_Some in Hi as [Hi|[_ Hi]]; [now apply (Inv i)|].
      apply list_lookup_singleton_Some in Hi as [_ <-]. now destruct p.
    + destruct (handlers t !! i) as [h|] eqn:Hi; [|discriminate].
      destruct (hnext_of p env i h (files t) _ (results t !! i)) as [m|] eqn:Hm;
        [|discriminate].
      injection Hstep' as <-. simpl. intros k h' Hk.
      apply list_lookup_insert_Some in Hk as [(<- & <- & _)|(_ & Hk)];
        [|now apply (Inv k)].
      apply hnext_shape in Hm.
      destruct Hm as [_ _ Hks _ _ | a j _ -> _ _ _ _ | a res _ _ _ Hks _ _];
        try assumption. now destruct p.
    + destruct (jobQueue t); [discriminate|].
      destruct (_ <? _)%nat; [|discriminate]. injection Hstep' as <-. exact Inv.
    + destruct (running t !! k) as [j|]; [|discriminate].
      destruct (results t !! result j); [discriminate|].
      destruct (process p env j (files t)). injection Hstep' as <-. exact Inv.
  - simpl. intros i h Hi. discriminate.
Qed.

(** X15.  Every result channel is used once.  In every reachable state
    of either program the jobs in the queue or with a worker carry
    different result channels; the channel of such a job is empty and its
    handler is blocked at [<-job.result] for a job of that very hash; and
    a channel that holds a result has its handler blocked there to read
    it. *)
Theorem result_channels_used_once (p : program) (s : State) :
  reachable_in p s ->
  NoDup (result <$> pending s) /\
  (forall j, j ∈ pending s ->
     results s !! result j = None /\
     exists a, handlers s !! result j = Some (HWait a) /\ hash j = a_hash a) /\
  (forall i res, results s !! i = Some res ->
     (forall j, j ∈ pending s -> result j <> i) /\
     exists a, handlers s !! i = Some (HWait a)).
Proof.
  intros Hs. pose proof (channels_ok_reachable p s Hs) as Inv.
  split; [exact (ch_nodup s Inv)|]. split.
  - intros j Hj. destruct (ch_pending s Inv j Hj) as (a & Ha & Hh & Hr). eauto.
  - intros i res Hi. split; [|exact (ch_results s Inv i res Hi)].
    intros j Hj E. destruct (ch_pending s Inv j Hj) as (_ & _ & _ & Hr).
    congruence.
Qed.

Lemma result_channels_used_once_witness :
  let s := state_after part_000 (twice ++ part_000_both_sent ++ [Take]) in
  NoDup (result <$> pending s) /\
  (forall j, j ∈ pending s ->
     results s !! result j = None /\
     exists a, handlers s !! result j = Some (HWait a) /\ hash j = a_hash a) /\
  (forall i res, results s !! i = Some res ->
     (forall j, j ∈ pending s -> result j <> i) /\
     exists a, handlers s !! i = Some (HWait a)).
Proof.
  intros s.
  assert (H : reachable_in part_000 s).
  { exists ∅, (twice ++ part_000_both_sent ++ [Take]). vm_compute. reflexivity. }
  exact (result_channels_used_once part_000 s H).
Defined.

(** X16.  A worker is never held up by its send.  In every reachable
    state, whatever job a worker holds, [job.result <- process(job)] goes
    through: the channel's buffer of one is free.  Afterwards the result
    is in the channel of the handler that sent the job, and that handler,
    blocked at [<-job.result], can take its next step. *)
Theorem worker_send_never_blocks (p : program) (s : State) (k : nat) (j : Job)
        (env env' : Env) :
  reachable_in p s ->
  running s !! k = Some j ->
  exists s',
    step_of p (Work k env) s = Some s' /\
    results s' !! result j = Some (fst (process p env j (files s))) /\
    running s' = delete k (running s) /\
    is_Some (step_of p (Handler (result j) env') s').
Proof.
  intros Hs Hk. pose proof (channels_ok_reachable p s Hs) as Inv.
  assert (Hj : j ∈ pending s).
  { unfold pending. apply elem_of_app. right. eapply list_elem_of_lookup_2, Hk. }
  destruct (ch_pending s Inv j Hj) as (a & Ha & Hh & Hr).
  assert (Hstep : step (hnext_of p) (process p) (Work k env) s =
                  step_of p (Work k env) s) by (destruct p; reflexivity).
  rewrite <- Hstep. unfold step. rewrite Hk, Hr.
  destruct (process p env j (files s)) as [res fs'] eqn:Hp.
  eexists. split; [reflexivity|]. simpl.
  split; [now rewrite lookup_insert_eq|]. split; [reflexivity|].
  assert (Hstep' : forall t, step (hnext_of p) (process p) (Handler (result j) env') t =
                   step_of p (Handler (result j) env') t) by (destruct p; reflexivity).
  rewrite <- Hstep'. unfold step. simpl. rewrite Ha, lookup_insert_eq.
  destruct p; simpl; destruct (Err res); eauto.
  destruct (Rename _ _ _ _) as [[e|] fs'']; eauto.
Qed.

Lemma worker_send_never_blocks_witness :
  let s := state_after part_000 (twice ++ part_000_both_sent ++ [Take; Take]) in
  exists s',
    step_of part_000 (Work 1 (ffmpeg_fails "Invalid data" None)) s = Some s' /\
    results s' !! 1%nat =
      Some (fst (process part_000 (ffmpeg_fails "Invalid data" None)
                         (Part000.mkJob 1 (accepted_of (upload_wav wavHeader)))
                         (files s))) /\
    running s' = delete 1%nat (running s) /\
    is_Some (step_of part_000 (Handler 1 quiet) s').
Proof.
  intros s.
  assert (H : reachable_in part_000 s).
  { exists ∅, (twice ++ part_000_both_sent ++ [Take; Take]). vm_compute. reflexivity. }
  assert (Hk : running s !! 1%nat
               = Some (Part000.mkJob 1 (accepted_of (upload_wav wavHeader))))
    by (vm_compute; reflexivity).
  exact (worker_send_never_blocks
           part_000 s 1 (Part000.mkJob 1 (accepted_of (upload_wav wavHeader)))
           (ffmpeg_fails "Invalid data" None) quiet H Hk).
Defined.

(** X17.  No deadlock.  In every reachable state of either program in
    which some request has not been answered, a step other than the
    arrival of a new request is possible: the handler itself moves, or a
    worker receives a job from the queue, or a worker finishes the job it
    holds.  In particular a full queue and busy workers never block each
    other. *)
Theorem unanswered_request_means_progress (p : program) (s : State) (i : nat)
        (h : hstate) :
  reachable_in p s ->
  handlers s !! i = Some h -> ~ finished h ->
  exists act, is_arrival act = false /\ is_Some (step_of p act s).
Proof.
  intros Hs Hi Hnf.
  pose proof (channels_ok_reachable p s Hs) as Inv.
  pose proof (known_states_reachable p s Hs i h Hi) as Hknown.
  assert (Hstep : forall act, step (hnext_of p) (process p) act s = step_of p act s)
    by (destruct p; reflexivity).
  assert (Hwork : forall k j, running s !! k = Some j ->
            exists act, is_arrival act = false /\ is_Some (step_of p act s)).
  { intros k j Hk. exists (Work k quiet). split; [reflexivity|].
    assert (Hj : j ∈ pending s).
    { unfold pending. apply elem_of_app. right. eapply list_elem_of_lookup_2, Hk. }
    destruct (ch_pending s Inv j Hj) as (_ & _ & _ & Hr).
    rewrite <- Hstep. unfold step. rewrite Hk, Hr.
    destruct (process p quiet j (files s)). eauto. }
  assert (Hqueue : jobQueue s <> [] ->
            exists act, is_arrival act = false /\ is_Some (step_of p act s)).
  { intros Hq. destruct (Nat.ltb_spec (length (running s)) WorkerCount) as [Hlt|Hge].
    - exists Take. split; [reflexivity|]. rewrite <- Hstep. unfold step.
      destruct (jobQueue s); [congruence|].
      apply Nat.ltb_lt in Hlt. rewrite Hlt. eauto.
    - destruct (running s) as [|j r] eqn:Hr.
      + unfold WorkerCount in Hge. simpl in Hge. lia.
      + apply (Hwork 0%nat j). rewrite ?Hr. reflexivity. }
  assert (Hmove : forall env, is_Some (hnext_of p env i h (files s)
                     (length (jobQueue s) <? QueueCapacity)%nat (results s !! i)) ->
            exists act, is_arrival act = false /\ is_Some (step_of p act s)).
  { intros env [m Hm]. exists (Handler i env). split; [reflexivity|].
    rewrite <- Hstep. unfold step. rewrite Hi, Hm. eauto. }
  destruct h as [req|a|a|a|a|a sk|o].
  - apply (Hmove quiet). destruct p; simpl; destruct (checkUpload req); eauto.
  - apply (Hmove quiet). destruct p; simpl; destruct (Stat _ _); eauto.
  - destruct p; [|destruct Hknown].
    apply (Hmove quiet). simpl. destruct (files s !! _); eauto.
  - destruct (Nat.ltb_spec (length (jobQueue s)) QueueCapacity) as [Hlt|Hge].
    + apply (Hmove quiet). apply Nat.ltb_lt in Hlt.
      destruct p; simpl; rewrite ?Hlt; eauto.
    + apply Hqueue. intros E. rewrite E in Hge. unfold QueueCapacity in Hge.
      simpl in Hge. lia.
  - destruct (ch_waiting s Inv i a Hi) as [[res Hres]|(j & Hj & Hr)].
    + apply (Hmove quiet). rewrite Hres.
      destruct p; simpl; destruct (Err res); eauto.
      destruct (Rename _ _ _ _) as [[e|] fs']; eauto.
    + unfold pending in Hj. apply elem_of_app in Hj as [Hj|Hj].
      * apply Hqueue. intros E. rewrite E in Hj. now apply elem_of_nil in Hj.
      * apply list_elem_of_lookup_1 in Hj as [k Hk]. exact (Hwork k j Hk).
  - apply (Hmove quiet). destruct p; simpl; eauto.
  - now elim Hnf.
Qed.

Lemma unanswered_request_means_progress_witness :
  let s := state_after main_go (twice ++ main_go_claim_lost) in
  exists act, is_arrival act = false /\ is_Some (step_of main_go act s).
Proof.
  intros s.
  assert (H : reachable_in main_go s).
  { exists ∅, (twice ++ main_go_claim_lost). vm_compute. reflexivity. }
  assert (Hi : handlers s !! 0%nat = Some (HSend (accepted_of (upload_wav wavHeader))))
    by (vm_compute; reflexivity).
  exact (unanswered_request_means_progress main_go s 0 _ H Hi (fun f => f)).
Defined.

(** X18.  A request served alone is always answered.  From any store,
    a request that arrives while nothing else is in flight can be taken
    through the queue and a worker to its end: the run stops with that
    one handler answered by exactly the outcome of the sequential
    [normalizeHandler], the store as the handler and the worker left it,
    the queue and the workers idle and no result left in a channel. *)
Theorem served_alone (p : program) (env : Env) (req : Request) (fs : FS) :
  exists acts s,
    execute p (Arrive req :: acts) (initial fs) = Some s /\
    handlers s = [HDone (outcome (normalizeHandler p env req fs))] /\
    files s = store (normalizeHandler p env req fs) /\
    jobQueue s = [] /\ running s = [] /\ results s = ∅.
Proof.
  assert (Hidle : forall s : State, pending s = [] -> jobQueue s = [] /\ running s = []).
  { intros s H. unfold pending in H. now apply app_eq_nil in H. }
  destruct p.
  - destruct (main_go_solo env req fs) as (acts & s & He & Hh & Hf & Hp & Hr).
    apply Hidle in Hp as [Hq Hw]. exists acts, s. auto 10.
  - destruct (part_000_solo env req fs) as (acts & s & He & Hh & Hf & Hp & Hr).
    apply Hidle in Hp as [Hq Hw]. exists acts, s. auto 10.
Qed.

(** ** The steps of the system, inverted *)

Lemma step_of_step (p : program) (act : action) (s : State) :
  step_of p act s = step (hnext_of p) (process p) act s.
Proof. destruct p; reflexivity. Qed.

Lemma step_handler_inv (p : program) (i : nat) (env : Env) (s s' : State) :
  step_of p (Handler i env) s = Some s' ->
  exists h m,
    handlers s !! i = Some h /\
    hnext_of p env i h (files s)
             (length (jobQueue s) <? QueueCapacity)%nat (results s !! i) = Some m /\
    files s' = m_files m /\ jobQueue s' = jobQueue s ++ m_sent m /\
    running s' = running s /\ handlers s' = <[i := m_next m]> (handlers s) /\
    results s' = (if m_received m then delete i (results s) else results s).
Proof.
  rewrite step_of_step. unfold step.
  destruct (handlers s !! i) as [h|]; [|discriminate].
  destruct (hnext_of p env i h _ _ _) as [m|] eqn:Hm; [|discriminate].
  intros [= <-]. exists h, m. simpl. repeat split. exact Hm.
Qed.

Lemma step_work_inv (p : program) (k : nat) (env : Env) (s s' : State) :
  step_of p (Work k env) s = Some s' ->
  exists j,
    running s !! k = Some j /\ results s !! result j = None /\
    files s' = snd (process p env j (files s)) /\
    jobQueue s' = jobQueue s /\ running s' = delete k (running s) /\
    handlers s' = handlers s /\
    results s' = <[result j := fst (process p env j (files s))]> (results s).
Proof.
  rewrite step_of_step. unfold step.
  destruct (running s !! k) as [j|] eqn:Hk; [|discriminate].
  destruct (results s !! result j) eqn:Hr; [discriminate|].
  destruct (process p env j (files s)) as [res fs'] eqn:Hp.
  intros [= <-]. exists j. rewrite Hp. simpl. repeat split; assumption.
Qed.

Lemma step_take_inv (p : program) (s s' : State) :
  step_of p Take s = Some s' ->
  exists j, jobQueue s = j :: jobQueue s' /\ running s' = running s ++ [j] /\
            files s' = files s /\ handlers s' = handlers s /\
            results s' = results s.
Proof.
  rewrite step_of_step. unfold step.
  destruct (jobQueue s) as [|j q] eqn:Hq; [discriminate|].
  destruct (_ <? _)%nat; [|discriminate].
  intros [= <-]. exists j. simpl. repeat split.
Qed.

Lemma step_arrive_inv (p : program) (req : Request) (s s' : State) :
  step_of p (Arrive req) s = Some s' ->
  handlers s' = handlers s ++ [HStart req] /\ files s' = files s /\
  jobQueue s' = jobQueue s /\ running s' = running s /\ results s' = results s.
Proof.
  rewrite step_of_step. unfold step. intros [= <-]. simpl. repeat split.
Qed.

Lemma pending_take (s s' : State) (j : Job) :
  jobQueue s = j :: jobQueue s' -> running s' = running s ++ [j] ->
  pending s' ≡ₚ pending s.
Proof.
  intros Hq Hr. unfold pending. rewrite Hq, Hr, app_assoc. simpl.
  now rewrite <- Permutation_cons_append.
Qed.

(** ** Jobs are built from validated uploads *)

Lemma hnext_carries (p : program) (env : Env) (i : nat) (h : hstate) (fs : FS)
      (room : bool) (inbox : option Result) (m : hmove) (a : Accepted) :
  hnext_of p env i h fs room inbox = Some m ->
  carries (m_next m) = Some a ->
  carries h = Some a \/ exists req, h = HStart req /\ checkUpload req = inr a.
Proof.
  destruct p, h as [req|b|b|b|b|b sk|o]; simpl; intros H; try discriminate.
  all: try (destruct inbox as [res|]; [|discriminate]).
  all: try (destruct room; [|discriminate]).
  all: try (destruct (checkUpload req) as [o|b] eqn:Hc).
  all: repeat match type of H with
              | context [match ?x with _ => _ end] => destruct x
              end.
  all: injection H as <-; simpl; intros Ha; try discriminate.
  all: first [ now left | right; exists req; split; [reflexivity|congruence] ].
Qed.

Lemma hnext_sent (p : program) (env : Env) (i : nat) (h : hstate) (fs : FS)
      (room : bool) (inbox : option Result) (m : hmove) (j : Job) :
  hnext_of p env i h fs room inbox = Some m -> j ∈ m_sent m ->
  exists a, h = HSend a /\ m_next m = HWait a /\ j = mkJob_of p i a /\
            m_sent m = [j].
Proof.
  destruct p, h as [req|b|b|b|b|b sk|o]; simpl; intros H; try discriminate.
  all: try (destruct inbox as [res|]; [|discriminate]).
  all: try (destruct room; [|discriminate]).
  all: repeat match type of H with
              | context [match ?x with _ => _ end] => destruct x
              end.
  all: injection H as <-; simpl; intros Hj.
  all: try (now apply elem_of_nil in Hj).
  all: apply list_elem_of_singleton in Hj as ->; exists b; auto.
Qed.

Lemma result_mkJob_of (p : program) (i : nat) (a : Accepted) :
  result (mkJob_of p i a) = i.
Proof. destruct p; reflexivity. Qed.

Lemma uploads_valid_initial (p : program) (fs0 : FS) : uploads_valid p (initial fs0).
Proof.
  split; simpl.
  - intros i h a Hi. discriminate.
  - intros j Hj. unfold pending in Hj. simpl in Hj. now apply elem_of_nil in Hj.
Qed.

Lemma uploads_valid_step (p : program) (act : action) (s s' : State) :
  channels_ok s -> uploads_valid p s -> step_of p act s = Some s' ->
  uploads_valid p s'.
Proof.
  intros Ch Inv Hstep. destruct act as [req|i env| |k env].
  - apply step_arrive_inv in Hstep as (Hh & _ & Hq & Hr & _).
    split; unfold pending; rewrite Hh, ?Hq, ?Hr.
    + intros i h a Hi Hc. apply lookup_app_Some in Hi as [Hi|[_ Hi]].
      * exact (uv_handlers p s Inv i h a Hi Hc).
      * apply list_lookup_singleton_Some in Hi as [_ <-]. discriminate.
    + intros j Hj. destruct (uv_jobs p s Inv j Hj) as (a & Ha & E).
      exists a. split; [now apply lookup_app_l_Some | exact E].
  - apply step_handler_inv in Hstep as (h & m & Hi & Hm & _ & Hq & Hr & Hh & _).
    assert (Hlen : i < length (handlers s)) by (apply lookup_lt_is_Some; eauto).
    split; unfold pending; rewrite Hh, ?Hq, ?Hr.
    + intros i' h' a Hi' Hc.
      apply list_lookup_insert_Some in Hi' as [(<- & <- & _)|(_ & Hi')];
        [|exact (uv_handlers p s Inv i' h' a Hi' Hc)].
      destruct (hnext_carries p env i h _ _ _ m a Hm Hc) as [Hold|(req & -> & Hreq)].
      * exact (uv_handlers p s Inv i h a Hi Hold).
      * destruct (checkUpload_accepted req a Hreq) as (u & Hv & ->). eauto.
    + intros j Hj. rewrite <- app_assoc, (Permutation_app_comm (m_sent m)),
        app_assoc in Hj.
      apply elem_of_app in Hj as [Hj|Hj].
      * destruct (uv_jobs p s Inv j Hj) as (a & Ha & E).
        exists a. split; [|exact E].
        rewrite list_lookup_insert_ne; [exact Ha|].
        intros Eij. rewrite <- Eij in Ha.
        destruct (hnext_shape p env _ h _ _ _ m Hm)
          as [Hnw _ _ _ _ | b j' -> _ _ _ _ _ | b res -> Hin _ _ _ _].
        -- rewrite Ha in Hi. injection Hi as <-. now apply Hnw.
        -- rewrite Ha in Hi. discriminate.
        -- destruct (ch_pending s Ch j Hj) as (_ & _ & _ & Hnone). congruence.
      * destruct (hnext_sent p env i h _ _ _ m j Hm Hj) as (a & -> & Hn & -> & _).
        exists a. rewrite result_mkJob_of, list_lookup_insert_eq by assumption.
        split; [now rewrite Hn | reflexivity].
  - apply step_take_inv in Hstep as (j & Hq & Hr & _ & Hh & _).
    split; rewrite Hh.
    + exact (uv_handlers p s Inv).
    + intros j' Hj'. rewrite (pending_take s s' j Hq Hr) in Hj'.
      exact (uv_jobs p s Inv j' Hj').
  - apply step_work_inv in Hstep as (j & Hk & _ & _ & Hq & Hr & Hh & _).
    split; rewrite Hh.
    + exact (uv_handlers p s Inv).
    + intros j' Hj'. apply (uv_jobs p s Inv j').
      unfold pending in *. rewrite Hq, Hr in Hj'.
      apply elem_of_app in Hj' as [Hj'|Hj']; apply elem_of_app; [now left|right].
      exact (list_elem_of_delete_inv _ _ _ Hj').
Qed.

(** The invariants of both programs, together. *)
Lemma system_invariants (p : program) (s : State) :
  reachable_in p s -> channels_ok s /\ uploads_valid p s.
Proof.
  intros (fs0 & acts & Hexec).
  apply (execute_invariant p (fun t => channels_ok t /\ uploads_valid p t))
    with (acts := acts) (s := initial fs0);
    [|split; [apply channels_ok_initial | apply uploads_valid_initial]|exact Hexec].
  intros act t t' [Ch Uv] Hstep. split.
  - exact (channels_ok_step p act t t' Ch Hstep).
  - exact (uploads_valid_step p act t t' Ch Uv Hstep).
Qed.

(** X2.  Only validated uploads reach the workers.  In every reachable
    state of either program, however the requests interleave, every job
    in the queue or with a worker was built from an upload that passed
    every validation: its extension is [.mp3] or [.wav], its data are at
    most 10 MiB, its hash is the SHA-256 digest of its data, its output
    path is the [.tmp] path of that hash, and the handler that sent it
    is waiting for its result. *)
Theorem jobs_carry_validated_uploads (p : program) (s : State) (j : Job) :
  reachable_in p s -> j ∈ pending s ->
  exists u,
    handlers s !! result j = Some (HWait (accepted_of u)) /\
    (ext j = ".mp3" \/ ext j = ".wav") /\ ext j = ToLower (Ext (filename u)) /\
    bytes (data j) = payload u /\ readErr u = None /\
    (Z.of_nat (length (bytes (data j))) <= 10485760)%Z /\
    hash j = sha256Hex (bytes (data j)) /\
    outPath j = tmpPathOf (hash j).
Proof.
  intros Hs Hj. destruct (system_invariants p s Hs) as [_ Uv].
  destruct (uv_jobs p s Uv j Hj) as (a & Ha & E).
  destruct (uv_handlers p s Uv _ _ a Ha eq_refl) as (req & u & Hv & ->).
  destruct Hv as (_ & _ & Hsup & Hread & Hlen).
  assert (Hfields : ext j = ToLower (Ext (filename u)) /\
                    data j = ReadAll (payload u) (spare u) /\
                    hash j = sha256Hex (payload u) /\
                    outPath j = tmpPathOf (hash j)).
  { rewrite E. destruct p; repeat split. }
  destruct Hfields as (He & Hd & Hh & Ho).
  exists u. rewrite Hd, bytes_ReadAll, He.
  repeat split; try assumption.
Qed.

Lemma jobs_carry_validated_uploads_witness :
  let s := state_after part_000 (twice ++ part_000_both_sent ++ [Take]) in
  let j := Part000.mkJob 1 (accepted_of (upload_wav wavHeader)) in
  j ∈ pending s /\
  exists u,
    handlers s !! result j = Some (HWait (accepted_of u)) /\
    (ext j = ".mp3" \/ ext j = ".wav") /\ ext j = ToLower (Ext (filename u)) /\
    bytes (data j) = payload u /\ readErr u = None /\
    (Z.of_nat (length (bytes (data j))) <= 10485760)%Z /\
    hash j = sha256Hex (bytes (data j)) /\
    outPath j = tmpPathOf (hash j).
Proof.
  intros s j.
  assert (H : reachable_in part_000 s).
  { exists ∅, (twice ++ part_000_both_sent ++ [Take]). vm_compute. reflexivity. }
  assert (Hj : j ∈ pending s).
  { replace (pending s) with [j; Part000.mkJob 0 (accepted_of (upload_wav wavHeader))]
      by (vm_compute; reflexivity). left. }
  split; [exact Hj|].
  exact (jobs_carry_validated_uploads part_000 s j H Hj).
Defined.

(** ** Every request of the second program is answered *)







(** ** The markers in every interleaving *)

Lemma after_remove (fs : FS) (a k : string) :
  is_Some (Remove None (tmpPathOf a) fs !! tmpPathOf k) ->
  k <> a /\ is_Some (fs !! tmpPathOf k).
Proof.
  unfold Remove. destruct (decide (k = a)) as [->|Hne].
  - rewrite lookup_delete_eq. now intros [? ?].
  - rewrite lookup_delete_ne; [auto|]. intros E. apply tmpPathOf_inj in E. congruence.
Qed.

Lemma after_rename (fs : FS) (a k : string) (b : list Byte.byte) :
  is_Some (<[outPathOf a := b]> (delete (tmpPathOf a) fs) !! tmpPathOf k) ->
  k <> a /\ is_Some (fs !! tmpPathOf k).
Proof.
  rewrite lookup_insert_ne by apply not_eq_sym, tmpPathOf_not_outPathOf.
  apply (after_remove fs a k).
Qed.

Lemma hnext_markers (p : program) (env : Env) (i : nat) (h : hstate) (fs : FS)
      (room : bool) (inbox : option Result) (m : hmove) (k : string) :
  hnext_of p env i h fs room inbox = Some m ->
  removeErr env = None -> (p = main_go -> renameErr env = None) ->
  is_Some (m_files m !! tmpPathOf k) ->
  holds k (m_next m) \/ (is_Some (fs !! tmpPathOf k) /\ ~ holds k h).
Proof.
  intros H Hrm Hrn.
  assert (Hquiet : forall h', is_Some (fs !! tmpPathOf k) -> ~ holds k h' ->
             holds k h' \/ (is_Some (fs !! tmpPathOf k) /\ ~ holds k h')) by auto.
  destruct p, h as [req|a|a|a|a|a sk|o]; simpl in H; try discriminate.
  all: try (destruct inbox as [res|]; [|discriminate]).
  all: try (destruct room; [|discriminate]).
  all: try (destruct (fs !! tmpPathOf (a_hash a)) as [x|] eqn:Hmark).
  all: try (destruct (Rename env (tmpPathOf (a_hash a)) (outPathOf (a_hash a)) fs)
              as [[e|] fs'] eqn:Hren).
  all: repeat match type of H with
              | context [match ?x with _ => _ end] => destruct x
              end.
  all: injection H as <-; cbn [m_files m_next holds]; rewrite ?Hrm.
  all: try (intros Hk; right; split; [exact Hk | tauto]; fail).
  all: try (intros Hk; destruct (decide (a_hash a = k)) as [E|Hne];
            [now left | right; split; [exact Hk | exact Hne]]; fail).
  all: try (intros Hk; apply after_remove in Hk as [Hne Hk]; right;
            split; [exact Hk | congruence]; fail).
  all: try (apply Rename_failed in Hren as ->;
            intros Hk; apply after_remove in Hk as [Hne Hk]; right;
            split; [exact Hk | congruence]; fail).
  all: try (apply Rename_ok in Hren as (b & _ & _ & ->);
            intros Hk; apply after_rename in Hk as [Hne Hk]; right;
            split; [exact Hk | congruence]; fail).
  (* main.go creates its marker *)
  all: try (intros Hk; destruct (decide (a_hash a = k)) as [E|Hne]; [now left|];
            right; split; [|tauto];
            rewrite lookup_insert_ne in Hk; [exact Hk|];
            intros E; apply tmpPathOf_inj in E; congruence).
  (* main.go's rename finds the marker gone *)
  all: unfold Rename in Hren; rewrite (Hrn eq_refl), Hmark in Hren;
    try discriminate; injection Hren as _ <-.
  all: intros Hk; right; split; [exact Hk|].
  all: intros E; rewrite E in Hmark; destruct Hk as [y Hy]; congruence.
Qed.

Lemma markers_step (p : program) (act : action) (s s' : State) :
  channels_ok s -> uploads_valid p s -> markers_held s -> cleans p act ->
  step_of p act s = Some s' -> markers_held s'.
Proof.
  intros Ch Uv Inv Hclean Hstep k Hk. destruct act as [req|i env| |j env].
  - apply step_arrive_inv in Hstep as (Hh & Hf & _). rewrite Hf in Hk.
    destruct (Inv k Hk) as (i & h & Hi & Hh'). exists i, h.
    rewrite Hh. split; [now apply lookup_app_l_Some | exact Hh'].
  - apply step_handler_inv in Hstep as (h & m & Hi & Hm & Hf & _ & _ & Hh & _).
    assert (Hlen : i < length (handlers s)) by (apply lookup_lt_is_Some; eauto).
    rewrite Hf in Hk. destruct Hclean as [Hrm Hrn].
    destruct (hnext_markers p env i h _ _ _ m k Hm Hrm Hrn Hk) as [Hnew|[Hold Hnh]].
    + exists i, (m_next m). rewrite Hh.
      split; [now apply list_lookup_insert_eq | exact Hnew].
    + destruct (Inv k Hold) as (i' & h' & Hi' & Hh').
      exists i', h'. rewrite Hh. split; [|exact Hh'].
      rewrite list_lookup_insert_ne; [exact Hi'|].
      intros <-. rewrite Hi in Hi'. injection Hi' as <-. now apply Hnh.
  - apply step_take_inv in Hstep as (j & _ & _ & Hf & Hh & _).
    rewrite Hf in Hk. rewrite Hh. exact (Inv k Hk).
  - apply step_work_inv in Hstep as (job & Hj & _ & Hf & _ & _ & Hh & _).
    rewrite Hh. rewrite Hf in Hk.
    assert (Hp : job ∈ pending s).
    { unfold pending. apply elem_of_app. right. eapply list_elem_of_lookup_2, Hj. }
    destruct (uv_jobs p s Uv job Hp) as (a & Ha & E).
    assert (Hout : outPath job = tmpPathOf (a_hash a))
      by (rewrite E; destruct p; reflexivity).
    destruct (decide (tmpPathOf k = outPath job)) as [Heq|Hne].
    + exists (result job), (HWait a). split; [exact Ha|].
      rewrite Hout in Heq. apply tmpPathOf_inj in Heq. simpl. congruence.
    + rewrite process_frame in Hk;
        [exact (Inv k Hk) | apply not_eq_sym, tmpInputOf_not_tmpPathOf | exact Hne].
Qed.

Lemma markers_run (p : program) (acts : list action) (s s' : State) :
  channels_ok s -> uploads_valid p s -> markers_held s ->
  Forall (cleans p) acts -> execute p acts s = Some s' ->
  markers_held s'.
Proof.
  revert s. induction acts as [|act acts IH]; intros s Ch Uv Inv Hall.
  - rewrite execute_nil. now intros [= <-].
  - rewrite execute_cons. destruct (step_of p act s) as [s1|] eqn:E; [|discriminate].
    apply Forall_cons in Hall as [Hact Hall].
    apply IH; [| | |exact Hall].
    + exact (channels_ok_step p act s s1 Ch E).
    + exact (uploads_valid_step p act s s1 Ch Uv E).
    + exact (markers_step p act s s1 Ch Uv Inv Hact E).
Qed.

(** X11.  No marker is left behind, in any interleaving, as long as the
    removals do not fail.  Start from a store without [.tmp] files and
    take any run of either program in which no [os.Remove] fails (and,
    in [main.go], no [os.Rename]).  Then every [.tmp] file in the store
    belongs to a request in flight whose handler stands between its
    claim and the receipt of its result; once every request has been
    answered, the store holds no [.tmp] file. *)
Theorem markers_have_holders (p : program) (fs0 : FS) (acts : list action)
        (s : State) :
  (forall k, fs0 !! tmpPathOf k = None) ->
  Forall (cleans p) acts ->
  execute p acts (initial fs0) = Some s ->
  (forall k, is_Some (files s !! tmpPathOf k) ->
             exists i a, (handlers s !! i = Some (HSend a) \/
                          handlers s !! i = Some (HWait a)) /\ a_hash a = k) /\
  (Forall finished (handlers s) -> forall k, files s !! tmpPathOf k = None).
Proof.
  intros Hfresh Hall Hexec.
  assert (Inv : markers_held s).
  { apply (markers_run p acts (initial fs0) s); try assumption.
    - apply channels_ok_initial.
    - apply uploads_valid_initial.
    - intros k [x Hx]. simpl in Hx. rewrite Hfresh in Hx. discriminate. }
  assert (Hholder : forall k, is_Some (files s !! tmpPathOf k) ->
             exists i a, (handlers s !! i = Some (HSend a) \/
                          handlers s !! i = Some (HWait a)) /\ a_hash a = k).
  { intros k Hk. destruct (Inv k Hk) as (i & h & Hi & Hh).
    destruct h as [req|a|a|a|a|a sk|o]; simpl in Hh; try contradiction;
      exists i, a; auto. }
  split; [exact Hholder|].
  intros Hdone k. destruct (files s !! tmpPathOf k) as [x|] eqn:Hk; [|reflexivity].
  destruct (Hholder k) as (i & a & Hi & _); [rewrite Hk; eauto|].
  rewrite Forall_lookup in Hdone.
  destruct Hi as [Hi|Hi]; apply Hdone in Hi; contradiction.
Qed.

Lemma markers_have_holders_witness :
  let s := state_after part_000 (twice ++ part_000_race) in
  Forall finished (handlers s) /\ forall k, files s !! tmpPathOf k = None.
Proof.
  intros s.
  assert (Hexec : execute part_000 (twice ++ part_000_race) (initial ∅) = Some s)
    by (vm_compute; reflexivity).
  assert (Hall : Forall (cleans part_000) (twice ++ part_000_race)).
  { repeat (apply Forall_cons; split; [simpl; try (split; [reflexivity|discriminate]); exact I|]).
    apply Forall_nil. exact I. }
  assert (Hdone : Forall finished (handlers s)).
  { assert (E : exists o1 o2, handlers s = [HDone o1; HDone o2])
      by (eexists; eexists; vm_compute; reflexivity).
    destruct E as (o1 & o2 & ->). repeat constructor. }
  split; [exact Hdone|].
  exact (proj2 (markers_have_holders part_000 ∅ _ s (fun k => lookup_empty _)
                  Hall Hexec) Hdone).
Defined.
